(** * token-splitter: a shallow embedding of the chunking and packing core

    The development follows the TypeScript sources
    - [src/tokenizer.ts]  (approximateTokenCount, countTokens),
    - [src/splitText.ts]  (the three segmenters and splitTextIntoTokenChunks),
    - [src/splitCsv.ts]   (parseCsvLine, flushPart and splitCsvByTokens).

    JavaScript strings are sequences of UTF-16 code units and every string
    operation of the sources ([length], [slice], [trim], [split], the regular
    expressions) works on code units, so a string is a list of code units
    here.  JavaScript numbers that hold lengths, counts and budgets are
    integers in these sources and are modelled in [Z].

    The encoder of the [tiktoken] package is no part of the repository
    and is a parameter: a function that returns the tokens of a text or
    throws.  [countTokens] does not catch what it throws, so a count may
    fail and abort the packer that asked for it.

    The definitions come first: the embedding of the sources, the
    definitions that follow the words of the specification, the invariants
    of the two packing loops and the inputs of the examples.  The theorems
    follow, from the string operations up to the claims C1 to C10 about the
    segmenters, the counter and the two packers, and further properties of
    the same functions. *)

From Stdlib Require Import String Ascii List ZArith NArith Bool Lia Arith.
From Stdlib Require DecimalString.
Import ListNotations.

Set Implicit Arguments.
Local Open Scope Z_scope.

(** ** Strings as lists of UTF-16 code units *)

Module JsString.

Abbreviation char := N (only parsing).
Abbreviation str := (list N) (only parsing).

(** Reading an ASCII literal as a JavaScript string. *)
Definition lit (s : String.string) : str :=
  List.map N_of_ascii (list_ascii_of_string s).

Definition strlen (s : str) : Z := Z.of_nat (List.length s).

Definition isEmpty (s : str) : bool :=
  match s with [] => true | _ :: _ => false end.

(** [Boolean(s)] for a string: the empty string is the only falsy one. *)
Definition truthy (s : str) : bool := negb (isEmpty s).

Definition str_eqb (a b : str) : bool :=
  if list_eq_dec N.eq_dec a b then true else false.

Definition LF : char := 10%N.
Definition CR : char := 13%N.
Definition SPACE : char := 32%N.

(** The class [\s] of a regular expression, which is also the set that
    [trim], [trimStart] and [trimEnd] strip: WhiteSpace and LineTerminator of
    ECMAScript. *)
Definition isWhiteSpace (c : char) : bool :=
  ((9 <=? c) && (c <=? 13) || (c =? 32) || (c =? 160) || (c =? 5760)
   || (8192 <=? c) && (c <=? 8202) || (c =? 8232) || (c =? 8233)
   || (c =? 8239) || (c =? 8287) || (c =? 12288) || (c =? 65279))%N.

Fixpoint dropWhile (p : char -> bool) (s : str) : str :=
  match s with
  | [] => []
  | c :: r => if p c then dropWhile p r else s
  end.

(** A string that is empty or made of white space only. *)
Definition whitespaceOnly (s : str) : Prop :=
  Forall (fun c => isWhiteSpace c = true) s.

Definition trimStart (s : str) : str := dropWhile isWhiteSpace s.
Definition trimEnd (s : str) : str := rev (dropWhile isWhiteSpace (rev s)).
Definition trim (s : str) : str := trimEnd (trimStart s).

(** [String.prototype.slice(start, end)] on integer arguments; a negative
    index counts from the end, and [end] may be left out. *)
Definition clampIndex (len i : Z) : Z :=
  if i <? 0 then Z.max (len + i) 0 else Z.min i len.

Definition slice (s : str) (start : Z) (end_ : option Z) : str :=
  let len := strlen s in
  let from := clampIndex len start in
  let to := match end_ with
            | None => len
            | Some e => clampIndex len e
            end in
  firstn (Z.to_nat (to - from)) (skipn (Z.to_nat from) s).

(** [Array.prototype.join]. *)
Fixpoint join (sep : str) (xs : list str) : str :=
  match xs with
  | [] => []
  | [x] => x
  | x :: rest => x ++ sep ++ join sep rest
  end.

(** [text.replace(/\r\n/g, "\n")]. *)
Fixpoint replaceCRLF (s : str) : str :=
  match s with
  | [] => []
  | c :: r =>
      match r with
      | d :: r' =>
          if (c =? CR)%N && (d =? LF)%N
          then LF :: replaceCRLF r'
          else c :: replaceCRLF r
      | [] => [c]
      end
  end.

(** [text.replace(/\s+/g, ' ')]: every maximal run of white space becomes
    one space.  [inRun] tells that the previous code unit belonged to the
    run being replaced. *)
Fixpoint replaceWsRuns (inRun : bool) (s : str) : str :=
  match s with
  | [] => []
  | c :: r =>
      if isWhiteSpace c
      then (if inRun then replaceWsRuns true r
            else SPACE :: replaceWsRuns true r)
      else c :: replaceWsRuns false r
  end.

(** *** [String.prototype.split]

    The split loop of ECMAScript walks a position [q] over the string and
    asks the separator to match exactly at [q]; a match of length [k] closes
    the current piece and moves to [q + k], a failure moves to [q + 1]; the
    text after the last separator is the last piece.  (None of the three
    separators below matches the empty string, the one case the loop treats
    apart.)  A
    separator is given here by a matcher that sees the code units before
    [q] (nearest first, for look-behind) and those from [q] on, and answers
    with the length of its match.  [skip] counts the code units of a match
    that are still to be passed over. *)
Definition matcher := str -> str -> option nat.

Fixpoint splitLoop (m : matcher) (before piece : str) (skip : nat)
         (rest : str) : list str :=
  match rest with
  | [] => [rev piece]
  | c :: rest' =>
      match skip with
      | S k => splitLoop m (c :: before) piece k rest'
      | O =>
          match m before rest with
          | Some (S k) => rev piece :: splitLoop m (c :: before) [] k rest'
          | _ => splitLoop m (c :: before) (c :: piece) O rest'
          end
      end
  end.

Definition split (m : matcher) (s : str) : list str := splitLoop m [] [] O s.

(** Length of the longest prefix whose code units satisfy [p]. *)
Fixpoint runLength (p : char -> bool) (s : str) : nat :=
  match s with
  | c :: r => if p c then S (runLength p r) else O
  | [] => O
  end.

End JsString.
Import JsString.

(** ** src/splitText.ts: the segmenters *)

Module Segment.

(** [/\n{2,}/]: a greedy run of at least two line feeds. *)
Definition paragraphSeparator : matcher :=
  fun _ rest =>
    let k := runLength (fun c => (c =? LF)%N) rest in
    if (2 <=? k)%nat then Some k else None.

(** The class [[.!?]] of the look-behind. *)
Definition isSentenceEnd (c : char) : bool :=
  ((c =? 46) || (c =? 33) || (c =? 63))%N.

(** The class of the look-ahead: [A-Z], [0-9], the double quote, the two
    opening curly quotes U+201C and U+2018, [(] and [[]. *)
Definition isSentenceStart (c : char) : bool :=
  ((65 <=? c) && (c <=? 90) || (48 <=? c) && (c <=? 57) || (c =? 34)
   || (c =? 8220) || (c =? 8216) || (c =? 40) || (c =? 91))%N.

(** [/(?<=[.!?])\s+(?=[A-Z0-9...])/]: the code unit before the match ends
    a sentence, the match is a run of white space, and the code unit after
    it starts a sentence.  No member of the look-ahead class is white
    space, so of all the lengths that back-tracking tries for [\s+] only
    the whole run can succeed. *)
Definition sentenceSeparator : matcher :=
  fun before rest =>
    match before with
    | b :: _ =>
        if isSentenceEnd b then
          let k := runLength isWhiteSpace rest in
          match skipn k rest with
          | a :: _ => if (1 <=? k)%nat && isSentenceStart a
                      then Some k else None
          | [] => None
          end
        else None
    | [] => None
    end.

(** The string separator ["\n"]. *)
Definition lineSeparator : matcher :=
  fun _ rest =>
    match rest with
    | c :: _ => if (c =? LF)%N then Some 1%nat else None
    | [] => None
    end.

(** The value of [parts] in each segmenter, before the fallback. *)
Definition sentenceParts (text : str) : list str :=
  let cleaned := replaceCRLF text in
  filter truthy (List.map trim (split sentenceSeparator cleaned)).

Definition paragraphParts (text : str) : list str :=
  let cleaned := replaceCRLF text in
  filter truthy (List.map trim (split paragraphSeparator cleaned)).

Definition lineParts (text : str) : list str :=
  let cleaned := replaceCRLF text in
  filter (fun l => 0 <? strlen l)
         (List.map trimEnd (split lineSeparator cleaned)).

(** [parts.length ? parts : [text.trim()]]. *)
Definition orWholeText (parts : list str) (text : str) : list str :=
  match parts with
  | [] => [trim text]
  | _ :: _ => parts
  end.

Definition splitIntoSentences (text : str) : list str :=
  orWholeText (sentenceParts text) text.

Definition splitIntoParagraphs (text : str) : list str :=
  orWholeText (paragraphParts text) text.

Definition splitIntoLines (text : str) : list str :=
  orWholeText (lineParts text) text.

End Segment.
Import Segment.

(** ** Effects: what a call does besides returning

    The sources call the token counter (an asynchronous call that may load
    an encoder), query and write the file system, and throw.  A computation
    is modelled by the events it performs, in order, and by its outcome. *)

Module Effects.

Inductive event : Type :=
| EvExists (path : str)                (* fs.existsSync *)
| EvMkdir (path : str)                 (* fs.mkdirSync *)
| EvOpen (path : str)                  (* fs.createReadStream + readline *)
| EvCount (text : str)                 (* countTokens *)
| EvWrite (path : str) (content : str) (* fs.writeFileSync *).

(** The errors the sources throw, under the names of the specification; the
    sources tell their own apart by message only.  [TokenizationFailure] is
    what [enc.encode] throws: [countTokens] calls it outside any [try], so
    the exception reaches the caller.  [OutOfFuel] is no error of the
    program: it is the outcome of a modelled loop that was given too few
    steps. *)
Inductive error : Type :=
| ConfigurationError              (* "maxTokens must be > 0" *)
| InputNotFound (path : str)      (* "Input not found: ..." *)
| UnsupportedModeError            (* "assumeNoMultilineFields=false is not supported ..." *)
| MissingHeader                   (* "Missing header" *)
| TokenizationFailure             (* thrown by enc.encode *)
| OutOfFuel.

Definition M (A : Type) : Type := (list event * (error + A))%type.

Definition ret {A} (a : A) : M A := ([], inr a).
Definition throw {A} (e : error) : M A := ([], inl e).
Definition tell (ev : event) : M unit := ([ev], inr tt).

Definition bind {A B} (m : M A) (f : A -> M B) : M B :=
  match m with
  | (l, inl e) => (l, inl e)
  | (l, inr a) => let (l', r) := f a in (l ++ l', r)
  end.

Definition trace {A} (m : M A) : list event := fst m.
Definition outcome {A} (m : M A) : error + A := snd m.

End Effects.
Import Effects.

Notation "x <- m ;; k" := (bind m (fun x => k))
  (at level 61, m at next level, right associativity).
Notation "m ;;; k" := (bind m (fun _ => k))
  (at level 61, right associativity).

(** ** src/tokenizer.ts *)

Module Tokenizer.

(** The character class of [approximateTokenCount], in the order of the
    source: full stop, comma, semicolon, colon, exclamation mark, question
    mark, the round, square and curly brackets, double quote, apostrophe. *)
Definition isPunct (c : char) : bool :=
  ((c =? 46) || (c =? 44) || (c =? 59) || (c =? 58) || (c =? 33)
   || (c =? 63) || (c =? 40) || (c =? 41) || (c =? 91) || (c =? 93)
   || (c =? 123) || (c =? 125) || (c =? 34) || (c =? 39))%N.

(** [Math.ceil(a / b)] for integers [a >= 0] and [b > 0].  The quotient is a
    double; for the divisors 4 and 6 used here and any length a string can
    have, rounding the quotient to a double never crosses an integer, so
    the result is the integer ceiling. *)
Definition ceilDiv (a b : Z) : Z :=
  if a mod b =? 0 then a / b else a / b + 1.

Definition approximateTokenCount (text : str) : Z :=
  let normalized := trim (replaceWsRuns false text) in
  if isEmpty normalized then 0
  else
    let punct := strlen (filter isPunct normalized) in
    let chars := strlen normalized in
    let base := ceilDiv chars 4 in
    let bump := ceilDiv punct 6 in
    Z.max 1 (base + bump).

Record TokenizerOptions : Type := {
  model : option str;
  approximate : option bool
}.

(** [enc.encode] of the [tiktoken] package, which is not part of the
    repository: the tokens of a text, or [None] when the call throws (the
    encoders of the package reject a text that holds one of their special
    tokens). *)
Definition Encoder : Type := str -> option (list N).

(** What [initTiktoken] leaves in [cachedEncode]: for a model hint, the
    encoder it could obtain from the package, if any. *)
Definition Tiktoken : Type := option str -> option Encoder.

(** The number [countTokens] resolves to; [None] when [cachedEncode(text)]
    throws.  Only the approximation cannot fail. *)
Definition tokenCount (tk : Tiktoken) (opts : TokenizerOptions) (text : str)
  : option Z :=
  match approximate opts with
  | Some true => Some (approximateTokenCount text)
  | _ =>
      match tk (model opts) with
      | Some cachedEncode => option_map strlen (cachedEncode text)
      | None => Some (approximateTokenCount text)
      end
  end.

(** [countTokens]: the exception of the encoder is not caught. *)
Definition countTokens (tk : Tiktoken) (text : str) (opts : TokenizerOptions)
  : M Z :=
  tell (EvCount text) ;;;
  match tokenCount tk opts text with
  | Some n => ret n
  | None => throw TokenizationFailure
  end.

End Tokenizer.
Import Tokenizer.

(** ** src/splitText.ts: splitTextIntoTokenChunks *)

Module SplitText.

Inductive Mode : Type := Paragraph | Sentence | Line.

Record SplitTextOptions : Type := {
  maxTokens : Z;
  model : option str;
  approximate : option bool;
  mode : option Mode
}.

(** The variables of the function body: [chunks] and [tokenCounts] are the
    two result arrays, [current] and [currentTokens] the open chunk. *)
Record PackState : Type := {
  chunks : list str;
  tokenCounts : list Z;
  current : list str;
  currentTokens : Z
}.

Definition initial : PackState :=
  {| chunks := []; tokenCounts := []; current := []; currentTokens := 0 |}.

(** [mode === "line" ? "\n" : "\n\n"]. *)
Definition separator (m : Mode) : str :=
  match m with
  | Line => [LF]
  | _ => [LF; LF]
  end.

Definition segment (m : Mode) (text : str) : list str :=
  match m with
  | Sentence => splitIntoSentences text
  | Line => splitIntoLines text
  | Paragraph => splitIntoParagraphs text
  end.

(** The value of [parts] in the segmenter of a mode, before the fallback. *)
Definition partsOf (m : Mode) (text : str) : list str :=
  match m with
  | Sentence => sentenceParts text
  | Line => lineParts text
  | Paragraph => paragraphParts text
  end.

(** [Math.floor(n * 0.85)] for a length [n].  The double nearest to 0.85
    lies below it by less than 3e-17, and the product is rounded to the
    nearest double: it is exact enough that the floor is that of
    [85 n / 100], also when [n] is a multiple of 20. *)
Definition floor85 (n : Z) : Z := (n * 85) / 100.

(** [{ model, approximate }], the options handed to [countTokens]. *)
Definition topts (opts : SplitTextOptions) : TokenizerOptions :=
  {| Tokenizer.model := model opts; Tokenizer.approximate := approximate opts |}.

(** [mode = "paragraph"] is the default of the destructuring. *)
Definition theMode (opts : SplitTextOptions) : Mode :=
  match mode opts with Some m => m | None => Paragraph end.

Section Packer.

Variable tk : Tiktoken.
Variable opts : SplitTextOptions.

(** [chunks.push(current.join(...)); tokenCounts.push(currentTokens)]. *)
Definition pushCurrent (st : PackState) : PackState :=
  {| chunks := chunks st ++ [join (separator (theMode opts)) (current st)];
     tokenCounts := tokenCounts st ++ [currentTokens st];
     current := current st;
     currentTokens := currentTokens st |}.

(** Lines 65-70: flush the open chunk and reset it. *)
Definition flushAndReset (st : PackState) : PackState :=
  match current st with
  | [] => st
  | _ :: _ =>
      let st' := pushCurrent st in
      {| chunks := chunks st'; tokenCounts := tokenCounts st';
         current := []; currentTokens := 0 |}
  end.

(** Lines 97-100 and 109-112: flush the open chunk, leaving the
    accumulator as it is. *)
Definition flushIfAny (st : PackState) : PackState :=
  match current st with
  | [] => st
  | _ :: _ => pushCurrent st
  end.

(** Lines 81-83, the shrink loop. *)
Fixpoint shrinkLoop (fuel : nat) (slice_ : str) : M str :=
  t <- countTokens tk slice_ (topts opts) ;;
  if (t >? maxTokens opts) && (strlen slice_ >? 50) then
    match fuel with
    | O => throw OutOfFuel
    | S fuel' =>
        shrinkLoop fuel' (slice slice_ 0 (Some (floor85 (strlen slice_))))
    end
  else ret slice_.

(** Lines 74-90, the hard-split loop. *)
Fixpoint hardSplit (fuel : nat) (remaining : str) (st : PackState)
  : M PackState :=
  if strlen remaining >? 0 then
    match fuel with
    | O => throw OutOfFuel
    | S fuel' =>
        let guessChars := Z.max 50 (maxTokens opts * 4) in
        slice_ <- shrinkLoop fuel (slice remaining 0 (Some guessChars)) ;;
        sliceTokens <- countTokens tk slice_ (topts opts) ;;
        let st' :=
          {| chunks := chunks st ++ [slice_];
             tokenCounts := tokenCounts st ++ [sliceTokens];
             current := current st;
             currentTokens := currentTokens st |} in
        hardSplit fuel'
                  (trimStart (slice remaining (strlen slice_) None)) st'
    end
  else ret st.

(** Lines 60-106, the body of the loop over the units. *)
Definition packUnit (fuel : nat) (st : PackState) (unit_ : str)
  : M PackState :=
  unitTokens <- countTokens tk unit_ (topts opts) ;;
  if unitTokens >? maxTokens opts then
    hardSplit fuel unit_ (flushAndReset st)
  else if currentTokens st + unitTokens >? maxTokens opts then
    let st' := flushIfAny st in
    ret {| chunks := chunks st'; tokenCounts := tokenCounts st';
           current := [unit_]; currentTokens := unitTokens |}
  else
    ret {| chunks := chunks st; tokenCounts := tokenCounts st;
           current := current st ++ [unit_];
           currentTokens := currentTokens st + unitTokens |}.

Fixpoint packUnits (fuel : nat) (units : list str) (st : PackState)
  : M PackState :=
  match units with
  | [] => ret st
  | unit_ :: rest =>
      st' <- packUnit fuel st unit_ ;;
      packUnits fuel rest st'
  end.

(** The function; [fuel] bounds the iterations of each of its two [while]
    loops. *)
Definition splitTextIntoTokenChunks (fuel : nat) (text : str)
  : M (list str * list Z) :=
  if maxTokens opts <=? 0 then throw ConfigurationError
  else
    let units := segment (theMode opts) text in
    st <- packUnits fuel units initial ;;
    let st' := flushIfAny st in
    ret (chunks st', tokenCounts st').

End Packer.

End SplitText.

(** ** src/splitCsv.ts *)

Module SplitCsv.

Inductive TokenMode : Type := LineMode | CellsMode.

Record SplitCsvOptions : Type := {
  inputPath : str;
  outDir : str;
  maxTokens : Z;
  model : option str;
  approximate : option bool;
  tokenMode : option TokenMode;          (* default: line *)
  delimiter : option str;                (* default: a comma *)
  quote : option str;                    (* default: a double quote *)
  assumeNoMultilineFields : option bool  (* default: true *)
}.

(** [parseCsvLine]: the loop over the code units of the line.  [ch === quote]
    compares a string of one code unit with the whole [quote] string. *)
Fixpoint parseCells (delimiter_ quote_ : str) (cells : list str) (cur : str)
         (inQuotes : bool) (line : str) : list str :=
  match line with
  | [] => cells ++ [cur]
  | ch :: rest =>
      if str_eqb [ch] quote_ then
        match rest with
        | next :: rest' =>
            if inQuotes && str_eqb [next] quote_
            then parseCells delimiter_ quote_ cells (cur ++ quote_) inQuotes rest'
            else parseCells delimiter_ quote_ cells cur (negb inQuotes) rest
        | [] => parseCells delimiter_ quote_ cells cur (negb inQuotes) rest
        end
      else if negb inQuotes && str_eqb [ch] delimiter_ then
        parseCells delimiter_ quote_ (cells ++ [cur]) [] inQuotes rest
      else
        parseCells delimiter_ quote_ cells (cur ++ [ch]) inQuotes rest
  end.

Definition parseCsvLine (line delimiter_ quote_ : str) : list str :=
  parseCells delimiter_ quote_ [] [] false line.

(** [String(part).padStart(3, '0')]. *)
Definition decimal (n : Z) : str :=
  lit (DecimalString.NilZero.string_of_int (Z.to_int n)).

Definition padStart (s : str) (n : nat) (c : char) : str :=
  repeat c (n - List.length s) ++ s.

(** The variables that [flushPart] and the loop share. *)
Record CsvState : Type := {
  header : option str;
  part : Z;
  currentTokens : Z;
  currentLines : list str;
  partPaths : list str
}.

Definition initial : CsvState :=
  {| header := None; part := 0; currentTokens := 0; currentLines := [];
     partPaths := [] |}.

(** The file system as the function sees it: for a path that exists, the
    lines that [readline] yields for it, in order. *)
Definition FileSystem : Type := str -> option (list str).

(** [{ model, approximate }], the options handed to [countTokens]. *)
Definition topts (opts : SplitCsvOptions) : TokenizerOptions :=
  {| Tokenizer.model := model opts; Tokenizer.approximate := approximate opts |}.

Definition theDelimiter (opts : SplitCsvOptions) : str :=
  match delimiter opts with Some d => d | None => lit "," end.

Definition theQuote (opts : SplitCsvOptions) : str :=
  match quote opts with Some q => q | None => [34%N] end.

Section Packer.

Variable tk : Tiktoken.
Variable fsys : FileSystem.
(** [path.basename], [path.extname] and [path.join] of Node. *)
Variable basename : str -> str -> str.
Variable extname : str -> str.
Variable pathJoin : str -> str -> str.
Variable opts : SplitCsvOptions.

Definition partPath (n : Z) : str :=
  let base := basename (inputPath opts) (extname (inputPath opts)) in
  pathJoin (outDir opts)
           (base ++ lit "_part" ++ padStart (decimal n) 3 48%N ++ lit ".csv").

Definition partContent (h : str) (rows : list str) : str :=
  join [LF] (h :: rows) ++ [LF].

(** [flushPart]; [!header] holds for [null] and for the empty string. *)
Definition flushPart (st : CsvState) : M CsvState :=
  match header st with
  | Some (c :: h) =>
      match currentLines st with
      | [] => ret st
      | _ :: _ =>
          let part' := part st + 1 in
          let outPath := partPath part' in
          tell (EvWrite outPath (partContent (c :: h) (currentLines st))) ;;;
          ret {| header := header st; part := part'; currentTokens := 0;
                 currentLines := []; partPaths := partPaths st ++ [outPath] |}
      end
  | _ => throw MissingHeader
  end.

(** The text whose tokens are counted for a row. *)
Definition rowTextForTokens (line : str) : str :=
  match tokenMode opts with
  | Some CellsMode => join (lit " | ") (parseCsvLine line (theDelimiter opts) (theQuote opts))
  | _ => line
  end.

(** The body of the loop over the lines. *)
Definition processLine (st : CsvState) (line : str) : M CsvState :=
  if strlen (trim line) =? 0 then ret st
  else
    match header st with
    | Some (_ :: _) =>
        rowTokens <- countTokens tk (rowTextForTokens line) (topts opts) ;;
        if rowTokens >? maxTokens opts then
          st1 <- flushPart st ;;
          flushPart {| header := header st1; part := part st1;
                       currentTokens := rowTokens; currentLines := [line];
                       partPaths := partPaths st1 |}
        else
          st1 <- (if currentTokens st + rowTokens >? maxTokens opts
                  then flushPart st else ret st) ;;
          ret {| header := header st1; part := part st1;
                 currentTokens := currentTokens st1 + rowTokens;
                 currentLines := currentLines st1 ++ [line];
                 partPaths := partPaths st1 |}
    | _ =>
        ret {| header := Some line; part := part st;
               currentTokens := currentTokens st;
               currentLines := currentLines st; partPaths := partPaths st |}
    end.

Fixpoint processLines (lines : list str) (st : CsvState) : M CsvState :=
  match lines with
  | [] => ret st
  | line :: rest =>
      st' <- processLine st line ;;
      processLines rest st'
  end.

Definition existsSync (p : str) : M bool :=
  tell (EvExists p) ;;;
  ret (match fsys p with Some _ => true | None => false end).

Definition readLines (p : str) : M (list str) :=
  tell (EvOpen p) ;;;
  ret (match fsys p with Some ls => ls | None => [] end).

(** The function; it returns [parts] and [partPaths]. *)
Definition splitCsvByTokens : M (Z * list str) :=
  found <- existsSync (inputPath opts) ;;
  if negb found then throw (InputNotFound (inputPath opts))
  else if maxTokens opts <=? 0 then throw ConfigurationError
  else
    tell (EvMkdir (outDir opts)) ;;;
    match assumeNoMultilineFields opts with
    | Some false => throw UnsupportedModeError
    | _ =>
        lines <- readLines (inputPath opts) ;;
        st <- processLines lines initial ;;
        st' <- flushPart st ;;
        ret (part st', partPaths st')
    end.

End Packer.

End SplitCsv.

(** ** The specification side

    Definitions that follow the words of the specification, to be compared
    with the functions above. *)

(** The formula as the specification words it. *)
Module ApproximateSpec.

(** The words of a text: its maximal runs of code units that are not white
    space. *)
Fixpoint words (s : str) : list str :=
  match s with
  | [] => []
  | c :: r =>
      if isWhiteSpace c then words r
      else
        match r with
        | d :: _ =>
            if isWhiteSpace d then [c] :: words r
            else match words r with
                 | w :: ws => (c :: w) :: ws
                 | [] => [[c]]
                 end
        | [] => [[c]]
        end
  end.

(** Collapsing every run of white space to one space and trimming leaves
    the words, one space between neighbours. *)
Definition normalize (text : str) : str := join [SPACE] (words text).

(** The punctuation set: . , ; : ! ? ( ) [ ] { } and the two quotes. *)
Definition punctuation : list char :=
  [46; 44; 59; 58; 33; 63; 40; 41; 91; 93; 123; 125; 34; 39]%N.

Definition punctuationCharCount (s : str) : Z :=
  Z.of_nat (length (filter (fun c => if in_dec N.eq_dec c punctuation
                                     then true else false) s)).

(** The ceiling of [a / b]. *)
Definition ceil (a b : Z) : Z := (a + b - 1) / b.

Definition count (text : str) : Z :=
  match normalize text with
  | [] => 0
  | normalized =>
      let base := ceil (strlen normalized) 4 in
      let punctuationBump := ceil (punctuationCharCount normalized) 6 in
      Z.max 1 (base + punctuationBump)
  end.

End ApproximateSpec.

(** The hard-split fallback as the specification describes it, for a
    counting function and a budget. *)
Module HardSplitSpec.

Section Spec.

Variable count : str -> Z.
Variable budget : Z.

(** Step (b): while the recount of the window exceeds the budget and the
    window is longer than 50 characters, shrink it to 85% of its length,
    rounded down.  [shrunk w w'] reads: the loop started on [w] ends with
    the window [w']. *)
Inductive shrunk : str -> str -> Prop :=
| shrunk_stop (w : str) :
    count w <= budget \/ strlen w <= 50 ->
    shrunk w w
| shrunk_step (w w' : str) :
    count w > budget -> strlen w > 50 ->
    shrunk (firstn (Z.to_nat (85 * strlen w / 100)) w) w' ->
    shrunk w w'.

(** Steps (a) and (c), repeated while text remains: the window starts as
    the first [max(50, budget * 4)] characters, the shrunk window is emitted,
    and the remainder after it is left-trimmed. *)
Inductive fragments : str -> list str -> Prop :=
| fragments_done : fragments [] []
| fragments_next (remaining w : str) (rest : list str) :
    remaining <> [] ->
    shrunk (firstn (Z.to_nat (Z.max 50 (budget * 4))) remaining) w ->
    fragments (trimStart (skipn (length w) remaining)) rest ->
    fragments remaining (w :: rest).

(** The unit sequence with every oversized unit replaced by its fragments. *)
Inductive expands : list str -> list str -> Prop :=
| expands_nil : expands [] []
| expands_keep (u : str) (us xs : list str) :
    count u <= budget -> expands us xs -> expands (u :: us) (u :: xs)
| expands_split (u : str) (frs us xs : list str) :
    count u > budget -> fragments u frs -> expands us xs ->
    expands (u :: us) (frs ++ xs).

End Spec.

End HardSplitSpec.

(** What the two packers promise about their output. *)
Module PackingSpec.

(** [w] is a contiguous part of [u]. *)
Definition infix (w u : str) : Prop := exists pre post, u = pre ++ w ++ post.

(** The sum of the counts of a group of units or rows. *)
Definition total (count : str -> Z) (g : list str) : Z :=
  fold_right Z.add 0 (List.map count g).

(** The budget invariant as claimed: a chunk with its recorded total is
    within the budget, or it is one unit of the input whose own count
    exceeds the budget. *)
Definition withinBudgetOrOneUnit (count : str -> Z) (budget : Z)
           (units : list str) (chunk : str) (recorded : Z) : Prop :=
  recorded <= budget \/ (In chunk units /\ count chunk > budget).

(** The budget invariant as the text packer keeps it: a chunk over the
    budget is a hard-split fragment, of at most 50 code units, of a unit
    whose count exceeds the budget, recorded with its own recount. *)
Definition withinBudgetOrFragment (count : str -> Z) (budget : Z)
           (units : list str) (chunk : str) (recorded : Z) : Prop :=
  recorded <= budget \/
  (recorded = count chunk /\ strlen chunk <= 50 /\
   exists u, In u units /\ count u > budget /\ infix chunk u).

(** The budget invariant of a part, on the rows it holds. *)
Definition withinBudgetOrOneRow (count : str -> Z) (budget : Z)
           (rows : list str) : Prop :=
  total count rows <= budget \/ (exists r, rows = [r] /\ count r > budget).


(** The events that write a file, as path and content. *)
Definition writes (log : list event) : list (str * str) :=
  flat_map (fun ev => match ev with
                      | EvWrite p c => [(p, c)]
                      | _ => []
                      end) log.

(** A line that the row packer does not skip. *)
Definition nonBlank (line : str) : bool := negb (strlen (trim line) =? 0).

(** A part as the specification words it: the header, then the rows, each
    on a line of its own, every line ended by a line feed. *)
Definition partText (h : str) (rows : list str) : str :=
  h ++ [LF] ++ flat_map (fun row => row ++ [LF]) rows.

(** [w] is a contiguous piece of one of the units. *)
Definition pieceOf (units : list str) (w : str) : Prop :=
  exists u, In u units /\ infix w u.

End PackingSpec.

(** Counts and failed counts.  The count of a text is whatever the counter
    in use returns for it, and a call of the counter may fail. *)
Module Counting.

(** [count] names what the counter returns: whenever a call returns, it
    returns [count text].  Nothing is said of the texts it fails on. *)
Definition namesCounts (tk : Tiktoken) (o : TokenizerOptions)
           (count : str -> Z) : Prop :=
  forall (text : str) (n : Z),
    tokenCount tk o text = Some n -> n = count text.

(** The computation [m] was aborted by a count that failed, on one of the
    texts of [among]. *)
Definition aborted (tk : Tiktoken) (o : TokenizerOptions) (A : Type)
           (m : M A) (among : str -> Prop) : Prop :=
  outcome m = inl TokenizationFailure /\
  exists w, among w /\ tokenCount tk o w = None.

(** The count of a row fails, in the token mode of the options. *)
Definition rowFails (tk : Tiktoken) (opts : SplitCsv.SplitCsvOptions)
           (row : str) : Prop :=
  tokenCount tk (SplitCsv.topts opts) (SplitCsv.rowTextForTokens opts row)
  = None.

(** What the counter returns where it returns, and 0 elsewhere: one of the
    functions that name its counts. *)
Definition countOr0 (tk : Tiktoken) (o : TokenizerOptions) (text : str) : Z :=
  match tokenCount tk o text with
  | Some n => n
  | None => 0
  end.

End Counting.

(** ** Invariants of the two loops *)

Module Invariants.
Import PackingSpec.

(** In this module [count] is the function that names the counts of the
    counter in use. *)

(** The state of the text packer after [frs] were pushed as chunks of their
    own, each with its recount. *)
Definition pushed (count : str -> Z) (st : SplitText.PackState)
           (frs : list str) : SplitText.PackState :=
  {| SplitText.chunks := SplitText.chunks st ++ frs;
     SplitText.tokenCounts := SplitText.tokenCounts st ++ List.map count frs;
     SplitText.current := SplitText.current st;
     SplitText.currentTokens := SplitText.currentTokens st |}.

(** A group that became a chunk: it is within the budget, or it is one
    hard-split fragment of at most 50 code units. *)
Definition okGroup (count : str -> Z) (opts : SplitText.SplitTextOptions)
           (units : list str) (g : list str) : Prop :=
  g <> [] /\
  (total count g <= SplitText.maxTokens opts \/
   exists w u,
     g = [w] /\ count w > SplitText.maxTokens opts /\
     strlen w <= 50 /\ In u units /\
     count u > SplitText.maxTokens opts /\ infix w u).

(** What holds of the variables of the text packer between two iterations:
    [gs] are the groups flushed so far and [done] the units consumed. *)
Definition packInv (count : str -> Z) (opts : SplitText.SplitTextOptions)
           (units done : list str) (st : SplitText.PackState)
           (gs : list (list str)) : Prop :=
  SplitText.chunks st
  = List.map (join (SplitText.separator (SplitText.theMode opts))) gs /\
  SplitText.tokenCounts st = List.map (total count) gs /\
  HardSplitSpec.expands count (SplitText.maxTokens opts) done
                        (concat gs ++ SplitText.current st) /\
  SplitText.currentTokens st = total count (SplitText.current st) /\
  total count (SplitText.current st) <= SplitText.maxTokens opts /\
  Forall (okGroup count opts units) gs.

(** The groups once the open chunk is flushed. *)
Definition flushedGroups (st : SplitText.PackState) (gs : list (list str))
  : list (list str) :=
  match SplitText.current st with
  | [] => gs
  | _ :: _ => gs ++ [SplitText.current st]
  end.

(** The count of a row, in the token mode of the options. *)
Definition rowCount (count : str -> Z) (opts : SplitCsv.SplitCsvOptions)
           (line : str) : Z :=
  count (SplitCsv.rowTextForTokens opts line).

(** A group of rows that became a part. *)
Definition okRows (count : str -> Z) (opts : SplitCsv.SplitCsvOptions)
           (g : list str) : Prop :=
  g <> [] /\
  withinBudgetOrOneRow (rowCount count opts) (SplitCsv.maxTokens opts) g.

(** What holds of the variables of the row packer once the header [h] is
    captured. *)
Definition csvInv (count : str -> Z) (opts : SplitCsv.SplitCsvOptions)
           (h : str) (st : SplitCsv.CsvState) : Prop :=
  SplitCsv.header st = Some h /\ h <> [] /\
  SplitCsv.currentTokens st
  = total (rowCount count opts) (SplitCsv.currentLines st) /\
  total (rowCount count opts) (SplitCsv.currentLines st)
  <= SplitCsv.maxTokens opts.

(** What a run of the row packer wrote and how its variables moved: [gs]
    are the groups of rows of the parts written, in order. *)
Definition wrote (h : str) (st st' : SplitCsv.CsvState) (log : list event)
           (gs : list (list str)) : Prop :=
  List.map snd (writes log) = List.map (SplitCsv.partContent h) gs /\
  SplitCsv.part st' = SplitCsv.part st + Z.of_nat (length gs) /\
  SplitCsv.partPaths st'
  = SplitCsv.partPaths st ++ List.map fst (writes log).

(** The rows a flush writes. *)
Definition flushedRows (st : SplitCsv.CsvState) : list (list str) :=
  match SplitCsv.currentLines st with
  | [] => []
  | _ :: _ => [SplitCsv.currentLines st]
  end.

End Invariants.

(** ** Inputs for the examples *)

Module Examples.
Import SplitText SplitCsv.

(** No [tiktoken] encoder can be loaded. *)
Definition noEncoder : Tiktoken := fun _ => None.

Definition textOptions (budget : Z) (m : option Mode) : SplitTextOptions :=
  {| SplitText.maxTokens := budget; SplitText.model := None;
     SplitText.approximate := Some true; SplitText.mode := m |}.

Definition csvOptions (budget : Z) (tm : option TokenMode) : SplitCsvOptions :=
  {| inputPath := lit "mail.csv"; outDir := lit "out"; SplitCsv.maxTokens := budget;
     SplitCsv.model := None; SplitCsv.approximate := Some true;
     tokenMode := tm; delimiter := None; quote := None;
     assumeNoMultilineFields := None |}.

(** A file system that holds [mail.csv] with the given lines and nothing
    else. *)
Definition oneFile (lines : list str) : FileSystem :=
  fun p => if str_eqb p (lit "mail.csv") then Some lines else None.

Definition noFile : FileSystem := fun _ => None.

(** Stand-ins for [path.basename], [path.extname] and [path.join]. *)
Definition basename (p ext : str) : str :=
  firstn (length p - length ext) p.
Definition extname (p : str) : str := lit ".csv".
Definition pathJoin (dir name : str) : str := dir ++ lit "/" ++ name.

(** Sixty letters [a]: one paragraph of 15 tokens. *)
Definition sixtyLetters : str := repeat 97%N 60.

(** Fifty letters [a], a space, ten letters [b]. *)
Definition cutAtSpace : str := repeat 97%N 50 ++ [SPACE] ++ repeat 98%N 10.

(** A header, five rows of 10 tokens each and a blank line. *)
Definition fiveRows : list str :=
  [lit "a,b"; repeat 120%N 40; repeat 120%N 40; []; repeat 120%N 40;
   repeat 120%N 40; repeat 120%N 40].

(** The double quote, the default [quote] of the row packer. *)
Definition dq : char := 34%N.

(** Two rows with a quoted cell: the first holds a comma, the second an
    escaped quote. *)
Definition quotedRow1 : str := lit "1," ++ [dq] ++ lit "a, b" ++ [dq].
Definition quotedRow2 : str :=
  lit "2," ++ [dq] ++ lit "c" ++ [dq; dq] ++ lit "d" ++ [dq].


(** [s.startsWith(p)] and [s.includes(p)]. *)
Fixpoint startsWith (s p : str) : bool :=
  match p, s with
  | [], _ => true
  | _ :: _, [] => false
  | a :: p', b :: s' => (a =? b)%N && startsWith s' p'
  end.

Fixpoint includes (s p : str) : bool :=
  startsWith s p ||
  match s with
  | [] => false
  | _ :: s' => includes s' p
  end.

(** An encoder in the manner of the package: a text that holds the special
    token [<|endoftext|>] is rejected, any other text gets one token for
    each code unit. *)
Definition strictEncoder : Encoder :=
  fun text => if includes text (lit "<|endoftext|>") then None else Some text.

Definition strictTiktoken : Tiktoken := fun _ => Some strictEncoder.

(** Options that ask for the encoder. *)
Definition exactCsvOptions (budget : Z) : SplitCsvOptions :=
  {| inputPath := lit "mail.csv"; outDir := lit "out"; SplitCsv.maxTokens := budget;
     SplitCsv.model := None; SplitCsv.approximate := None;
     tokenMode := None; delimiter := None; quote := None;
     assumeNoMultilineFields := None |}.

Definition exactTextOptions (budget : Z) : SplitTextOptions :=
  {| SplitText.maxTokens := budget; SplitText.model := None;
     SplitText.approximate := None; SplitText.mode := None |}.

(** Two paragraphs, the second of which holds the special token. *)
Definition poisonedText : str :=
  lit "one" ++ [LF; LF] ++ lit "two <|endoftext|> three".

(** A header and four rows, the third of which holds the special token. *)
Definition poisonedRows : list str :=
  [lit "id,body"; lit "1,one"; lit "2,two"; lit "3,<|endoftext|>";
   lit "4,four"].

End Examples.

(** ** What the text keeps

    The code units of a string that are not white space, in order: what
    segmenting, trimming and hard-splitting must not lose. *)

Module Content.

Definition visible (s : str) : str :=
  filter (fun c => negb (isWhiteSpace c)) s.

(** A separator that matches white space only. *)
Definition matchesWhiteSpace (m : matcher) : Prop :=
  forall (before rest : str) (k : nat),
    m before rest = Some k -> whitespaceOnly (firstn k rest).

(** A string that holds two line feeds in a row. *)
Definition holdsBlankLine (s : str) : Prop :=
  exists a b, s = a ++ LF :: LF :: b.

End Content.

(** ** Greedy packing

    A group is closed only when the next unit or row would not fit: for
    every two neighbouring groups, the first together with the head of the
    second is over the budget. *)

Module Greedy.
Import PackingSpec.

Definition closedWhenFull (count : str -> Z) (budget : Z)
           (gs : list (list str)) : Prop :=
  forall (a : list (list str)) (g h : list str) (b : list (list str)),
    gs = a ++ g :: h :: b ->
    exists u h', h = u :: h' /\ total count g + count u > budget.

(** What holds of the variables of the text packer between two iterations
    when no unit is over the budget. *)
Definition greedyInv (count : str -> Z) (opts : SplitText.SplitTextOptions)
           (done : list str) (st : SplitText.PackState)
           (gs : list (list str)) : Prop :=
  SplitText.chunks st
  = List.map (join (SplitText.separator (SplitText.theMode opts))) gs /\
  SplitText.tokenCounts st = List.map (total count) gs /\
  SplitText.currentTokens st = total count (SplitText.current st) /\
  concat gs ++ SplitText.current st = done /\
  closedWhenFull count (SplitText.maxTokens opts)
                 (Invariants.flushedGroups st gs) /\
  (SplitText.current st = [] -> gs = []).

(** What holds of the parts written so far, [gs], and the open part of the
    row packer: the rows held have counts that are not negative; a row
    over the budget closes the part before it and is a part of its own, so
    with no open part the last part is such a row. *)
Definition rowsInv (count : str -> Z) (opts : SplitCsv.SplitCsvOptions)
           (st : SplitCsv.CsvState) (gs : list (list str)) : Prop :=
  Forall (fun r => 0 <= Invariants.rowCount count opts r)
         (SplitCsv.currentLines st) /\
  match SplitCsv.currentLines st with
  | [] =>
      closedWhenFull (Invariants.rowCount count opts)
                     (SplitCsv.maxTokens opts) gs
      /\ (gs = [] \/
          exists gs' r,
            gs = gs' ++ [[r]] /\
            Invariants.rowCount count opts r > SplitCsv.maxTokens opts)
  | _ :: _ =>
      closedWhenFull (Invariants.rowCount count opts) (SplitCsv.maxTokens opts)
                     (gs ++ [SplitCsv.currentLines st])
  end.

End Greedy.

(** ** Part numbers *)

Module PartNumbers.

(** The paths of the parts 1 to [n], in order. *)
Definition numberedPaths (basename : str -> str -> str) (extname : str -> str)
           (pathJoin : str -> str -> str) (opts : SplitCsv.SplitCsvOptions)
           (n : nat) : list str :=
  List.map (fun i => SplitCsv.partPath basename extname pathJoin opts
                                       (Z.of_nat i))
           (seq 1 n).

(** The part counter counts the paths, which are numbered from 1. *)
Definition counted (basename : str -> str -> str) (extname : str -> str)
           (pathJoin : str -> str -> str) (opts : SplitCsv.SplitCsvOptions)
           (st : SplitCsv.CsvState) : Prop :=
  0 <= SplitCsv.part st /\
  SplitCsv.partPaths st
  = numberedPaths basename extname pathJoin opts
                  (Z.to_nat (SplitCsv.part st)).

End PartNumbers.

(** ** Writing a CSV line

    The quoting that [parseCsvLine] is written to undo: a cell is put
    between two quotes, a quote inside it is doubled, and the cells are
    joined by the delimiter. *)

Module CsvQuoting.

Definition escapeQuotes (q : char) (cell : str) : str :=
  flat_map (fun c => if (c =? q)%N then [q; q] else [c]) cell.

Definition quoteCell (q : char) (cell : str) : str :=
  [q] ++ escapeQuotes q cell ++ [q].

Definition quoteRow (d q : char) (cells : list str) : str :=
  join [d] (List.map (quoteCell q) cells).

(** No code unit of the line is the quote string. *)
Definition quoteFree (quote_ : str) (line : str) : Prop :=
  Forall (fun c => str_eqb [c] quote_ = false) line.

End CsvQuoting.

(** ** src/tokenizer.ts: the cached encoder

    [initTiktoken], [countTokens] and [withTokenizer] with the module
    variables [cachedEncode] and [cachedFree] made explicit.  The two are
    set and cleared together, so the state is the cached encoder, if any.
    The [tiktoken] package is not part of the repository: it is given by
    what its import yields. *)

Module TokenizerCache.

(** What [import('tiktoken')] yields: for each of the two entry points,
    whether it is a function and, if so, the encoding it returns for a
    name; [None] for a call that throws or returns nothing. *)
Record Package : Type := {
  encoding_for_model : option (str -> option Encoder);
  get_encoding : option (str -> option Encoder)
}.

Definition Cache : Type := option Encoder.

(** [initTiktoken]; [pkg] is [None] when the import fails.  Every failure
    inside ends in the outer [catch], which leaves the cache empty. *)
Definition initTiktoken (pkg : option Package) (modelHint : option str)
           (cache : Cache) : Cache :=
  match cache with
  | Some cachedEncode => Some cachedEncode
  | None =>
      match pkg with
      | None => None
      | Some tk =>
          let enc :=
            match modelHint, encoding_for_model tk with
            | Some (c :: hint), Some forModel => forModel (c :: hint)
            | _, _ => None
            end in
          match enc with
          | Some e => Some e
          | None =>
              match get_encoding tk with
              | Some getEncoding => getEncoding (lit "cl100k_base")
              | None => None
              end
          end
      end
  end.

(** [countTokens], returning the count, or [None] when [cachedEncode]
    throws, and the cache it leaves: the encoder was cached before it was
    called. *)
Definition countTokens (pkg : option Package) (text : str)
           (opts : TokenizerOptions) (cache : Cache) : option Z * Cache :=
  match approximate opts with
  | Some true => (Some (approximateTokenCount text), cache)
  | _ =>
      match initTiktoken pkg (model opts) cache with
      | Some cachedEncode =>
          (option_map strlen (cachedEncode text), Some cachedEncode)
      | None => (Some (approximateTokenCount text), None)
      end
  end.

(** The outcome of a call as the caller sees it. *)
Definition result (n : option Z) : error + Z :=
  match n with
  | Some k => inr k
  | None => inl TokenizationFailure
  end.

(** [withTokenizer]: whether [fn] returns or throws, [cachedFree] is run
    if there is one, which empties the cache. *)
Definition withTokenizer (A : Type) (fn : Cache -> (error + A) * Cache)
           (cache : Cache) : (error + A) * Cache :=
  let (result, _) := fn cache in (result, None).

(** The encoder that a first call resolves for a model hint. *)
Definition resolve (pkg : option Package) : Tiktoken :=
  fun modelHint => initTiktoken pkg modelHint None.

(** Calls with the same options, one after the other on the cache that the
    call before left; each call returns a count or throws. *)
Fixpoint countEach (pkg : option Package) (opts : TokenizerOptions)
         (texts : list str) (cache : Cache) : list (option Z) * Cache :=
  match texts with
  | [] => ([], cache)
  | text :: rest =>
      let (n, cache') := countTokens pkg text opts cache in
      let (ns, cache'') := countEach pkg opts rest cache' in
      (n :: ns, cache'')
  end.

End TokenizerCache.

Module CacheExamples.
Import TokenizerCache.

(** One token per code unit, and one token per two code units. *)
Definition lengthEncoder : Encoder := fun text => Some text.
Definition halfEncoder : Encoder :=
  fun text => Some (firstn (length text / 2) text).

(** A package that knows the model [a] and falls back to another
    encoding. *)
Definition twoEncodings : Package :=
  {| encoding_for_model :=
       Some (fun name => if str_eqb name (lit "a") then Some lengthEncoder
                         else None);
     get_encoding := Some (fun _ => Some halfEncoder) |}.

End CacheExamples.


(** * The model on small inputs *)

Module Evaluation.

Example split_paragraphs_ex :
  splitIntoParagraphs
    (lit "one" ++ [LF; LF; LF] ++ lit " two " ++ [CR; LF; CR; LF]
     ++ lit "three" ++ [LF] ++ lit "x")
  = [lit "one"; lit "two"; lit "three" ++ [LF] ++ lit "x"].
Proof. vm_compute. reflexivity. Qed.

Example split_sentences_ex :
  splitIntoSentences (lit "A. B.  c. D! (e)? [f")
  = [lit "A."; lit "B.  c."; lit "D!"; lit "(e)?"; lit "[f"].
Proof. vm_compute. reflexivity. Qed.

Example split_lines_ex :
  splitIntoLines (lit " a " ++ [CR; LF; LF] ++ lit "b" ++ [LF])
  = [lit " a"; lit "b"].
Proof. vm_compute. reflexivity. Qed.

Example approximate_ex1 : approximateTokenCount (lit "  Hello,   world!  ") = 5.
Proof. vm_compute. reflexivity. Qed.

Example approximate_ex2 : approximateTokenCount [SPACE; LF; 9%N] = 0.
Proof. vm_compute. reflexivity. Qed.

Example parseCsvLine_ex1 :
  SplitCsv.parseCsvLine Examples.quotedRow1 (lit ",") [Examples.dq]
  = [lit "1"; lit "a, b"].
Proof. vm_compute. reflexivity. Qed.

Example parseCsvLine_ex2 :
  SplitCsv.parseCsvLine Examples.quotedRow2 (lit ",") [Examples.dq]
  = [lit "2"; lit "c" ++ [Examples.dq] ++ lit "d"].
Proof. vm_compute. reflexivity. Qed.

(** Three sentences within the budget: one chunk, the units joined by a
    blank line, recorded with the sum of their counts. *)
Example three_sentences_one_chunk :
  outcome (SplitText.splitTextIntoTokenChunks
             Examples.noEncoder
             (Examples.textOptions 30 (Some SplitText.Sentence)) 8
             (lit "A. B. C."))
  = inr ([lit "A." ++ [LF; LF] ++ lit "B." ++ [LF; LF] ++ lit "C."], [6]).
Proof. vm_compute. reflexivity. Qed.

(** Five rows of 10 tokens under a budget of 25: parts of 2, 2 and 1 rows. *)
Example five_rows_three_parts :
  let run := SplitCsv.splitCsvByTokens
               Examples.noEncoder (Examples.oneFile Examples.fiveRows)
               Examples.basename Examples.extname Examples.pathJoin
               (Examples.csvOptions 25 None) in
  let row := repeat 120%N 40 in
  outcome run
  = inr (3, [lit "out/mail_part001.csv"; lit "out/mail_part002.csv";
             lit "out/mail_part003.csv"]) /\
  List.map snd (PackingSpec.writes (trace run))
  = [SplitCsv.partContent (lit "a,b") [row; row];
     SplitCsv.partContent (lit "a,b") [row; row];
     SplitCsv.partContent (lit "a,b") [row]].
Proof. vm_compute. split; reflexivity. Qed.

(** A unit of sixty letters under a budget of 1: the window of fifty
    letters cannot shrink, and ten letters remain. *)
Example sixty_letters_two_fragments :
  outcome (SplitText.splitTextIntoTokenChunks
             Examples.noEncoder (Examples.textOptions 1 None) 60
             Examples.sixtyLetters)
  = inr ([repeat 97%N 50; repeat 97%N 10], [13; 3]).
Proof. vm_compute. reflexivity. Qed.

(** The encoder rejects the second paragraph, which holds the special
    token: the count throws and the chunker with it. *)
Example poisoned_text_aborts :
  SplitText.splitTextIntoTokenChunks
    Examples.strictTiktoken (Examples.exactTextOptions 10) 30
    Examples.poisonedText
  = ([EvCount (lit "one"); EvCount (lit "two <|endoftext|> three")],
     inl TokenizationFailure).
Proof. vm_compute. reflexivity. Qed.

(** The encoder rejects the third row: the first row was written, the
    second was held in the open part and is lost with the rest. *)
Example poisoned_rows_abort :
  SplitCsv.splitCsvByTokens
    Examples.strictTiktoken (Examples.oneFile Examples.poisonedRows)
    Examples.basename Examples.extname Examples.pathJoin
    (Examples.exactCsvOptions 5)
  = ([EvExists (lit "mail.csv"); EvMkdir (lit "out");
      EvOpen (lit "mail.csv"); EvCount (lit "1,one"); EvCount (lit "2,two");
      EvWrite (lit "out/mail_part001.csv")
              (lit "id,body" ++ [LF] ++ lit "1,one" ++ [LF]);
      EvCount (lit "3,<|endoftext|>")],
     inl TokenizationFailure).
Proof. vm_compute. reflexivity. Qed.

End Evaluation.

(** * Facts about the string operations *)

Module JsStringFacts.

Lemma strlen_nonneg (s : str) : 0 <= strlen s.
Proof. unfold strlen; lia. Qed.

Lemma strlen_app (a b : str) : strlen (a ++ b) = strlen a + strlen b.
Proof. unfold strlen; rewrite length_app; lia. Qed.

Lemma isEmpty_true (s : str) : isEmpty s = true <-> s = [].
Proof. destruct s; simpl; split; congruence. Qed.

Lemma dropWhile_all (p : char -> bool) (s : str) :
  Forall (fun c => p c = true) s -> dropWhile p s = [].
Proof.
  induction 1 as [|c r Hc _ IH]; simpl; [reflexivity|].
  now rewrite Hc.
Qed.

Lemma dropWhile_suffix (p : char -> bool) (s : str) :
  exists pre, s = pre ++ dropWhile p s /\ Forall (fun c => p c = true) pre.
Proof.
  induction s as [|c r [pre [E F]]]; simpl.
  - exists []; split; [reflexivity|constructor].
  - destruct (p c) eqn:Hc.
    + exists (c :: pre); split; [simpl; congruence|constructor; assumption].
    + exists []; split; [reflexivity|constructor].
Qed.

Lemma dropWhile_length (p : char -> bool) (s : str) :
  (length (dropWhile p s) <= length s)%nat.
Proof.
  destruct (dropWhile_suffix p s) as [pre [E _]].
  rewrite E at 2. rewrite length_app. lia.
Qed.

Lemma trimStart_length (s : str) : (length (trimStart s) <= length s)%nat.
Proof. apply dropWhile_length. Qed.

Lemma trimEnd_length (s : str) : (length (trimEnd s) <= length s)%nat.
Proof.
  unfold trimEnd. rewrite length_rev.
  etransitivity; [apply dropWhile_length|]. now rewrite length_rev.
Qed.

Lemma trim_length (s : str) : (length (trim s) <= length s)%nat.
Proof.
  unfold trim. etransitivity; [apply trimEnd_length|apply trimStart_length].
Qed.

Lemma trimStart_whitespaceOnly (s : str) : whitespaceOnly s -> trimStart s = [].
Proof. apply dropWhile_all. Qed.

Lemma trimEnd_whitespaceOnly (s : str) : whitespaceOnly s -> trimEnd s = [].
Proof.
  intros H. unfold trimEnd. rewrite dropWhile_all; [reflexivity|].
  now apply Forall_rev.
Qed.

Lemma trim_whitespaceOnly (s : str) : whitespaceOnly s -> trim s = [].
Proof.
  intros H. unfold trim. rewrite (trimStart_whitespaceOnly H). reflexivity.
Qed.

(** [slice(0, n)] is a prefix and [slice(n)] a suffix. *)
Lemma slice_prefix (s : str) (n : Z) :
  0 <= n -> slice s 0 (Some n) = firstn (Z.to_nat n) s.
Proof.
  intros Hn. unfold slice, clampIndex.
  pose proof (strlen_nonneg s) as Hl.
  change (0 <? 0) with false. cbv iota.
  destruct (n <? 0) eqn:En; [apply Z.ltb_lt in En; lia|].
  rewrite (Z.min_l 0) by lia. change (Z.to_nat 0) with O. cbn [skipn].
  destruct (Z.le_ge_cases n (strlen s)) as [H|H].
  - rewrite Z.min_l by lia. f_equal. lia.
  - rewrite Z.min_r by lia. rewrite Z.sub_0_r.
    unfold strlen in *. rewrite Nat2Z.id.
    rewrite firstn_all. symmetry. apply firstn_all2. lia.
Qed.

Lemma slice_suffix (s : str) (n : Z) :
  0 <= n -> slice s n None = skipn (Z.to_nat n) s.
Proof.
  intros Hn. unfold slice, clampIndex.
  destruct (n <? 0) eqn:En; [apply Z.ltb_lt in En; lia|].
  destruct (Z.le_ge_cases n (strlen s)) as [H|H].
  - rewrite Z.min_l by lia. apply firstn_all2.
    rewrite length_skipn. unfold strlen in *. lia.
  - rewrite Z.min_r by lia. unfold strlen in *. rewrite Z.sub_diag.
    change (Z.to_nat 0) with O. cbn [firstn].
    symmetry. apply skipn_all2. lia.
Qed.

Lemma replaceCRLF_cons2 (c d : char) (r : str) :
  replaceCRLF (c :: d :: r) =
  if (c =? CR)%N && (d =? LF)%N then LF :: replaceCRLF r
  else c :: replaceCRLF (d :: r).
Proof. reflexivity. Qed.

(** Every code unit that [replace(/\r\n/g, "\n")] returns was in its argument. *)
Lemma replaceCRLF_Forall (P : char -> Prop) (s : str) :
  Forall P s -> Forall P (replaceCRLF s).
Proof.
  enough (H : (Forall P s -> Forall P (replaceCRLF s)) /\
              (forall c, Forall P (c :: s) -> Forall P (replaceCRLF (c :: s))))
    by apply H.
  induction s as [|d r [IH1 IH2]].
  - split; intros; simpl; auto.
  - split; [apply IH2|].
    intros c Hc. rewrite replaceCRLF_cons2.
    inversion Hc as [|? ? Pc Hdr]; subst.
    inversion Hdr as [|? ? Pd Hr]; subst.
    destruct ((c =? CR)%N && (d =? LF)%N) eqn:E.
    + apply andb_prop in E as [_ E]. apply N.eqb_eq in E. subst d.
      constructor; [assumption|]. apply IH1; assumption.
    + constructor; [assumption|]. apply IH2. assumption.
Qed.

Lemma replaceCRLF_length (s : str) :
  (length (replaceCRLF s) <= length s)%nat.
Proof.
  enough (H : (length (replaceCRLF s) <= length s)%nat /\
              (forall c, length (replaceCRLF (c :: s)) <= length (c :: s))%nat)
    by apply H.
  induction s as [|d r [IH1 IH2]].
  - split; intros; simpl; auto.
  - split; [apply IH2|].
    intros c. rewrite replaceCRLF_cons2.
    destruct ((c =? CR)%N && (d =? LF)%N); cbn [length].
    + lia.
    + specialize (IH2 d). cbn [length] in IH2. lia.
Qed.

(** The pieces of [split] are made of code units of the string, and none is
    longer than it. *)
Lemma splitLoop_Forall (P : char -> Prop) (m : matcher) (rest : str) :
  forall before piece skip,
    Forall P piece -> Forall P rest ->
    Forall (Forall P) (splitLoop m before piece skip rest).
Proof.
  induction rest as [|c r IH]; intros before piece skip Hp Hr; simpl.
  - constructor; [now apply Forall_rev|constructor].
  - inversion Hr; subst.
    destruct skip as [|k]; [|now apply IH].
    destruct (m before (c :: r)) as [[|k]|].
    + apply IH; [constructor|]; assumption.
    + constructor; [now apply Forall_rev|]. apply IH; [constructor|assumption].
    + apply IH; [constructor|]; assumption.
Qed.

Lemma splitLoop_length (m : matcher) (rest : str) :
  forall before piece skip,
    Forall (fun x => length x <= length piece + length rest)%nat
           (splitLoop m before piece skip rest).
Proof.
  induction rest as [|c r IH]; intros before piece skip; simpl.
  - constructor; [rewrite length_rev; lia|constructor].
  - destruct skip as [|k].
    + destruct (m before (c :: r)) as [[|k]|].
      * eapply Forall_impl; [|apply IH]. simpl; intros; lia.
      * constructor; [rewrite length_rev; lia|].
        eapply Forall_impl; [|apply IH]. simpl; intros; lia.
      * eapply Forall_impl; [|apply IH]. simpl; intros; lia.
    + eapply Forall_impl; [|apply IH]. simpl; intros; lia.
Qed.

Lemma split_Forall (P : char -> Prop) (m : matcher) (s : str) :
  Forall P s -> Forall (Forall P) (split m s).
Proof. intros H. apply splitLoop_Forall; [constructor|assumption]. Qed.

Lemma split_length (m : matcher) (s : str) :
  Forall (fun x => length x <= length s)%nat (split m s).
Proof. apply (splitLoop_length m s [] [] O). Qed.

End JsStringFacts.

Import JsStringFacts.

(** * The segmenters *)

Module SegmentFacts.
Import SplitText.

Lemma segment_orWholeText (m : Mode) (text : str) :
  segment m text = orWholeText (partsOf m text) text.
Proof. destruct m; reflexivity. Qed.

Lemma filter_map_nil (A : Type) (f : A -> str) (p : str -> bool) (xs : list A) :
  Forall (fun x => p (f x) = false) xs -> filter p (List.map f xs) = [].
Proof.
  induction 1 as [|x r Hx _ IH]; simpl; [reflexivity|].
  now rewrite Hx.
Qed.

Lemma partsOf_whitespaceOnly (m : Mode) (text : str) :
  whitespaceOnly text -> partsOf m text = [].
Proof.
  intros Hws.
  assert (Hc : whitespaceOnly (replaceCRLF text))
    by (apply replaceCRLF_Forall; assumption).
  destruct m; unfold partsOf, paragraphParts, sentenceParts, lineParts;
    apply filter_map_nil;
    (eapply Forall_impl; [|apply split_Forall; exact Hc]);
    intros piece Hp; simpl.
  - now rewrite (trim_whitespaceOnly Hp).
  - now rewrite (trim_whitespaceOnly Hp).
  - now rewrite (trimEnd_whitespaceOnly Hp).
Qed.

(** No unit is longer than the text. *)
Lemma partsOf_length (m : Mode) (text : str) :
  Forall (fun u => length u <= length text)%nat (partsOf m text).
Proof.
  pose proof (replaceCRLF_length text) as Hc.
  assert (H : forall (f : str -> str) (p : str -> bool) (sep : matcher),
             (forall x, length (f x) <= length x)%nat ->
             Forall (fun u => length u <= length text)%nat
                    (filter p (List.map f (split sep (replaceCRLF text))))).
  { intros f p sep Hf. apply Forall_forall. intros u Hu.
    apply filter_In in Hu as [Hu _]. apply in_map_iff in Hu as [x [<- Hx]].
    pose proof (split_length sep (replaceCRLF text)) as Hs.
    rewrite Forall_forall in Hs. specialize (Hs x Hx). specialize (Hf x). lia. }
  destruct m; apply H; intros x;
    [apply trim_length|apply trim_length|apply trimEnd_length].
Qed.

Lemma segment_length (m : Mode) (text : str) :
  Forall (fun u => length u <= length text)%nat (segment m text).
Proof.
  rewrite segment_orWholeText. pose proof (partsOf_length m text) as H.
  destruct (partsOf m text); simpl; [|assumption].
  constructor; [apply trim_length|constructor].
Qed.

(** C6.  Each of the three segmenters falls back to one unit, the trimmed
    whole input, when splitting, trimming and dropping the empty parts leaves
    nothing; for an empty or white-space-only input nothing is left and that
    unit is the empty string. *)
Theorem segmenter_fallback (text : str) :
  (sentenceParts text = [] -> splitIntoSentences text = [trim text]) /\
  (paragraphParts text = [] -> splitIntoParagraphs text = [trim text]) /\
  (lineParts text = [] -> splitIntoLines text = [trim text]) /\
  (whitespaceOnly text ->
   sentenceParts text = [] /\ paragraphParts text = [] /\ lineParts text = [] /\
   splitIntoSentences text = [[]] /\
   splitIntoParagraphs text = [[]] /\
   splitIntoLines text = [[]]).
Proof.
  unfold splitIntoSentences, splitIntoParagraphs, splitIntoLines.
  split; [intros ->; reflexivity|].
  split; [intros ->; reflexivity|].
  split; [intros ->; reflexivity|].
  intros Hws.
  pose proof (partsOf_whitespaceOnly Sentence Hws) as Hs.
  pose proof (partsOf_whitespaceOnly Paragraph Hws) as Hp.
  pose proof (partsOf_whitespaceOnly Line Hws) as Hl.
  simpl in Hs, Hp, Hl. rewrite Hs, Hp, Hl. simpl.
  rewrite (trim_whitespaceOnly Hws). repeat split.
Qed.

Lemma segmenter_fallback_witness :
  let text := [SPACE; CR; LF; 9%N; LF; LF; SPACE] in
  splitIntoSentences text = [trim text] /\
  splitIntoParagraphs text = [trim text] /\
  splitIntoLines text = [trim text] /\
  splitIntoSentences text = [[]] /\
  splitIntoParagraphs text = [[]] /\
  splitIntoLines text = [[]].
Proof.
  intros text.
  destruct (segmenter_fallback text) as [Hs [Hp [Hl Hw]]].
  split; [apply Hs; vm_compute; reflexivity|].
  split; [apply Hp; vm_compute; reflexivity|].
  split; [apply Hl; vm_compute; reflexivity|].
  apply Hw. repeat constructor.
Defined.

End SegmentFacts.

Import SegmentFacts.

(** * The approximate counting formula *)

Module TokenizerFacts.

Lemma ceil_is_ceiling (a b : Z) :
  0 < b ->
  b * (ApproximateSpec.ceil a b - 1) < a <= b * ApproximateSpec.ceil a b.
Proof.
  intros Hb. unfold ApproximateSpec.ceil.
  pose proof (Z.div_mod (a + b - 1) b ltac:(lia)) as E.
  pose proof (Z.mod_pos_bound (a + b - 1) b Hb) as M.
  nia.
Qed.

Lemma ceilDiv_ceil (a b : Z) :
  0 < b -> ceilDiv a b = ApproximateSpec.ceil a b.
Proof.
  intros Hb. unfold ceilDiv.
  pose proof (ceil_is_ceiling a Hb) as C.
  pose proof (Z.div_mod a b ltac:(lia)) as E.
  pose proof (Z.mod_pos_bound a b Hb) as M.
  destruct (a mod b =? 0) eqn:Z0.
  - apply Z.eqb_eq in Z0. nia.
  - apply Z.eqb_neq in Z0. nia.
Qed.

Lemma isPunct_punctuation (c : char) :
  isPunct c = if in_dec N.eq_dec c ApproximateSpec.punctuation then true else false.
Proof.
  destruct (in_dec N.eq_dec c ApproximateSpec.punctuation) as [H|H].
  - simpl in H.
    repeat (destruct H as [<-|H]; [reflexivity|]). contradiction.
  - unfold isPunct.
    repeat match goal with
    | |- context [(c =? ?k)%N] =>
        destruct (N.eqb_spec c k) as [->|_];
        [exfalso; apply H; simpl; tauto|]
    end.
    reflexivity.
Qed.

Lemma dropWhile_snoc (p : char -> bool) (l : str) (a : char) :
  dropWhile p (l ++ [a]) =
  match dropWhile p l with
  | [] => if p a then [] else [a]
  | y => y ++ [a]
  end.
Proof.
  induction l as [|c r IH]; simpl; [reflexivity|].
  destruct (p c); [exact IH|reflexivity].
Qed.

Lemma trimEnd_cons (a : char) (x : str) :
  trimEnd (a :: x) =
  match trimEnd x with
  | [] => if isWhiteSpace a then [] else [a]
  | y => a :: y
  end.
Proof.
  unfold trimEnd. simpl rev. rewrite dropWhile_snoc.
  destruct (dropWhile isWhiteSpace (rev x)) as [|c r].
  - simpl. destruct (isWhiteSpace a); reflexivity.
  - rewrite rev_app_distr. simpl rev at 1. simpl.
    destruct (rev r ++ [c]) eqn:E; [|reflexivity].
    destruct (rev r); discriminate.
Qed.

Lemma isWhiteSpace_SPACE : isWhiteSpace SPACE = true.
Proof. reflexivity. Qed.

(** After the white space at the front is passed, the replaced text starts
    with a code unit that is no white space. *)
Lemma trimStart_replaceWsRuns (s : str) :
  trimStart (replaceWsRuns true s) = replaceWsRuns true s.
Proof.
  induction s as [|c r IH]; simpl; [reflexivity|].
  destruct (isWhiteSpace c) eqn:E; [exact IH|].
  unfold trimStart. simpl. now rewrite E.
Qed.

Lemma trimStart_replaceWsRuns_false (s : str) :
  trimStart (replaceWsRuns false s) = replaceWsRuns true s.
Proof.
  destruct s as [|c r]; simpl; [reflexivity|].
  destruct (isWhiteSpace c) eqn:E.
  - unfold trimStart. simpl. apply trimStart_replaceWsRuns.
  - unfold trimStart. simpl. now rewrite E.
Qed.

Lemma words_head (c : char) (r : str) :
  isWhiteSpace c = false ->
  exists w ws, ApproximateSpec.words (c :: r) = (c :: w) :: ws.
Proof.
  intros E. simpl. rewrite E.
  destruct r as [|d r']; [exists [], []; reflexivity|].
  destruct (isWhiteSpace d); [eexists [], _; reflexivity|].
  destruct (ApproximateSpec.words (d :: r')) as [|w ws];
    [exists [], []|exists w, ws]; reflexivity.
Qed.

Lemma words_cons2 (c d : char) (r : str) :
  ApproximateSpec.words (c :: d :: r) =
  if isWhiteSpace c then ApproximateSpec.words (d :: r)
  else if isWhiteSpace d then [c] :: ApproximateSpec.words (d :: r)
       else match ApproximateSpec.words (d :: r) with
            | w :: ws => (c :: w) :: ws
            | [] => [[c]]
            end.
Proof. reflexivity. Qed.

Lemma words_nonempty (s : str) :
  Forall (fun w => w <> []) (ApproximateSpec.words s).
Proof.
  induction s as [|c r IH]; [constructor|].
  cbn [ApproximateSpec.words].
  destruct (isWhiteSpace c); [exact IH|].
  destruct r as [|d r']; [repeat constructor; discriminate|].
  destruct (isWhiteSpace d); [constructor; [discriminate|exact IH]|].
  destruct (ApproximateSpec.words (d :: r')) as [|w ws].
  - repeat constructor; discriminate.
  - inversion IH; subst. constructor; [discriminate|assumption].
Qed.

Lemma join_nonempty (sep x : str) (rest : list str) :
  x <> [] -> join sep (x :: rest) <> [].
Proof.
  intros Hx. destruct rest; simpl; [assumption|].
  destruct x; [contradiction|discriminate].
Qed.

Lemma join_cons_cons (sep x y : str) (rest : list str) :
  join sep (x :: y :: rest) = x ++ sep ++ join sep (y :: rest).
Proof. reflexivity. Qed.

(** [replace(/\s+/g, ' ').trim()] leaves the words with one space between
    neighbours. *)
Lemma trimEnd_replaceWsRuns (s : str) :
  trimEnd (replaceWsRuns true s) = ApproximateSpec.normalize s.
Proof.
  unfold ApproximateSpec.normalize.
  induction s as [|c r IH]; [reflexivity|].
  destruct (isWhiteSpace c) eqn:Ec.
  - simpl. rewrite Ec. exact IH.
  - cbn [replaceWsRuns]. rewrite Ec.
    destruct r as [|d r'].
    + simpl. rewrite Ec. unfold trimEnd. simpl. now rewrite Ec.
    + destruct (isWhiteSpace d) eqn:Ed.
      * cbn [replaceWsRuns]. rewrite Ed.
        cbn [replaceWsRuns] in IH. rewrite Ed in IH.
        rewrite trimEnd_cons, trimEnd_cons, IH.
        cbn [ApproximateSpec.words]. rewrite Ec, Ed.
        cbn [ApproximateSpec.words] in IH. rewrite Ed in IH.
        pose proof (words_nonempty r') as Hne.
        destruct (ApproximateSpec.words r') as [|w ws].
        -- reflexivity.
        -- rewrite join_cons_cons.
           inversion Hne; subst.
           destruct (join [SPACE] (w :: ws)) eqn:J; [|reflexivity].
           exfalso. revert J. now apply join_nonempty.
      * destruct (@words_head d r' Ed) as [w [ws Hw]].
        assert (Hr : replaceWsRuns false (d :: r') = replaceWsRuns true (d :: r'))
          by (simpl; now rewrite Ed).
        rewrite Hr, trimEnd_cons, IH.
        rewrite words_cons2, Ec, Ed, Hw.
        destruct ws as [|w' ws']; reflexivity.
Qed.

Lemma normalized_spec (text : str) :
  trim (replaceWsRuns false text) = ApproximateSpec.normalize text.
Proof.
  unfold trim. rewrite trimStart_replaceWsRuns_false.
  apply trimEnd_replaceWsRuns.
Qed.

(** C3.  [approximateTokenCount] computes the formula of the specification:
    0 when the normalized text is empty, and otherwise the greater of 1 and
    the sum of the two ceilings. *)
Theorem approximateTokenCount_formula (text : str) :
  approximateTokenCount text = ApproximateSpec.count text.
Proof.
  unfold approximateTokenCount, ApproximateSpec.count.
  rewrite normalized_spec.
  destruct (ApproximateSpec.normalize text) as [|c n] eqn:E; [reflexivity|].
  cbn [isEmpty].
  rewrite !ceilDiv_ceil by lia.
  unfold ApproximateSpec.punctuationCharCount, strlen.
  rewrite (filter_ext _ _ isPunct_punctuation).
  reflexivity.
Qed.

Lemma approximateTokenCount_nil : approximateTokenCount [] = 0.
Proof. reflexivity. Qed.

End TokenizerFacts.

Import TokenizerFacts.

(** * Running effectful code *)

Module EffectsFacts.

Lemma bind_inr (A B : Type) (m : M A) (f : A -> M B)
      (l l' : list event) (a : A) (r : error + B) :
  m = (l, inr a) -> f a = (l', r) -> bind m f = (l ++ l', r).
Proof. intros -> H. simpl. now rewrite H. Qed.

Lemma bind_inl (A B : Type) (m : M A) (f : A -> M B)
      (l : list event) (e : error) :
  m = (l, inl e) -> bind m f = (l, inl e).
Proof. intros ->. reflexivity. Qed.

Lemma bind_ret (A B : Type) (a : A) (f : A -> M B) : bind (ret a) f = f a.
Proof. unfold ret, bind. destruct (f a). reflexivity. Qed.

(** A computation that returns went through each of its steps. *)
Lemma bind_inr_inv (A B : Type) (m : M A) (f : A -> M B)
      (l : list event) (b : B) :
  bind m f = (l, inr b) ->
  exists l1 a l2, m = (l1, inr a) /\ f a = (l2, inr b) /\ l = l1 ++ l2.
Proof.
  destruct m as [l1 [e|a]]; cbn [bind]; [discriminate|].
  destruct (f a) as [l2 r] eqn:E. intros H. injection H as <- ->.
  now exists l1, a, l2.
Qed.

Lemma outcome_bind_inr (A B : Type) (m : M A) (f : A -> M B)
      (l : list event) (a : A) :
  m = (l, inr a) -> outcome (bind m f) = outcome (f a).
Proof. intros ->. cbn [bind]. destruct (f a). reflexivity. Qed.

Lemma outcome_bind_inl (A B : Type) (m : M A) (f : A -> M B) (e : error) :
  outcome m = inl e -> outcome (bind m f) = inl e.
Proof. destruct m as [l r]. cbn [outcome snd]. intros ->. reflexivity. Qed.

(** A call of the counter returns its count, or throws. *)
Lemma countTokens_run (tk : Tiktoken) (text : str) (o : TokenizerOptions)
      (n : Z) :
  tokenCount tk o text = Some n ->
  countTokens tk text o = ([EvCount text], inr n).
Proof. intros H. unfold countTokens. rewrite H. reflexivity. Qed.

Lemma countTokens_fails (tk : Tiktoken) (text : str) (o : TokenizerOptions) :
  tokenCount tk o text = None ->
  countTokens tk text o = ([EvCount text], inl TokenizationFailure).
Proof. intros H. unfold countTokens. rewrite H. reflexivity. Qed.

Lemma bind_countTokens (B : Type) (tk : Tiktoken) (text : str)
      (o : TokenizerOptions) (f : Z -> M B) (n : Z) (l : list event)
      (r : error + B) :
  tokenCount tk o text = Some n ->
  f n = (l, r) ->
  bind (countTokens tk text o) f = (EvCount text :: l, r).
Proof.
  intros Hn H. rewrite (countTokens_run _ _ _ Hn). simpl. now rewrite H.
Qed.

Lemma bind_countTokens_fails (B : Type) (tk : Tiktoken) (text : str)
      (o : TokenizerOptions) (f : Z -> M B) :
  tokenCount tk o text = None ->
  bind (countTokens tk text o) f = ([EvCount text], inl TokenizationFailure).
Proof. intros H. rewrite (countTokens_fails _ _ _ H). reflexivity. Qed.

End EffectsFacts.
Import EffectsFacts.

(** * Counts and failed counts *)

Module CountingFacts.
Import Counting.

(** No counter returns a negative count. *)
Lemma approximateTokenCount_nonneg (text : str) :
  0 <= approximateTokenCount text.
Proof.
  unfold approximateTokenCount.
  destruct (isEmpty (trim (replaceWsRuns false text))); lia.
Qed.

Lemma tokenCount_nonneg (tk : Tiktoken) (o : TokenizerOptions) (text : str)
      (n : Z) :
  tokenCount tk o text = Some n -> 0 <= n.
Proof.
  unfold tokenCount. intros H.
  assert (A : forall m, Some (approximateTokenCount text) = Some m -> 0 <= m).
  { intros m E. injection E as <-. apply approximateTokenCount_nonneg. }
  destruct (approximate o) as [[|]|]; try (now apply A);
    (destruct (tk (model o)) as [enc|]; [|now apply A]);
    (destruct (enc text); [|discriminate H]);
    injection H as <-; apply strlen_nonneg.
Qed.

(** There is always a function that names the counts. *)
Lemma namesCounts_countOr0 (tk : Tiktoken) (o : TokenizerOptions) :
  namesCounts tk o (countOr0 tk o).
Proof. intros text n H. unfold countOr0. now rewrite H. Qed.

(** The approximation never fails: forced, or for want of an encoder. *)
Lemma tokenCount_approximate (tk : Tiktoken) (o : TokenizerOptions)
      (text : str) :
  approximate o = Some true \/ tk (model o) = None ->
  tokenCount tk o text = Some (approximateTokenCount text).
Proof.
  unfold tokenCount. intros [H|H]; rewrite H; [reflexivity|].
  destruct (approximate o) as [[|]|]; reflexivity.
Qed.

Lemma namesCounts_approximate (tk : Tiktoken) (o : TokenizerOptions) :
  approximate o = Some true \/ tk (model o) = None ->
  namesCounts tk o approximateTokenCount.
Proof.
  intros H text n E. rewrite (tokenCount_approximate tk o text H) in E.
  now injection E as <-.
Qed.

Section Aborted.

Variable tk : Tiktoken.
Variable o : TokenizerOptions.
Variable count : str -> Z.
Hypothesis named : namesCounts tk o count.

(** A call returns the named count or fails. *)
Lemma count_cases (text : str) :
  tokenCount tk o text = Some (count text) \/ tokenCount tk o text = None.
Proof.
  destruct (tokenCount tk o text) as [n|] eqn:E; [left|now right].
  f_equal. now apply named.
Qed.

Lemma aborted_weaken (A : Type) (m : M A) (P Q : str -> Prop) :
  (forall w, P w -> Q w) -> aborted tk o m P -> aborted tk o m Q.
Proof. intros H [Hm [w [Hw Hf]]]. split; [exact Hm|]. exists w. auto. Qed.

Lemma aborted_countTokens (B : Type) (text : str) (f : Z -> M B)
      (P : str -> Prop) :
  P text -> tokenCount tk o text = None ->
  aborted tk o (bind (countTokens tk text o) f) P.
Proof.
  intros HP H. split; [now rewrite (bind_countTokens_fails _ _ _ _ H)|].
  now exists text.
Qed.

Lemma aborted_bind (A B : Type) (m : M A) (f : A -> M B) (P : str -> Prop) :
  aborted tk o m P -> aborted tk o (bind m f) P.
Proof.
  intros [Hm Hw]. split; [now apply outcome_bind_inl|exact Hw].
Qed.

Lemma aborted_then (A B : Type) (m : M A) (f : A -> M B) (l : list event)
      (a : A) (P : str -> Prop) :
  m = (l, inr a) -> aborted tk o (f a) P -> aborted tk o (bind m f) P.
Proof.
  intros Hm [Hf Hw]. split; [|exact Hw].
  now rewrite (outcome_bind_inr _ Hm).
Qed.

Lemma aborted_after_count (B : Type) (text : str) (f : Z -> M B) (n : Z)
      (P : str -> Prop) :
  tokenCount tk o text = Some n -> aborted tk o (f n) P ->
  aborted tk o (bind (countTokens tk text o) f) P.
Proof.
  intros Hn. apply aborted_then with (l := [EvCount text]).
  now apply countTokens_run.
Qed.

(** Under the approximation nothing is aborted. *)
Lemma approximate_not_aborted (A : Type) (m : M A) (P : str -> Prop) :
  approximate o = Some true \/ tk (model o) = None -> ~ aborted tk o m P.
Proof.
  intros H [_ [w [_ Hf]]].
  rewrite (tokenCount_approximate tk o w H) in Hf. discriminate Hf.
Qed.

(** Where no count fails nothing is aborted. *)
Lemma not_aborted (A : Type) (m : M A) (P : str -> Prop) :
  (forall w, P w -> tokenCount tk o w <> None) -> ~ aborted tk o m P.
Proof. intros H [_ [w [Hw Hf]]]. exact (H w Hw Hf). Qed.

Lemma aborted_not_returned (A : Type) (m : M A) (P : str -> Prop)
      (l : list event) (a : A) :
  aborted tk o m P -> m <> (l, inr a).
Proof. intros [Hm _] E. rewrite E in Hm. discriminate Hm. Qed.

End Aborted.

End CountingFacts.
Import CountingFacts.

(** * The hard-split fallback *)

Module HardSplitFacts.
Import SplitText HardSplitSpec PackingSpec.

Section Spec.

Variable count : str -> Z.
Variable budget : Z.

Lemma shrunk_prefix (s w : str) :
  shrunk count budget s w -> exists t, s = w ++ t.
Proof.
  induction 1 as [w _|w w' _ _ _ [t IH]].
  - exists []. now rewrite app_nil_r.
  - exists (t ++ skipn (Z.to_nat (85 * strlen w / 100)) w).
    rewrite app_assoc, <- IH. symmetry. apply firstn_skipn.
Qed.

Lemma shrunk_nonempty (s w : str) :
  shrunk count budget s w -> s <> [] -> w <> [].
Proof.
  induction 1 as [w _|w w' _ Hlen _ IH]; intros Hs; [assumption|].
  apply IH. intros E. apply (f_equal (@length _)) in E.
  rewrite length_firstn in E. unfold strlen in *. cbn [length] in E.
  assert (43 <= 85 * Z.of_nat (length w) / 100)
    by (apply Z.div_le_lower_bound; lia).
  lia.
Qed.

Lemma shrunk_bound (s w : str) :
  shrunk count budget s w -> count w <= budget \/ strlen w <= 50.
Proof. induction 1; assumption. Qed.

Lemma shrunk_deterministic (s w1 w2 : str) :
  shrunk count budget s w1 -> shrunk count budget s w2 -> w1 = w2.
Proof.
  intros H1. revert w2.
  induction H1 as [w Hw|w w' Hc Hl _ IH]; intros w2 H2.
  - inversion H2; subst; [reflexivity|lia].
  - inversion H2; subst; [lia|]. now apply IH.
Qed.

Lemma fragments_deterministic (s : str) (f1 f2 : list str) :
  fragments count budget s f1 -> fragments count budget s f2 -> f1 = f2.
Proof.
  intros H1. revert f2.
  induction H1 as [|rem w rest Hne Hw _ IH]; intros f2 H2.
  - inversion H2; subst; [reflexivity|contradiction].
  - inversion H2; subst; [contradiction|].
    assert (w = w0) by (eapply shrunk_deterministic; eassumption). subst w0.
    f_equal. now apply IH.
Qed.

Lemma fragments_nonempty (s : str) (frs : list str) :
  fragments count budget s frs -> s <> [] -> frs <> [].
Proof. destruct 1; [contradiction|discriminate]. Qed.

Lemma infix_suffix (w u pre : str) : infix w u -> infix w (pre ++ u).
Proof.
  intros [a [b ->]]. exists (pre ++ a), b. now rewrite <- app_assoc.
Qed.

Lemma fragments_each (s : str) (frs : list str) :
  fragments count budget s frs ->
  Forall (fun w => infix w s /\ w <> [] /\
                   (count w <= budget \/ strlen w <= 50)) frs.
Proof.
  induction 1 as [|rem w rest Hne Hw _ IH]; constructor.
  - split; [|split].
    + destruct (shrunk_prefix Hw) as [t Ht].
      exists [], (t ++ skipn (Z.to_nat (Z.max 50 (budget * 4))) rem).
      simpl. rewrite app_assoc, <- Ht. symmetry. apply firstn_skipn.
    + apply (shrunk_nonempty Hw). intros E.
      apply (f_equal (@length _)) in E. rewrite length_firstn in E.
      destruct rem; [contradiction|]. cbn [length] in E. lia.
    + apply (shrunk_bound Hw).
  - eapply Forall_impl; [|exact IH].
    intros x [Hx Hrest]. split; [|exact Hrest].
    destruct (dropWhile_suffix isWhiteSpace (skipn (length w) rem))
      as [ws [E _]].
    rewrite <- (firstn_skipn (length w) rem), E.
    apply infix_suffix, infix_suffix. exact Hx.
Qed.

Lemma expands_app (a b x y : list str) :
  expands count budget a x -> expands count budget b y ->
  expands count budget (a ++ b) (x ++ y).
Proof.
  induction 1 as [|u us xs Hu _ IH|u frs us xs Hu Hf _ IH]; intros Hb; simpl.
  - assumption.
  - constructor; auto.
  - rewrite <- app_assoc. constructor; auto.
Qed.

(** Without an oversized unit nothing is replaced. *)
Lemma expands_within_budget (us xs : list str) :
  expands count budget us xs ->
  Forall (fun u => count u <= budget) us -> xs = us.
Proof.
  induction 1 as [|u us xs Hu _ IH|u frs us xs Hu Hf _ IH]; intros Hall.
  - reflexivity.
  - inversion Hall; subst. f_equal. auto.
  - inversion Hall; subst. lia.
Qed.

End Spec.

End HardSplitFacts.

(** * The text packer *)

Module SplitTextFacts.
Import SplitText HardSplitSpec PackingSpec HardSplitFacts Invariants Counting.

Lemma infix_refl (w : str) : infix w w.
Proof. exists [], []. now rewrite app_nil_r. Qed.

Lemma infix_trans (a b c : str) : infix a b -> infix b c -> infix a c.
Proof.
  intros [p [q ->]] [p' [q' ->]]. exists (p' ++ p), (q ++ q').
  now rewrite <- !app_assoc.
Qed.

Lemma infix_firstn (n : nat) (s : str) : infix (firstn n s) s.
Proof. exists [], (skipn n s). cbn [app]. symmetry. apply firstn_skipn. Qed.

Lemma infix_skipn (n : nat) (s : str) : infix (skipn n s) s.
Proof.
  exists (firstn n s), []. rewrite app_nil_r. symmetry. apply firstn_skipn.
Qed.

Lemma infix_trimStart (s : str) : infix (trimStart s) s.
Proof.
  destruct (dropWhile_suffix isWhiteSpace s) as [pre [E _]].
  exists pre, []. now rewrite app_nil_r.
Qed.

Section Packing.

Variable tk : Tiktoken.
Variable opts : SplitTextOptions.

(** [count] names what the counter returns under the options of the
    packer. *)
Variable count : str -> Z.
Hypothesis named : namesCounts tk (topts opts) count.

Abbreviation budget := (maxTokens opts).
Abbreviation sep := (separator (theMode opts)).
Abbreviation pushed := (Invariants.pushed count).
Abbreviation okGroup := (Invariants.okGroup count opts).
Abbreviation packInv := (Invariants.packInv count opts).
Abbreviation aborted := (Counting.aborted tk (topts opts)).

Lemma shrinkLoop_eq (fuel : nat) (s : str) :
  shrinkLoop tk opts fuel s =
  bind (countTokens tk s (topts opts))
       (fun t =>
          if (t >? budget) && (strlen s >? 50) then
            match fuel with
            | O => throw OutOfFuel
            | S fuel' =>
                shrinkLoop tk opts fuel' (slice s 0 (Some (floor85 (strlen s))))
            end
          else ret s).
Proof. destruct fuel; reflexivity. Qed.

Lemma floor85_bounds (n : Z) : 50 < n -> 0 <= floor85 n < n.
Proof.
  intros Hn. unfold floor85. split.
  - apply Z.div_pos; lia.
  - apply Z.div_lt_upper_bound; lia.
Qed.

(** The shrink loop ends: with the window of the specification, or
    aborted by a count that failed on a piece of the window it started
    with. *)
Lemma shrinkLoop_run (fuel : nat) :
  forall s : str,
    (length s <= fuel)%nat ->
    (exists log w,
        shrinkLoop tk opts fuel s = (log, inr w) /\ shrunk count budget s w) \/
    aborted (shrinkLoop tk opts fuel s) (fun w => infix w s).
Proof.
  induction fuel as [|fuel IH]; intros s Hlen; rewrite shrinkLoop_eq;
    (destruct (count_cases named s) as [Hs|Hs];
     [|right; apply aborted_countTokens; [apply infix_refl|exact Hs]]);
    destruct ((count s >? budget) && (strlen s >? 50)) eqn:C.
  - apply andb_prop in C as [_ C]. apply Z.gtb_lt in C.
    unfold strlen in C. lia.
  - left. exists [EvCount s], s. split.
    + eapply bind_countTokens; [exact Hs|]. cbv beta. rewrite C. reflexivity.
    + apply shrunk_stop. apply andb_false_iff in C as [C|C];
        rewrite Z.gtb_ltb in C; apply Z.ltb_ge in C; auto.
  - apply andb_prop in C as [C1 C2].
    pose proof C1 as C1'. pose proof C2 as C2'.
    apply Z.gtb_lt in C1', C2'.
    destruct (floor85_bounds C2') as [F0 F1].
    rewrite (slice_prefix s F0).
    destruct (IH (firstn (Z.to_nat (floor85 (strlen s))) s))
      as [[log [w [Hrun Hw]]]|Hab].
    { rewrite length_firstn. unfold strlen in *. lia. }
    + left. exists (EvCount s :: log), w. split.
      * eapply bind_countTokens; [exact Hs|]. cbv beta.
        rewrite C1, C2. exact Hrun.
      * apply shrunk_step; [lia|lia|].
        unfold floor85 in Hw. now rewrite Z.mul_comm.
    + right. eapply aborted_after_count; [exact Hs|]. cbv beta.
      rewrite C1, C2. eapply aborted_weaken; [|exact Hab].
      intros w Hw. eapply infix_trans; [exact Hw|apply infix_firstn].
  - left. exists [EvCount s], s. split.
    + eapply bind_countTokens; [exact Hs|]. cbv beta. rewrite C. reflexivity.
    + apply shrunk_stop. apply andb_false_iff in C as [C|C];
        rewrite Z.gtb_ltb in C; apply Z.ltb_ge in C; auto.
Qed.

Lemma pushed_nil (st : PackState) : pushed st [] = st.
Proof. destruct st. unfold Invariants.pushed. simpl. now rewrite !app_nil_r. Qed.

Lemma hardSplit_nil (fuel : nat) (st : PackState) :
  hardSplit tk opts fuel [] st = ret st.
Proof. destruct fuel; reflexivity. Qed.

Lemma hardSplit_cons (fuel : nat) (c : char) (r : str) (st : PackState) :
  hardSplit tk opts (S fuel) (c :: r) st =
  bind (shrinkLoop tk opts (S fuel)
                   (slice (c :: r) 0 (Some (Z.max 50 (budget * 4)))))
       (fun slice_ =>
          bind (countTokens tk slice_ (topts opts))
               (fun sliceTokens =>
                  hardSplit tk opts fuel
                    (trimStart (slice (c :: r) (strlen slice_) None))
                    {| chunks := chunks st ++ [slice_];
                       tokenCounts := tokenCounts st ++ [sliceTokens];
                       current := current st;
                       currentTokens := currentTokens st |})).
Proof.
  cbn [hardSplit].
  assert (H : (strlen (c :: r) >? 0) = true).
  { apply Z.gtb_lt. unfold strlen. cbn [length]. lia. }
  fold (shrinkLoop tk opts). rewrite H. reflexivity.
Qed.

(** The hard-split loop ends: having pushed the fragments of the
    specification, each with its recount, or aborted by a count that
    failed on a piece of the text it was given. *)
Lemma hardSplit_run (fuel : nat) :
  forall (remaining : str) (st : PackState),
    (length remaining <= fuel)%nat ->
    (exists log frs,
        hardSplit tk opts fuel remaining st = (log, inr (pushed st frs)) /\
        fragments count budget remaining frs) \/
    aborted (hardSplit tk opts fuel remaining st) (fun w => infix w remaining).
Proof.
  induction fuel as [|fuel IH]; intros rem st Hlen.
  - destruct rem; [|simpl in Hlen; lia].
    left. exists [], []. rewrite hardSplit_nil, pushed_nil.
    split; [reflexivity|constructor].
  - destruct rem as [|c r].
    { left. exists [], []. rewrite hardSplit_nil, pushed_nil.
      split; [reflexivity|constructor]. }
    rewrite hardSplit_cons.
    assert (G : 0 <= Z.max 50 (budget * 4)) by lia.
    rewrite (slice_prefix _ G).
    destruct (shrinkLoop_run (fuel := S fuel)
                (firstn (Z.to_nat (Z.max 50 (budget * 4))) (c :: r)))
      as [[log1 [w [Hrun1 Hw]]]|Hab].
    { rewrite length_firstn. lia. }
    2:{ right. apply aborted_bind. eapply aborted_weaken; [|exact Hab].
        intros x Hx. eapply infix_trans; [exact Hx|apply infix_firstn]. }
    assert (Hne : w <> []).
    { apply (shrunk_nonempty Hw). intros E.
      apply (f_equal (@length _)) in E. rewrite length_firstn in E.
      cbn [length] in E. lia. }
    destruct (shrunk_prefix Hw) as [t Ht].
    assert (Hwin : infix w (c :: r)).
    { eapply infix_trans; [|apply (infix_firstn
                                      (Z.to_nat (Z.max 50 (budget * 4))))].
      rewrite Ht. exists [], t. reflexivity. }
    assert (Hwl : (1 <= length w <= length (c :: r))%nat).
    { split; [destruct w; [contradiction|cbn [length]; lia]|].
      apply (f_equal (@length _)) in Ht.
      rewrite length_firstn, length_app in Ht. lia. }
    assert (Hs : slice (c :: r) (strlen w) None = skipn (length w) (c :: r)).
    { rewrite slice_suffix by apply strlen_nonneg.
      unfold strlen. now rewrite Nat2Z.id. }
    destruct (count_cases named w) as [Hcw|Hcw].
    2:{ right. eapply aborted_then; [exact Hrun1|].
        now apply aborted_countTokens. }
    destruct (IH (trimStart (skipn (length w) (c :: r)))
                 {| chunks := chunks st ++ [w];
                    tokenCounts := tokenCounts st ++ [count w];
                    current := current st;
                    currentTokens := currentTokens st |})
      as [[log2 [frs [Hrun2 Hfrs]]]|Hab].
    { pose proof (trimStart_length (skipn (length w) (c :: r))) as L.
      rewrite length_skipn in L. lia. }
    + left. exists (log1 ++ EvCount w :: log2), (w :: frs). split.
      * eapply bind_inr; [exact Hrun1|].
        eapply bind_countTokens; [exact Hcw|]. rewrite Hs, Hrun2.
        unfold Invariants.pushed.
        cbn [chunks tokenCounts current currentTokens List.map].
        rewrite <- !app_assoc. reflexivity.
      * constructor; [discriminate|exact Hw|exact Hfrs].
    + right. eapply aborted_then; [exact Hrun1|].
      eapply aborted_after_count; [exact Hcw|]. rewrite Hs.
      eapply aborted_weaken; [|exact Hab].
      intros x Hx. eapply infix_trans; [exact Hx|].
      eapply infix_trans; [apply infix_trimStart|apply infix_skipn].
Qed.

(** *** The loop over the units *)

Lemma total_app (c : str -> Z) (a b : list str) :
  total c (a ++ b) = total c a + total c b.
Proof.
  unfold total. induction a as [|x a IH]; simpl; [reflexivity|].
  fold (total c) in *. lia.
Qed.

Lemma total_single (c : str -> Z) (w : str) : total c [w] = c w.
Proof. unfold total. simpl. lia. Qed.

Lemma join_single (s w : str) : join s [w] = w.
Proof. reflexivity. Qed.

Lemma map_join_singles (s : str) (frs : list str) :
  List.map (join s) (List.map (fun w => [w]) frs) = frs.
Proof. induction frs as [|w r IH]; simpl; [reflexivity|]. now rewrite IH. Qed.

Lemma map_total_singles (c : str -> Z) (frs : list str) :
  List.map (total c) (List.map (fun w => [w]) frs) = List.map c frs.
Proof.
  induction frs as [|w r IH]; [reflexivity|].
  cbn [List.map]. rewrite IH, total_single. reflexivity.
Qed.

Lemma concat_singles (frs : list str) :
  concat (List.map (fun w => [w]) frs) = frs.
Proof. induction frs as [|w r IH]; simpl; [reflexivity|]. now rewrite IH. Qed.

Lemma flushedGroups_concat (st : PackState) (gs : list (list str)) :
  concat (flushedGroups st gs) = concat gs ++ current st.
Proof.
  unfold flushedGroups. destruct (current st) eqn:E.
  - now rewrite app_nil_r.
  - rewrite concat_app. simpl. now rewrite app_nil_r.
Qed.

Lemma flushedGroups_ok (units done : list str) (st : PackState)
      (gs : list (list str)) :
  packInv units done st gs -> Forall (okGroup units) (flushedGroups st gs).
Proof.
  intros (_ & _ & _ & _ & Hb & Hg). unfold flushedGroups.
  destruct (current st) eqn:E; [assumption|].
  apply Forall_app. split; [assumption|].
  constructor; [|constructor]. split; [discriminate|]. now left.
Qed.

Lemma flushIfAny_groups (units done : list str) (st : PackState)
      (gs : list (list str)) :
  packInv units done st gs ->
  chunks (flushIfAny opts st) = List.map (join sep) (flushedGroups st gs) /\
  tokenCounts (flushIfAny opts st)
  = List.map (total count) (flushedGroups st gs).
Proof.
  intros (Hc & Ht & _ & Hcur & _ & _). unfold flushIfAny, flushedGroups.
  destruct (current st) eqn:E; [split; assumption|].
  unfold pushCurrent. cbn [chunks tokenCounts].
  rewrite !map_app, Hc, Ht, Hcur, E. split; reflexivity.
Qed.

Lemma flushAndReset_groups (units done : list str) (st : PackState)
      (gs : list (list str)) :
  packInv units done st gs ->
  chunks (flushAndReset opts st) = List.map (join sep) (flushedGroups st gs) /\
  tokenCounts (flushAndReset opts st)
  = List.map (total count) (flushedGroups st gs) /\
  current (flushAndReset opts st) = [] /\
  currentTokens (flushAndReset opts st) = 0.
Proof.
  intros (Hc & Ht & _ & Hcur & _ & _). unfold flushAndReset, flushedGroups.
  destruct (current st) eqn:E.
  - rewrite E. repeat split; assumption.
  - unfold pushCurrent. cbn [chunks tokenCounts current currentTokens].
    rewrite !map_app, Hc, Ht, Hcur, E. repeat split; reflexivity.
Qed.

Lemma fragment_groups_ok (units : list str) (u : str) (frs : list str) :
  In u units -> count u > budget ->
  fragments count budget u frs ->
  Forall (okGroup units) (List.map (fun w => [w]) frs).
Proof.
  intros Hin Hu Hf. apply fragments_each in Hf.
  apply Forall_map. eapply Forall_impl; [|exact Hf].
  intros w (Hinfix & Hne & Hbound). split; [discriminate|].
  rewrite total_single.
  destruct (Z.le_gt_cases (count w) budget) as [Hle|Hgt]; [now left|].
  right. exists w, u. repeat split; try assumption; lia.
Qed.

(** One iteration keeps the invariant, or is aborted by a count that
    failed on a piece of the unit. *)
Lemma packUnit_run (fuel : nat) (units done : list str) (st : PackState)
      (gs : list (list str)) (u : str) :
  0 < budget ->
  packInv units done st gs ->
  In u units -> (length u <= fuel)%nat ->
  (exists log st' gs',
      packUnit tk opts fuel st u = (log, inr st') /\
      packInv units (done ++ [u]) st' gs') \/
  aborted (packUnit tk opts fuel st u) (fun w => infix w u).
Proof.
  intros Hpos Hinv Hin Hlen.
  pose proof Hinv as (Hc & Ht & Hex & Hcur & Hb & Hg).
  unfold packUnit.
  destruct (count_cases named u) as [Hu|Hu];
    [|right; apply aborted_countTokens; [apply infix_refl|exact Hu]].
  destruct (count u >? budget) eqn:Cu.
  - apply Z.gtb_lt in Cu.
    destruct (flushAndReset_groups Hinv) as (Fc & Ft & Fcur & Ftok).
    destruct (hardSplit_run (fuel := fuel) u (flushAndReset opts st) Hlen)
      as [[log [frs [Hrun Hfrs]]]|Hab].
    + left.
      exists (EvCount u :: log), (pushed (flushAndReset opts st) frs),
        (flushedGroups st gs ++ List.map (fun w => [w]) frs).
      split.
      * eapply bind_countTokens; [exact Hu|].
        apply Z.gtb_lt in Cu. rewrite Cu. exact Hrun.
      * unfold Invariants.packInv, Invariants.pushed.
        cbn [chunks tokenCounts current currentTokens].
        rewrite Fc, Ft, Fcur, Ftok, !map_app, map_join_singles,
          map_total_singles.
        repeat split; try reflexivity.
        -- rewrite app_nil_r, concat_app, concat_singles,
             flushedGroups_concat.
           apply expands_app; [assumption|].
           rewrite <- (app_nil_r frs).
           constructor; [lia|assumption|constructor].
        -- unfold total. simpl. lia.
        -- apply Forall_app. split;
             [eapply flushedGroups_ok; eassumption|].
           eapply fragment_groups_ok; eauto. lia.
    + right. eapply aborted_after_count; [exact Hu|].
      apply Z.gtb_lt in Cu. rewrite Cu. exact Hab.
  - left. rewrite Z.gtb_ltb in Cu. apply Z.ltb_ge in Cu.
    destruct (currentTokens st + count u >? budget) eqn:Cs.
    + destruct (flushIfAny_groups Hinv) as (Fc & Ft).
      eexists [EvCount u], _, (flushedGroups st gs). split.
      * eapply bind_countTokens; [exact Hu|].
        destruct (count u >? budget) eqn:Cu';
          [apply Z.gtb_lt in Cu'; lia|].
        rewrite Cs. reflexivity.
      * unfold Invariants.packInv.
        cbn [chunks tokenCounts current currentTokens].
        repeat split; try assumption.
        -- rewrite flushedGroups_concat. apply expands_app; [assumption|].
           constructor; [assumption|constructor].
        -- now rewrite total_single.
        -- now rewrite total_single.
        -- eapply flushedGroups_ok; eassumption.
    + rewrite Z.gtb_ltb in Cs. apply Z.ltb_ge in Cs.
      eexists [EvCount u], _, gs. split.
      * eapply bind_countTokens; [exact Hu|].
        destruct (count u >? budget) eqn:Cu';
          [apply Z.gtb_lt in Cu'; lia|].
        destruct (currentTokens st + count u >? budget) eqn:Cs';
          [apply Z.gtb_lt in Cs'; lia|].
        reflexivity.
      * unfold Invariants.packInv.
        cbn [chunks tokenCounts current currentTokens].
        repeat split; try assumption.
        -- rewrite app_assoc. apply expands_app; [assumption|].
           constructor; [assumption|constructor].
        -- rewrite total_app, total_single. lia.
        -- rewrite total_app, total_single. lia.
Qed.

Lemma packUnits_run (fuel : nat) (units : list str) :
  0 < budget ->
  forall (us done : list str) (st : PackState) (gs : list (list str)),
    packInv units done st gs ->
    incl us units -> Forall (fun u => length u <= fuel)%nat us ->
    (exists log st' gs',
        packUnits tk opts fuel us st = (log, inr st') /\
        packInv units (done ++ us) st' gs') \/
    aborted (packUnits tk opts fuel us st) (pieceOf us).
Proof.
  intros Hpos. induction us as [|u us IH]; intros done st gs Hinv Hincl Hfuel.
  - left. exists [], st, gs. rewrite app_nil_r.
    split; [reflexivity|assumption].
  - inversion Hfuel as [|? ? Hu Hus]; subst.
    cbn [packUnits].
    destruct (@packUnit_run fuel units done st gs u Hpos Hinv
                (Hincl u (or_introl eq_refl)) Hu)
      as [[log1 [st1 [gs1 [Hrun1 Hinv1]]]]|Hab].
    2:{ right. apply aborted_bind. eapply aborted_weaken; [|exact Hab].
        intros w Hw. exists u. split; [now left|exact Hw]. }
    destruct (IH (done ++ [u]) st1 gs1 Hinv1
                 (fun x Hx => Hincl x (or_intror Hx)) Hus)
      as [[log2 [st2 [gs2 [Hrun2 Hinv2]]]]|Hab].
    + left. exists (log1 ++ log2), st2, gs2. split.
      * eapply bind_inr; eassumption.
      * rewrite <- app_assoc in Hinv2. exact Hinv2.
    + right. eapply aborted_then; [exact Hrun1|].
      eapply aborted_weaken; [|exact Hab].
      intros w [x [Hx Hw]]. exists x. split; [now right|exact Hw].
Qed.

(** The loop over the units returns only if every unit was counted. *)
Lemma packUnits_returned (fuel : nat) (us : list str) :
  forall (st st' : PackState) (log : list event),
    packUnits tk opts fuel us st = (log, inr st') ->
    Forall (fun u => tokenCount tk (topts opts) u <> None) us.
Proof.
  induction us as [|u us IH]; intros st st' log H; [constructor|].
  cbn [packUnits] in H.
  apply bind_inr_inv in H as (l1 & st1 & l2 & H1 & H2 & _).
  constructor; [|exact (IH _ _ _ H2)].
  intros Hf. unfold packUnit in H1.
  rewrite (bind_countTokens_fails _ _ _ _ Hf) in H1. discriminate H1.
Qed.

Lemma splitText_returned (fuel : nat) (text : str) (log : list event)
      (res : list str * list Z) :
  splitTextIntoTokenChunks tk opts fuel text = (log, inr res) ->
  Forall (fun u => tokenCount tk (topts opts) u <> None)
         (segment (theMode opts) text).
Proof.
  unfold splitTextIntoTokenChunks. intros Hrun.
  destruct (budget <=? 0); [discriminate Hrun|].
  apply bind_inr_inv in Hrun as (l1 & st & l2 & Hloop & _).
  exact (packUnits_returned _ _ _ Hloop).
Qed.

(** The whole function, with a positive budget and steps enough for the
    longest unit.  It returns, and its chunks are the groups of the
    expanded unit sequence, each recorded with the total of its counts; or
    it is aborted by a count that failed on a piece of a unit. *)
Lemma splitText_run (fuel : nat) (text : str) :
  0 < budget -> (length text <= fuel)%nat ->
  (exists log gs,
      splitTextIntoTokenChunks tk opts fuel text
      = (log, inr (List.map (join sep) gs, List.map (total count) gs)) /\
      expands count budget (segment (theMode opts) text) (concat gs) /\
      Forall (okGroup (segment (theMode opts) text)) gs) \/
  aborted (splitTextIntoTokenChunks tk opts fuel text)
          (pieceOf (segment (theMode opts) text)).
Proof.
  intros Hpos Hfuel. unfold splitTextIntoTokenChunks.
  destruct (budget <=? 0) eqn:E; [apply Z.leb_le in E; lia|].
  set (units := segment (theMode opts) text).
  assert (Hinit : packInv units [] initial []).
  { unfold Invariants.packInv, initial. cbn.
    repeat split; try reflexivity; [constructor|lia|constructor]. }
  destruct (@packUnits_run fuel units Hpos units [] initial [] Hinit
              (incl_refl _)) as [[log [st [gs [Hrun Hinv]]]]|Hab].
  { eapply Forall_impl; [|apply segment_length].
    cbv beta. intros u Hu. lia. }
  - left. destruct (flushIfAny_groups Hinv) as (Fc & Ft).
    exists log, (flushedGroups st gs). split; [|split].
    + rewrite <- (app_nil_r log). eapply bind_inr; [exact Hrun|].
      unfold ret. rewrite Fc, Ft. reflexivity.
    + rewrite flushedGroups_concat. now destruct Hinv as (_ & _ & He & _).
    + eapply flushedGroups_ok; eassumption.
  - right. now apply aborted_bind.
Qed.

End Packing.

End SplitTextFacts.

(** * The row packer *)

Module SplitCsvFacts.
Import SplitCsv PackingSpec SplitTextFacts Invariants Counting.

Lemma writes_app (l1 l2 : list event) : writes (l1 ++ l2) = writes l1 ++ writes l2.
Proof. unfold writes. apply flat_map_app. Qed.

Lemma nonBlank_nonempty (line : str) : nonBlank line = true -> line <> [].
Proof. intros H ->. discriminate. Qed.

(** A part is the header line and then its rows, each ended by a line
    feed. *)
Lemma partContent_lines (h : str) (rows : list str) :
  partContent h rows = h ++ [LF] ++ flat_map (fun r => r ++ [LF]) rows.
Proof.
  unfold partContent. revert h.
  induction rows as [|r rows IH]; intros h.
  - reflexivity.
  - change (join [LF] (h :: r :: rows)) with (h ++ [LF] ++ join [LF] (r :: rows)).
    rewrite <- !app_assoc. f_equal. f_equal.
    rewrite (IH r). cbn [flat_map]. now rewrite <- !app_assoc.
Qed.

Section Packing.

Variable tk : Tiktoken.
Variable fsys : FileSystem.
Variable basename : str -> str -> str.
Variable extname : str -> str.
Variable pathJoin : str -> str -> str.
Variable opts : SplitCsvOptions.

(** [count] names what the counter returns under the options of the
    packer. *)
Variable count : str -> Z.
Hypothesis named : namesCounts tk (topts opts) count.

Abbreviation budget := (maxTokens opts).
Abbreviation rowCount := (Invariants.rowCount count opts).
Abbreviation okRows := (Invariants.okRows count opts).
Abbreviation csvInv := (Invariants.csvInv count opts).
Abbreviation rowFails := (Counting.rowFails tk opts).
Abbreviation flush := (flushPart basename extname pathJoin opts).
Abbreviation step := (processLine tk basename extname pathJoin opts).
Abbreviation loop := (processLines tk basename extname pathJoin opts).

Lemma wrote_nothing (h : str) (st st' : CsvState) (log : list event) :
  writes log = [] -> part st' = part st -> partPaths st' = partPaths st ->
  wrote h st st' log [].
Proof.
  intros W P Q. unfold wrote. rewrite W, P, Q. cbn.
  rewrite app_nil_r. repeat split; lia.
Qed.

Lemma wrote_trans (h : str) (st0 st1 st2 : CsvState) (l1 l2 : list event)
      (g1 g2 : list (list str)) :
  wrote h st0 st1 l1 g1 -> wrote h st1 st2 l2 g2 ->
  wrote h st0 st2 (l1 ++ l2) (g1 ++ g2).
Proof.
  intros (W1 & P1 & Q1) (W2 & P2 & Q2). unfold wrote.
  rewrite writes_app, !map_app, W1, W2, P2, P1, Q2, Q1, length_app, <- app_assoc.
  repeat split; lia.
Qed.

Lemma flushPart_missing (st : CsvState) :
  header st = None \/ header st = Some [] ->
  flush st = ([], inl MissingHeader).
Proof. intros [H|H]; unfold flushPart; rewrite H; reflexivity. Qed.

Lemma flushPart_run (h : str) (st : CsvState) :
  header st = Some h -> h <> [] ->
  exists log st',
    flush st = (log, inr st') /\
    header st' = Some h /\ currentLines st' = [] /\
    (currentLines st <> [] -> currentTokens st' = 0) /\
    (currentLines st = [] -> st' = st) /\
    wrote h st st' log (flushedRows st).
Proof.
  intros Hh Hne. unfold flushPart, flushedRows. rewrite Hh.
  destruct h as [|c h]; [contradiction|].
  destruct (currentLines st) as [|r rows] eqn:E.
  - exists [], st. split; [reflexivity|]. split; [assumption|].
    split; [assumption|]. split; [intros; contradiction|].
    split; [reflexivity|]. apply wrote_nothing; reflexivity.
  - eexists [EvWrite _ _], _. split; [reflexivity|].
    cbn [header currentLines currentTokens part partPaths].
    split; [reflexivity|]. split; [reflexivity|]. split; [reflexivity|].
    split; [discriminate|].
    unfold wrote. cbn. split; [reflexivity|]. split; [lia|reflexivity].
Qed.

Lemma concat_flushedRows (st : CsvState) :
  concat (flushedRows st) = currentLines st.
Proof.
  unfold flushedRows. destruct (currentLines st) eqn:E; [reflexivity|].
  simpl. now rewrite app_nil_r.
Qed.

Lemma flushedRows_ok (h : str) (st : CsvState) :
  csvInv h st -> Forall okRows (flushedRows st).
Proof.
  intros (_ & _ & _ & Hb). unfold flushedRows.
  destruct (currentLines st) eqn:E; constructor; [|constructor].
  split; [discriminate|]. now left.
Qed.

Lemma processLine_blank (st : CsvState) (line : str) :
  nonBlank line = false -> step st line = ret st.
Proof.
  unfold nonBlank, processLine. intros H. apply negb_false_iff in H.
  now rewrite H.
Qed.

Lemma processLine_header (st : CsvState) (line : str) :
  nonBlank line = true -> header st = None ->
  step st line =
  ret {| header := Some line; part := part st;
         currentTokens := currentTokens st;
         currentLines := currentLines st; partPaths := partPaths st |}.
Proof.
  unfold nonBlank, processLine. intros H Hh. apply negb_true_iff in H.
  now rewrite H, Hh.
Qed.

(** A row whose count fails aborts the run where it stands: nothing is
    flushed. *)
Lemma processLine_fails (h : str) (st : CsvState) (line : str) :
  header st = Some h -> h <> [] -> nonBlank line = true ->
  rowFails line ->
  step st line
  = ([EvCount (rowTextForTokens opts line)], inl TokenizationFailure).
Proof.
  intros Hh Hne Hnb Hf. unfold processLine.
  unfold nonBlank in Hnb. apply negb_true_iff in Hnb.
  rewrite Hnb, Hh. destruct h as [|c h]; [contradiction|].
  now apply bind_countTokens_fails.
Qed.

(** One data row that is counted keeps the invariant and is appended to
    what is written or held. *)
Lemma processLine_row (h : str) (st : CsvState) (line : str) :
  0 < budget -> csvInv h st -> nonBlank line = true ->
  tokenCount tk (topts opts) (rowTextForTokens opts line)
  = Some (rowCount line) ->
  exists log st' gs,
    step st line = (log, inr st') /\ csvInv h st' /\
    wrote h st st' log gs /\
    concat gs ++ currentLines st' = currentLines st ++ [line] /\
    Forall okRows gs.
Proof.
  intros Hpos Hinv Hnb Hn. pose proof Hinv as (Hh & Hne & Hcur & Hb).
  unfold processLine. unfold nonBlank in Hnb. apply negb_true_iff in Hnb.
  rewrite Hnb, Hh. destruct h as [|c h]; [contradiction|].
  destruct (rowCount line >? budget) eqn:Cr.
  - (* an oversized row: flush, then a part of its own *)
    destruct (flushPart_run st Hh Hne)
      as [l1 [st1 [Hrun1 (Hh1 & Hl1 & _ & _ & W1)]]].
    set (st1' := {| header := header st1; part := part st1;
                    currentTokens := rowCount line; currentLines := [line];
                    partPaths := partPaths st1 |}).
    assert (Hh1' : header st1' = Some (c :: h)) by exact Hh1.
    destruct (flushPart_run st1' Hh1' Hne)
      as [l2 [st2 [Hrun2 (Hh2 & Hl2 & Ht2 & _ & W2)]]].
    exists (EvCount (rowTextForTokens opts line) :: l1 ++ l2), st2,
      (flushedRows st ++ [[line]]).
    split; [|split; [|split; [|split]]].
    + eapply bind_countTokens; [exact Hn|]. rewrite Cr.
      eapply bind_inr; [exact Hrun1|exact Hrun2].
    + unfold Invariants.csvInv. rewrite Hl2, Ht2 by discriminate.
      repeat split; try assumption. cbn. lia.
    + change (EvCount (rowTextForTokens opts line) :: l1 ++ l2)
        with (([EvCount (rowTextForTokens opts line)] ++ l1) ++ l2).
      eapply wrote_trans; [|exact W2].
      destruct W1 as (W1 & P1 & Q1). unfold wrote.
      rewrite writes_app. cbn [writes flat_map app]. fold (writes l1).
      repeat split; assumption.
    + rewrite Hl2, app_nil_r, concat_app, concat_flushedRows. reflexivity.
    + apply Forall_app. split; [eapply flushedRows_ok; eassumption|].
      constructor; [|constructor]. split; [discriminate|].
      right. exists line. split; [reflexivity|].
      apply Z.gtb_lt in Cr. cbv beta in *. lia.
  - rewrite Z.gtb_ltb in Cr. apply Z.ltb_ge in Cr.
    destruct (currentTokens st + rowCount line >? budget) eqn:Cs.
    + (* the open part is full: flush it and start anew *)
      destruct (flushPart_run st Hh Hne)
        as [l1 [st1 [Hrun1 (Hh1 & Hl1 & Ht1 & Hsame & W1)]]].
      assert (Ht1' : currentTokens st1 = 0).
      { destruct (currentLines st) eqn:E.
        - rewrite (Hsame eq_refl), Hcur. reflexivity.
        - apply Ht1. discriminate. }
      eexists (EvCount (rowTextForTokens opts line) :: l1 ++ []), _,
        (flushedRows st).
      split; [|split; [|split; [|split]]].
      * eapply bind_countTokens; [exact Hn|].
        destruct (rowCount line >? budget) eqn:Cr';
          [apply Z.gtb_lt in Cr'; lia|].
        rewrite Cs. eapply bind_inr; [exact Hrun1|reflexivity].
      * unfold Invariants.csvInv. cbn [header currentTokens currentLines].
        rewrite Hl1, Ht1'. cbn [app].
        repeat split; try assumption; rewrite total_single; lia.
      * rewrite app_nil_r. destruct W1 as (W1 & P1 & Q1). unfold wrote.
        cbn [part partPaths].
        change (EvCount (rowTextForTokens opts line) :: l1)
          with ([EvCount (rowTextForTokens opts line)] ++ l1).
        rewrite writes_app. cbn [writes flat_map app]. fold (writes l1).
        repeat split; assumption.
      * cbn [currentLines]. rewrite Hl1, concat_flushedRows. reflexivity.
      * eapply flushedRows_ok; eassumption.
    + rewrite Z.gtb_ltb in Cs. apply Z.ltb_ge in Cs.
      eexists [EvCount (rowTextForTokens opts line)], _, [].
      split; [|split; [|split; [|split]]].
      * eapply bind_countTokens; [exact Hn|].
        destruct (rowCount line >? budget) eqn:Cr';
          [apply Z.gtb_lt in Cr'; lia|].
        destruct (currentTokens st + rowCount line >? budget) eqn:Cs';
          [apply Z.gtb_lt in Cs'; lia|].
        reflexivity.
      * unfold Invariants.csvInv. cbn [header currentTokens currentLines].
        repeat split; try assumption; rewrite total_app, total_single; lia.
      * apply wrote_nothing; reflexivity.
      * reflexivity.
      * constructor.
Qed.

(** The loop over the lines once the header is captured.  It ends with
    the rows written as parts or held; or the count of a row failed, and
    the rows held at that point, the row and those after it are not
    written. *)
Lemma processLines_rows (h : str) :
  0 < budget ->
  forall (lines : list str) (st : CsvState),
    csvInv h st ->
    exists log gs,
      List.map snd (writes log) = List.map (partContent h) gs /\
      Forall okRows gs /\
      ((exists st',
           loop lines st = (log, inr st') /\ csvInv h st' /\
           wrote h st st' log gs /\
           concat gs ++ currentLines st'
           = currentLines st ++ filter nonBlank lines) \/
       (loop lines st = (log, inl TokenizationFailure) /\
        exists held row after,
          currentLines st ++ filter nonBlank lines
          = concat gs ++ held ++ row :: after /\
          rowFails row)).
Proof.
  intros Hpos. induction lines as [|line lines IH]; intros st Hinv.
  - exists [], []. split; [reflexivity|]. split; [constructor|].
    left. exists st. split; [reflexivity|]. split; [assumption|].
    split; [apply wrote_nothing; reflexivity|].
    cbn. now rewrite app_nil_r.
  - cbn [processLines filter]. destruct (nonBlank line) eqn:Hnb.
    + pose proof Hinv as (Hh & Hne & _).
      destruct (count_cases named (rowTextForTokens opts line)) as [Hn|Hn].
      * destruct (@processLine_row h st line Hpos Hinv Hnb Hn)
          as [l1 [st1 [g1 (R1 & I1 & W1 & C1 & O1)]]].
        destruct (IH st1 I1) as [l2 [g2 (Hw2 & O2 & Hcase)]].
        exists (l1 ++ l2), (g1 ++ g2).
        split; [|split; [apply Forall_app; split; assumption|]].
        { destruct W1 as (W1 & _).
          now rewrite writes_app, !map_app, W1, Hw2. }
        destruct Hcase as [[st2 (R2 & I2 & W2 & C2)]
                          |[R2 [held [row [after [C2 F2]]]]]].
        -- left. exists st2.
           split; [eapply bind_inr; eassumption|]. split; [assumption|].
           split; [eapply wrote_trans; eassumption|].
           rewrite concat_app, <- app_assoc, C2, app_assoc, C1,
             <- app_assoc.
           reflexivity.
        -- right. split; [eapply bind_inr; eassumption|].
           exists held, row, after. split; [|exact F2].
           rewrite concat_app, <- app_assoc, <- C2, app_assoc, C1,
             <- app_assoc.
           reflexivity.
      * exists [EvCount (rowTextForTokens opts line)], [].
        split; [reflexivity|]. split; [constructor|]. right. split.
        -- rewrite (processLine_fails st Hh Hne Hnb Hn). reflexivity.
        -- now exists (currentLines st), line, (filter nonBlank lines).
    + rewrite (processLine_blank st line Hnb), bind_ret. apply IH, Hinv.
Qed.

Lemma processLines_blank (lines : list str) :
  filter nonBlank lines = [] ->
  forall st : CsvState, loop lines st = ret st.
Proof.
  induction lines as [|line lines IH]; intros Hf st; [reflexivity|].
  cbn [filter] in Hf. destruct (nonBlank line) eqn:Hnb; [discriminate|].
  cbn [processLines]. rewrite (processLine_blank st line Hnb), bind_ret.
  apply IH, Hf.
Qed.

(** The first line that is not blank becomes the header. *)
Lemma processLines_header (lines : list str) :
  forall (st : CsvState) (h : str) (rows : list str),
    header st = None ->
    filter nonBlank lines = h :: rows ->
    exists rest,
      loop lines st =
      loop rest {| header := Some h; part := part st;
                   currentTokens := currentTokens st;
                   currentLines := currentLines st;
                   partPaths := partPaths st |} /\
      filter nonBlank rest = rows /\ nonBlank h = true.
Proof.
  induction lines as [|line lines IH]; intros st h rows Hh Hf; [discriminate|].
  cbn [filter] in Hf. cbn [processLines].
  destruct (nonBlank line) eqn:Hnb.
  - injection Hf as -> Hrows. exists lines.
    rewrite (processLine_header st h Hnb Hh), bind_ret. auto.
  - rewrite (processLine_blank st line Hnb), bind_ret. now apply IH.
Qed.

(** Past its three guards the function reads the lines, runs the loop and
    flushes once more. *)
Lemma splitCsvByTokens_guards (lines : list str) :
  fsys (inputPath opts) = Some lines ->
  0 < budget ->
  assumeNoMultilineFields opts <> Some false ->
  splitCsvByTokens tk fsys basename extname pathJoin opts =
  bind (tell (EvExists (inputPath opts)))
       (fun _ => bind (tell (EvMkdir (outDir opts)))
       (fun _ => bind (tell (EvOpen (inputPath opts)))
       (fun _ => bind (loop lines initial)
       (fun st => bind (flush st)
       (fun st' => ret (part st', partPaths st')))))).
Proof.
  intros Hfs Hpos Hml. unfold splitCsvByTokens, existsSync, readLines.
  rewrite Hfs.
  destruct (budget <=? 0) eqn:E; [apply Z.leb_le in E; lia|].
  destruct (assumeNoMultilineFields opts) as [[|]|];
    [reflexivity|contradiction|reflexivity].
Qed.

Lemma tell_bind (B : Type) (ev : event) (k : unit -> M B)
      (l : list event) (r : error + B) :
  k tt = (l, r) -> bind (tell ev) k = (ev :: l, r).
Proof. intros H. unfold tell. simpl. now rewrite H. Qed.

Lemma flushPart_header (st st' : CsvState) (log : list event) :
  flush st = (log, inr st') -> header st' = header st.
Proof.
  unfold flushPart. intros H.
  destruct (header st) as [[|c h]|] eqn:Hh; try discriminate H.
  destruct (currentLines st); injection H as _ <-;
    [exact Hh|reflexivity].
Qed.

(** A row is passed only if it was counted, and the header stays. *)
Lemma processLine_returned (h : str) (st st' : CsvState) (line : str)
      (log : list event) :
  header st = Some h -> h <> [] -> nonBlank line = true ->
  step st line = (log, inr st') ->
  ~ rowFails line /\ header st' = Some h.
Proof.
  intros Hh Hne Hnb H. split.
  - intros Hf.
    rewrite (@processLine_fails h st line Hh Hne Hnb Hf) in H.
    discriminate H.
  - unfold processLine in H. unfold nonBlank in Hnb.
    apply negb_true_iff in Hnb. rewrite Hnb, Hh in H.
    destruct h as [|c h]; [contradiction|].
    apply bind_inr_inv in H as (l1 & n & l2 & _ & H & _).
    destruct (n >? budget).
    + apply bind_inr_inv in H as (l3 & st1 & l4 & H1 & H2 & _).
      apply flushPart_header in H1, H2. cbn [header] in H2.
      now rewrite H2, H1.
    + apply bind_inr_inv in H as (l3 & st1 & l4 & H1 & H2 & _).
      injection H2 as _ <-. cbn [header].
      destruct (currentTokens st + n >? budget).
      * apply flushPart_header in H1. now rewrite H1.
      * injection H1 as _ <-. exact Hh.
Qed.

Lemma processLines_returned (h : str) (lines : list str) :
  h <> [] ->
  forall (st st' : CsvState) (log : list event),
    header st = Some h ->
    loop lines st = (log, inr st') ->
    Forall (fun row => ~ rowFails row) (filter nonBlank lines).
Proof.
  intros Hne. induction lines as [|line lines IH]; intros st st' log Hh H;
    [constructor|].
  cbn [processLines filter] in *. destruct (nonBlank line) eqn:Hnb.
  - apply bind_inr_inv in H as (l1 & st1 & l2 & H1 & H2 & _).
    destruct (@processLine_returned h st st1 line l1 Hh Hne Hnb H1)
      as [Hok Hh1].
    constructor; [exact Hok|]. exact (IH _ _ _ Hh1 H2).
  - rewrite (processLine_blank st line Hnb), bind_ret in H.
    exact (IH _ _ _ Hh H).
Qed.

(** The function returns only if every data row was counted. *)
Lemma splitCsv_returned (lines : list str) (h : str) (rows : list str)
      (log : list event) (res : Z * list str) :
  fsys (inputPath opts) = Some lines ->
  0 < budget ->
  assumeNoMultilineFields opts <> Some false ->
  filter nonBlank lines = h :: rows ->
  splitCsvByTokens tk fsys basename extname pathJoin opts = (log, inr res) ->
  Forall (fun row => ~ rowFails row) rows.
Proof.
  intros Hfs Hpos Hml Hf Hrun.
  rewrite (splitCsvByTokens_guards Hfs Hpos Hml) in Hrun.
  destruct (processLines_header lines initial eq_refl Hf)
    as [rest (Hstart & Hrows & Hnb)].
  rewrite Hstart in Hrun.
  apply bind_inr_inv in Hrun as (? & ? & ? & _ & Hrun & _).
  apply bind_inr_inv in Hrun as (? & ? & ? & _ & Hrun & _).
  apply bind_inr_inv in Hrun as (? & ? & ? & _ & Hrun & _).
  apply bind_inr_inv in Hrun as (? & st1 & ? & Hloop & _).
  apply (@processLines_returned h rest (@nonBlank_nonempty h Hnb)) in Hloop;
    [|reflexivity].
  now rewrite Hrows in Hloop.
Qed.

(** The whole function on an input with a header line [h] and data rows
    [rows].  What it wrote are the parts of a grouping of rows: of all the
    rows when it returns; when the count of a row failed, of those before
    the rows that were held at that point. *)
Lemma splitCsv_run (lines : list str) (h : str) (rows : list str) :
  fsys (inputPath opts) = Some lines ->
  0 < budget ->
  assumeNoMultilineFields opts <> Some false ->
  filter nonBlank lines = h :: rows ->
  exists log gs,
    List.map snd (writes log) = List.map (partContent h) gs /\
    Forall okRows gs /\
    ((exists paths,
         splitCsvByTokens tk fsys basename extname pathJoin opts
         = (log, inr (Z.of_nat (length gs), paths)) /\
         List.map fst (writes log) = paths /\
         concat gs = rows) \/
     (splitCsvByTokens tk fsys basename extname pathJoin opts
      = (log, inl TokenizationFailure) /\
      exists held row after,
        rows = concat gs ++ held ++ row :: after /\ rowFails row)).
Proof.
  intros Hfs Hpos Hml Hf.
  rewrite (splitCsvByTokens_guards Hfs Hpos Hml).
  destruct (processLines_header lines initial eq_refl Hf)
    as [rest (Hstart & Hrows & Hnb)].
  rewrite Hstart. cbn [part currentTokens currentLines partPaths initial].
  set (st0 := {| header := Some h; part := 0; currentTokens := 0;
                 currentLines := []; partPaths := [] |}).
  assert (Hne : h <> []) by now apply nonBlank_nonempty.
  assert (I0 : csvInv h st0).
  { unfold Invariants.csvInv, st0. cbn. repeat split; try assumption; lia. }
  destruct (processLines_rows Hpos rest I0)
    as [l1 [g1 (Hw1 & O1 & [[st1 (R1 & I1 & W1 & C1)]
                           |[R1 [held [row [after [C1 F1]]]]]])]].
  - pose proof I1 as (Hh1 & _ & Hcur1 & Hb1).
    destruct (flushPart_run st1 Hh1 Hne)
      as [l2 [st2 (R2 & Hh2 & Hl2 & _ & _ & W2)]].
    destruct (wrote_trans W1 W2) as (W & P & Q).
    exists (EvExists (inputPath opts) :: EvMkdir (outDir opts)
            :: EvOpen (inputPath opts) :: l1 ++ l2),
      (g1 ++ flushedRows st1).
    assert (Hw : writes (EvExists (inputPath opts) :: EvMkdir (outDir opts)
                         :: EvOpen (inputPath opts) :: l1 ++ l2)
                 = writes (l1 ++ l2)) by reflexivity.
    rewrite Hw.
    split; [exact W|]. split.
    { apply Forall_app. split; [assumption|].
      now apply (flushedRows_ok (h := h)). }
    left. exists (partPaths st2). split; [|split].
    + do 3 apply tell_bind.
      eapply bind_inr; [exact R1|]. rewrite <- (app_nil_r l2).
      eapply bind_inr; [exact R2|]. unfold ret. rewrite P. reflexivity.
    + rewrite Q. reflexivity.
    + rewrite concat_app, concat_flushedRows, C1, Hrows. reflexivity.
  - exists (EvExists (inputPath opts) :: EvMkdir (outDir opts)
            :: EvOpen (inputPath opts) :: l1), g1.
    split; [exact Hw1|]. split; [exact O1|]. right. split.
    + do 3 apply tell_bind. now apply bind_inl.
    + exists held, row, after. split; [|exact F1].
      rewrite <- Hrows. exact C1.
Qed.

(** Without any line that is not blank the loop does nothing and the last
    flush finds no header. *)
Lemma splitCsv_no_header (lines : list str) :
  fsys (inputPath opts) = Some lines ->
  0 < budget ->
  assumeNoMultilineFields opts <> Some false ->
  filter nonBlank lines = [] ->
  loop lines initial = ([], inr initial) /\
  flush initial = ([], inl MissingHeader) /\
  splitCsvByTokens tk fsys basename extname pathJoin opts
  = ([EvExists (inputPath opts); EvMkdir (outDir opts);
      EvOpen (inputPath opts)], inl MissingHeader).
Proof.
  intros Hfs Hpos Hml Hf.
  split; [exact (processLines_blank lines Hf initial)|].
  split; [reflexivity|].
  rewrite (splitCsvByTokens_guards Hfs Hpos Hml).
  rewrite (processLines_blank lines Hf initial). reflexivity.
Qed.

(** With a header and no data row nothing is counted and nothing written. *)
Lemma splitCsv_header_only (lines : list str) (h : str) :
  fsys (inputPath opts) = Some lines ->
  0 < budget ->
  assumeNoMultilineFields opts <> Some false ->
  filter nonBlank lines = [h] ->
  splitCsvByTokens tk fsys basename extname pathJoin opts
  = ([EvExists (inputPath opts); EvMkdir (outDir opts);
      EvOpen (inputPath opts)], inr (0, [])).
Proof.
  intros Hfs Hpos Hml Hf.
  rewrite (splitCsvByTokens_guards Hfs Hpos Hml).
  destruct (processLines_header lines initial eq_refl Hf)
    as [rest (Hstart & Hrows & Hnb)].
  rewrite Hstart, (processLines_blank rest Hrows).
  apply nonBlank_nonempty in Hnb. destruct h; [contradiction|]. reflexivity.
Qed.

End Packing.

End SplitCsvFacts.

(** * The claims about the two packers *)

Module Claims.
Import SplitText SplitCsv HardSplitSpec PackingSpec Invariants Counting.
Import HardSplitFacts SplitTextFacts SplitCsvFacts Examples.

Lemma combine_map (A B C : Type) (f : A -> B) (g : A -> C) (xs : list A) :
  combine (List.map f xs) (List.map g xs) = List.map (fun x => (f x, g x)) xs.
Proof. induction xs as [|x xs IH]; simpl; [reflexivity|]. now rewrite IH. Qed.

Lemma okGroup_fragment (count : str -> Z) (opts : SplitTextOptions)
      (units g : list str) :
  okGroup count opts units g ->
  withinBudgetOrFragment count (SplitText.maxTokens opts) units
    (join (separator (theMode opts)) g) (total count g).
Proof.
  intros [_ [H|(w & u & -> & Hw & Hl & Hin & Hu & Hinf)]]; [now left|].
  right. rewrite total_single, join_single.
  split; [reflexivity|]. split; [assumption|]. exists u. auto.
Qed.

(** The text half of C1 and C2: the chunks and their totals. *)
Lemma splitText_chunks (tk : Tiktoken) (opts : SplitTextOptions)
      (count : str -> Z) (fuel : nat) (text : str) :
  namesCounts tk (SplitText.topts opts) count ->
  0 < SplitText.maxTokens opts -> (length text <= fuel)%nat ->
  (exists log chunks counts,
      splitTextIntoTokenChunks tk opts fuel text
      = (log, inr (chunks, counts)) /\
      length chunks = length counts /\
      (forall c t, In (c, t) (combine chunks counts) ->
         withinBudgetOrFragment count (SplitText.maxTokens opts)
           (segment (theMode opts) text) c t) /\
      exists groups,
        chunks = List.map (join (separator (theMode opts))) groups /\
        expands count (SplitText.maxTokens opts)
                (segment (theMode opts) text) (concat groups)) \/
  aborted tk (SplitText.topts opts)
          (splitTextIntoTokenChunks tk opts fuel text)
          (pieceOf (segment (theMode opts) text)).
Proof.
  intros Hn Hpos Hfuel.
  destruct (@splitText_run tk opts count Hn fuel text Hpos Hfuel)
    as [[log [gs (Hrun & Hex & Hok)]]|Hab]; [left|now right].
  eexists log, _, _. split; [exact Hrun|].
  split; [now rewrite !length_map|]. split.
  - intros c t Hin. rewrite combine_map in Hin.
    apply in_map_iff in Hin as [g [E Hg]]. injection E as <- <-.
    rewrite Forall_forall in Hok. apply okGroup_fragment, Hok, Hg.
  - exists gs. split; [reflexivity|assumption].
Qed.

Lemma partContent_partText (h : str) :
  forall gs : list (list str),
    List.map (partContent h) gs = List.map (partText h) gs.
Proof. intros gs. apply map_ext. intros g. apply partContent_lines. Qed.

(** The row half of C1, C2 and C8: what is written for any lines, and how
    the run ends.  [unwritten] are the data rows that reached no part. *)
Lemma splitCsv_parts (tk : Tiktoken) (fsys : FileSystem)
      (bn : str -> str -> str) (en : str -> str) (pj : str -> str -> str)
      (opts : SplitCsvOptions) (count : str -> Z) (lines : list str) :
  namesCounts tk (SplitCsv.topts opts) count ->
  fsys (inputPath opts) = Some lines ->
  0 < SplitCsv.maxTokens opts ->
  assumeNoMultilineFields opts <> Some false ->
  exists log r groups unwritten,
    splitCsvByTokens tk fsys bn en pj opts = (log, r) /\
    List.map snd (writes log)
    = List.map (partText (hd [] (filter nonBlank lines))) groups /\
    tl (filter nonBlank lines) = concat groups ++ unwritten /\
    Forall (okRows count opts) groups /\
    match r with
    | inr (n, paths) =>
        n = Z.of_nat (length groups) /\
        paths = List.map fst (writes log) /\ unwritten = [] /\
        Forall (fun row => ~ rowFails tk opts row)
               (tl (filter nonBlank lines))
    | inl e =>
        (e = MissingHeader /\ filter nonBlank lines = []) \/
        (e = TokenizationFailure /\
         exists held row after,
           unwritten = held ++ row :: after /\ rowFails tk opts row)
    end.
Proof.
  intros Hn Hfs Hpos Hml.
  destruct (filter nonBlank lines) as [|h rows] eqn:Hf.
  - destruct (@splitCsv_no_header tk fsys bn en pj opts lines Hfs Hpos Hml Hf)
      as (_ & _ & Hrun).
    eexists _, _, [], []. split; [exact Hrun|].
    split; [reflexivity|]. split; [reflexivity|]. split; [constructor|].
    now left.
  - destruct (@splitCsv_run tk fsys bn en pj opts count Hn lines h rows
                Hfs Hpos Hml Hf)
      as [log [gs (Hw & Hok & [[paths (Hrun & Hp & Hc)]
                             |[Hrun [held [row [after [Hc Hfail]]]]]])]].
    + pose proof (@splitCsv_returned tk fsys bn en pj opts lines h rows
                    log _ Hfs Hpos Hml Hf Hrun) as Hall.
      eexists log, _, gs, []. split; [exact Hrun|].
      cbn [hd tl]. rewrite <- partContent_partText.
      split; [exact Hw|]. split; [now rewrite app_nil_r|].
      split; [exact Hok|]. auto.
    + eexists log, _, gs, (held ++ row :: after). split; [exact Hrun|].
      cbn [hd tl]. rewrite <- partContent_partText.
      split; [exact Hw|]. split; [exact Hc|]. split; [exact Hok|].
      right. split; [reflexivity|]. now exists held, row, after.
Qed.

(** C1, as the code keeps it.  With a positive budget the text packer
    returns, or is aborted by a count that failed on a piece of a unit;
    every chunk it returns is recorded within the budget, or it is a
    hard-split fragment of at most 50 code units of a unit over the
    budget, recorded with its own recount.  Every part that the row packer
    writes, also when a later count fails and aborts it, holds consecutive
    data rows whose counts sum to at most the budget, or exactly one row
    whose count exceeds it. *)
Theorem budget_invariant (tk : Tiktoken) :
  (forall (opts : SplitTextOptions) (fuel : nat) (text : str)
          (count : str -> Z),
      namesCounts tk (SplitText.topts opts) count ->
      0 < SplitText.maxTokens opts -> (length text <= fuel)%nat ->
      (exists log chunks counts,
          splitTextIntoTokenChunks tk opts fuel text
          = (log, inr (chunks, counts)) /\
          length chunks = length counts /\
          forall c t, In (c, t) (combine chunks counts) ->
            withinBudgetOrFragment count (SplitText.maxTokens opts)
              (segment (theMode opts) text) c t) \/
      aborted tk (SplitText.topts opts)
              (splitTextIntoTokenChunks tk opts fuel text)
              (pieceOf (segment (theMode opts) text))) /\
  (forall (fsys : FileSystem) (bn : str -> str -> str) (en : str -> str)
          (pj : str -> str -> str) (opts : SplitCsvOptions)
          (lines : list str) (count : str -> Z),
      namesCounts tk (SplitCsv.topts opts) count ->
      fsys (inputPath opts) = Some lines ->
      0 < SplitCsv.maxTokens opts ->
      assumeNoMultilineFields opts <> Some false ->
      exists log r groups unwritten,
        splitCsvByTokens tk fsys bn en pj opts = (log, r) /\
        List.map snd (writes log)
        = List.map (partText (hd [] (filter nonBlank lines))) groups /\
        tl (filter nonBlank lines) = concat groups ++ unwritten /\
        (unwritten = [] \/ r = inl TokenizationFailure) /\
        Forall (fun rows =>
                  rows <> [] /\
                  withinBudgetOrOneRow
                    (fun line => count (rowTextForTokens opts line))
                    (SplitCsv.maxTokens opts) rows) groups).
Proof.
  split.
  - intros opts fuel text count Hn Hpos Hfuel.
    destruct (@splitText_chunks tk opts count fuel text Hn Hpos Hfuel)
      as [[log [chunks [counts (Hrun & Hlen & Hall & _)]]]|Hab];
      [left|now right].
    exists log, chunks, counts. auto.
  - intros fsys bn en pj opts lines count Hn Hfs Hpos Hml.
    destruct (@splitCsv_parts tk fsys bn en pj opts count lines Hn Hfs
                Hpos Hml)
      as [log [r [gs [unwritten (Hrun & Hw & Hc & Hok & Hr)]]]].
    exists log, r, gs, unwritten.
    split; [exact Hrun|]. split; [exact Hw|]. split; [exact Hc|].
    split; [|exact Hok].
    destruct r as [e|[n paths]].
    + destruct Hr as [[_ Hnil]|[-> _]]; [left|now right].
      rewrite Hnil in Hc. cbn [tl] in Hc. symmetry in Hc.
      now apply app_eq_nil in Hc.
    + left. apply Hr.
Qed.

Lemma budget_invariant_witness :
  (exists log chunks counts,
      splitTextIntoTokenChunks noEncoder (textOptions 1 None) 60 sixtyLetters
      = (log, inr (chunks, counts)) /\
      length chunks = length counts /\
      forall c t, In (c, t) (combine chunks counts) ->
        withinBudgetOrFragment approximateTokenCount
          1 (segment Paragraph sixtyLetters) c t) /\
  (exists log r groups unwritten,
      splitCsvByTokens noEncoder (oneFile fiveRows) basename extname pathJoin
                       (csvOptions 25 None) = (log, r) /\
      List.map snd (writes log)
      = List.map (partText (lit "a,b")) groups /\
      repeat (repeat 120%N 40) 5 = concat groups ++ unwritten /\
      (unwritten = [] \/ r = inl TokenizationFailure) /\
      Forall (fun rows =>
                rows <> [] /\
                withinBudgetOrOneRow
                  (fun line =>
                     approximateTokenCount
                       (rowTextForTokens (csvOptions 25 None) line))
                  25 rows) groups).
Proof.
  destruct (budget_invariant noEncoder) as [Ht Hc]. split.
  - destruct (Ht (textOptions 1 None) 60%nat sixtyLetters
                 approximateTokenCount) as [H|H];
      [apply namesCounts_approximate; left; reflexivity
      |reflexivity|apply Nat.leb_le; reflexivity|exact H|].
    exfalso. revert H. apply approximate_not_aborted. left. reflexivity.
  - apply (Hc (oneFile fiveRows) basename extname pathJoin
              (csvOptions 25 None) fiveRows approximateTokenCount);
      [apply namesCounts_approximate; left; reflexivity
      |reflexivity|reflexivity|discriminate].
Defined.

(** C1 as claimed fails: with budget 1 a unit of sixty letters is cut into
    fragments of fifty and ten letters, recorded with 13 and 3 tokens; the
    first is over the budget and is not a unit of the input. *)
Lemma budget_invariant_counterexample :
  exists log chunks counts,
    splitTextIntoTokenChunks noEncoder (textOptions 1 None) 60 sixtyLetters
    = (log, inr (chunks, counts)) /\
    ~ (forall c t, In (c, t) (combine chunks counts) ->
         withinBudgetOrOneUnit approximateTokenCount
           1 (segment Paragraph sixtyLetters) c t).
Proof.
  eexists _, _, _. split; [vm_compute; reflexivity|].
  intros H. specialize (H (repeat 97%N 50) 13 (or_introl eq_refl)).
  destruct H as [H|[H _]]; [lia|].
  vm_compute in H. destruct H as [H|[]]. discriminate H.
Qed.





(** C4, as the code orders its guards.  With a budget of 0 or less the
    text chunker throws the configuration error before anything is counted;
    the row packer first asks whether the input path exists and throws
    the input-not-found error when it does not, and otherwise throws the
    configuration error before the output directory is made, the input
    opened, a token counted or a file written. *)
Theorem budget_guard (tk : Tiktoken) :
  (forall (opts : SplitTextOptions) (fuel : nat) (text : str),
      SplitText.maxTokens opts <= 0 ->
      splitTextIntoTokenChunks tk opts fuel text
      = ([], inl ConfigurationError)) /\
  (forall (fsys : FileSystem) (bn : str -> str -> str) (en : str -> str)
          (pj : str -> str -> str) (opts : SplitCsvOptions),
      SplitCsv.maxTokens opts <= 0 ->
      splitCsvByTokens tk fsys bn en pj opts
      = ([EvExists (inputPath opts)],
         match fsys (inputPath opts) with
         | Some _ => inl ConfigurationError
         | None => inl (InputNotFound (inputPath opts))
         end)).
Proof.
  split.
  - intros opts fuel text H. unfold splitTextIntoTokenChunks.
    apply Z.leb_le in H. rewrite H. reflexivity.
  - intros fsys bn en pj opts H. unfold splitCsvByTokens, existsSync.
    apply Z.leb_le in H.
    destruct (fsys (inputPath opts)); cbn; [rewrite H|]; reflexivity.
Qed.

Lemma budget_guard_witness :
  splitTextIntoTokenChunks noEncoder (textOptions 0 None) 0 (lit "some text")
  = ([], inl ConfigurationError) /\
  splitCsvByTokens noEncoder (oneFile fiveRows) basename extname pathJoin
                   (csvOptions (-3) None)
  = ([EvExists (lit "mail.csv")], inl ConfigurationError).
Proof.
  destruct (budget_guard noEncoder) as [Ht Hc]. split.
  - apply Ht. vm_compute. discriminate.
  - apply (Hc (oneFile fiveRows) basename extname pathJoin
              (csvOptions (-3) None)).
    vm_compute. discriminate.
Defined.

(** C4 as claimed fails for the row packer: with budget 0 and an input
    path that does not exist it has queried the file system and throws the
    input-not-found error. *)
Lemma budget_guard_counterexample :
  splitCsvByTokens noEncoder noFile basename extname pathJoin
                   (csvOptions 0 None)
  = ([EvExists (lit "mail.csv")], inl (InputNotFound (lit "mail.csv"))) /\
  ~ (outcome (splitCsvByTokens noEncoder noFile basename extname pathJoin
                               (csvOptions 0 None))
     = inl ConfigurationError /\
     trace (splitCsvByTokens noEncoder noFile basename extname pathJoin
                             (csvOptions 0 None)) = []).
Proof.
  split; [reflexivity|]. intros [H _]. discriminate H.
Qed.

(** C5.  On a stream without a line that is not blank the loop leaves the
    variables untouched and the flush after it throws the missing-header
    error; any flush before a header is captured throws it. *)
Theorem missing_header (tk : Tiktoken) (fsys : FileSystem)
        (bn : str -> str -> str) (en : str -> str) (pj : str -> str -> str)
        (opts : SplitCsvOptions) :
  (forall lines : list str,
      fsys (inputPath opts) = Some lines ->
      0 < SplitCsv.maxTokens opts ->
      assumeNoMultilineFields opts <> Some false ->
      filter nonBlank lines = [] ->
      processLines tk bn en pj opts lines SplitCsv.initial
      = ([], inr SplitCsv.initial) /\
      flushPart bn en pj opts SplitCsv.initial = ([], inl MissingHeader) /\
      splitCsvByTokens tk fsys bn en pj opts
      = ([EvExists (inputPath opts); EvMkdir (outDir opts);
          EvOpen (inputPath opts)], inl MissingHeader)) /\
  (forall st : CsvState,
      header st = None ->
      flushPart bn en pj opts st = ([], inl MissingHeader)).
Proof.
  split.
  - intros lines Hfs Hpos Hml Hf.
    exact (@splitCsv_no_header tk fsys bn en pj opts lines Hfs Hpos Hml Hf).
  - intros st H. apply flushPart_missing. now left.
Qed.

Lemma missing_header_witness :
  splitCsvByTokens noEncoder (oneFile [[]; lit "   "; [9%N]]) basename
                   extname pathJoin (csvOptions 25 None)
  = ([EvExists (lit "mail.csv"); EvMkdir (lit "out");
      EvOpen (lit "mail.csv")], inl MissingHeader) /\
  flushPart basename extname pathJoin (csvOptions 25 None)
            {| header := None; part := 2; currentTokens := 7;
               currentLines := [lit "x,y"]; partPaths := [] |}
  = ([], inl MissingHeader).
Proof.
  destruct (missing_header noEncoder (oneFile [[]; lit "   "; [9%N]])
              basename extname pathJoin (csvOptions 25 None)) as [Hs Hf].
  split.
  - apply (Hs [[]; lit "   "; [9%N]]);
      [reflexivity|reflexivity|discriminate|reflexivity].
  - apply Hf. reflexivity.
Defined.

(** C7.  A unit that is not empty and counts more than the budget goes
    through the hard-split loop, which ends: the open chunk is flushed, and
    the fragments that the steps of the specification determine, at least
    one, are pushed as chunks of their own, each with its recount; or the
    loop is aborted by a count that failed on a piece of the unit. *)
Theorem hard_split_terminates (tk : Tiktoken) (opts : SplitTextOptions)
        (count : str -> Z) (fuel : nat) (st : PackState) (u : str) :
  namesCounts tk (SplitText.topts opts) count ->
  u <> [] ->
  tokenCount tk (SplitText.topts opts) u = Some (count u) ->
  count u > SplitText.maxTokens opts ->
  (length u <= fuel)%nat ->
  (exists log frs,
      packUnit tk opts fuel st u
      = (log, inr (pushed count (flushAndReset opts st) frs)) /\
      fragments count (SplitText.maxTokens opts) u frs /\
      frs <> [] /\
      forall frs',
        fragments count (SplitText.maxTokens opts) u frs' -> frs' = frs) \/
  aborted tk (SplitText.topts opts) (packUnit tk opts fuel st u)
          (fun w => infix w u).
Proof.
  intros Hn Hne Hu Hover Hfuel.
  assert (H : (count u >? SplitText.maxTokens opts) = true)
    by (apply Z.gtb_lt; lia).
  destruct (@hardSplit_run tk opts count Hn fuel u (flushAndReset opts st)
              Hfuel)
    as [[log [frs [Hrun Hfrs]]]|Hab].
  - left. exists (EvCount u :: log), frs. split; [|split; [|split]].
    + unfold packUnit. eapply bind_countTokens; [exact Hu|].
      rewrite H. exact Hrun.
    + exact Hfrs.
    + exact (fragments_nonempty Hfrs Hne).
    + intros frs' H'. eapply fragments_deterministic; eassumption.
  - right. unfold packUnit. eapply aborted_after_count; [exact Hu|].
    rewrite H. exact Hab.
Qed.

Lemma hard_split_terminates_witness :
  exists log frs,
    packUnit noEncoder (textOptions 1 None) 61 SplitText.initial cutAtSpace
    = (log, inr (pushed approximateTokenCount
                        (flushAndReset (textOptions 1 None) SplitText.initial)
                        frs)) /\
    fragments approximateTokenCount 1 cutAtSpace frs /\
    frs <> [] /\
    forall frs',
      fragments approximateTokenCount 1 cutAtSpace frs' -> frs' = frs.
Proof.
  destruct (@hard_split_terminates noEncoder (textOptions 1 None)
              approximateTokenCount 61%nat SplitText.initial cutAtSpace)
    as [H|H];
    [apply namesCounts_approximate; left; reflexivity
    |discriminate|reflexivity|reflexivity|apply Nat.leb_le; reflexivity
    |exact H|].
  exfalso. revert H. apply approximate_not_aborted. left. reflexivity.
Defined.




(** C9.  For an empty or white-space-only text and a positive budget the
    text chunker returns one chunk, the empty string, recorded with 0
    tokens, having counted the empty unit once.  The empty string counts 0
    under the approximation, which is assumed of the counter in use. *)
Theorem empty_text_one_empty_chunk (tk : Tiktoken) (opts : SplitTextOptions)
        (fuel : nat) (text : str) :
  0 < SplitText.maxTokens opts ->
  whitespaceOnly text ->
  tokenCount tk (SplitText.topts opts) [] = Some 0 ->
  segment (theMode opts) text = [[]] /\
  splitTextIntoTokenChunks tk opts fuel text
  = ([EvCount []], inr ([[]], [0])).
Proof.
  intros Hpos Hws H0.
  assert (Hseg : segment (theMode opts) text = [[]]).
  { rewrite segment_orWholeText, (partsOf_whitespaceOnly (theMode opts) Hws).
    cbn [orWholeText]. now rewrite (trim_whitespaceOnly Hws). }
  split; [exact Hseg|].
  unfold splitTextIntoTokenChunks.
  destruct (SplitText.maxTokens opts <=? 0) eqn:E;
    [apply Z.leb_le in E; lia|].
  assert (Hg : (0 >? SplitText.maxTokens opts) = false).
  { rewrite Z.gtb_ltb. apply Z.ltb_ge. lia. }
  assert (Hpack : packUnit tk opts fuel SplitText.initial []
                  = ([EvCount []],
                     inr {| chunks := []; tokenCounts := [];
                            current := [[]];
                            SplitText.currentTokens := 0 |})).
  { unfold packUnit. eapply bind_countTokens; [exact H0|].
    cbn [SplitText.initial SplitText.currentTokens]. change (0 + 0) with 0.
    rewrite Hg. reflexivity. }
  rewrite Hseg. cbn [packUnits]. rewrite Hpack. reflexivity.
Qed.

Lemma approximate_counts_empty_as_zero (tk : Tiktoken)
      (opts : SplitTextOptions) :
  SplitText.approximate opts = Some true \/ tk (SplitText.model opts) = None ->
  tokenCount tk (SplitText.topts opts) [] = Some 0.
Proof.
  intros H. now rewrite (tokenCount_approximate tk (SplitText.topts opts) []).
Qed.

Lemma empty_text_one_empty_chunk_witness :
  segment Line [SPACE; LF; 9%N; CR; LF] = [[]] /\
  splitTextIntoTokenChunks noEncoder (textOptions 5 (Some Line)) 0
                           [SPACE; LF; 9%N; CR; LF]
  = ([EvCount []], inr ([[]], [0])).
Proof.
  apply (@empty_text_one_empty_chunk noEncoder (textOptions 5 (Some Line))
           0%nat [SPACE; LF; 9%N; CR; LF]);
    [reflexivity|repeat constructor|reflexivity].
Defined.

(** C10.  When the header is the only line that is not blank the row
    packer returns 0 parts and no path, having made the output directory
    and opened the input, counted nothing and written nothing. *)
Theorem header_only_no_parts (tk : Tiktoken) (fsys : FileSystem)
        (bn : str -> str -> str) (en : str -> str) (pj : str -> str -> str)
        (opts : SplitCsvOptions) (lines : list str) (h : str) :
  fsys (inputPath opts) = Some lines ->
  0 < SplitCsv.maxTokens opts ->
  assumeNoMultilineFields opts <> Some false ->
  filter nonBlank lines = [h] ->
  splitCsvByTokens tk fsys bn en pj opts
  = ([EvExists (inputPath opts); EvMkdir (outDir opts);
      EvOpen (inputPath opts)], inr (0, [])) /\
  writes (trace (splitCsvByTokens tk fsys bn en pj opts)) = [].
Proof.
  intros Hfs Hpos Hml Hf.
  rewrite (@splitCsv_header_only tk fsys bn en pj opts lines h Hfs Hpos Hml Hf).
  split; reflexivity.
Qed.

Lemma header_only_no_parts_witness :
  splitCsvByTokens noEncoder (oneFile [[]; lit "a,b"; lit "  "]) basename
                   extname pathJoin (csvOptions 25 None)
  = ([EvExists (lit "mail.csv"); EvMkdir (lit "out");
      EvOpen (lit "mail.csv")], inr (0, [])) /\
  writes (trace (splitCsvByTokens noEncoder (oneFile [[]; lit "a,b"; lit "  "])
                                  basename extname pathJoin
                                  (csvOptions 25 None))) = [].
Proof.
  apply (@header_only_no_parts noEncoder (oneFile [[]; lit "a,b"; lit "  "])
           basename extname pathJoin (csvOptions 25 None)
           [[]; lit "a,b"; lit "  "] (lit "a,b"));
    [reflexivity|reflexivity|discriminate|reflexivity].
Defined.

End Claims.

(** * What segmentation keeps *)

Module ContentFacts.
Import SplitText Content.

Lemma visible_app (a b : str) : visible (a ++ b) = visible a ++ visible b.
Proof. apply filter_app. Qed.

Lemma visible_whitespaceOnly (s : str) : whitespaceOnly s -> visible s = [].
Proof.
  induction 1 as [|c r Hc _ IH]; [reflexivity|].
  unfold visible in *. cbn [filter]. now rewrite Hc.
Qed.

Lemma visible_nil_whitespaceOnly (s : str) : visible s = [] -> whitespaceOnly s.
Proof.
  unfold visible, whitespaceOnly. induction s as [|c r IH]; intros H.
  - constructor.
  - cbn [filter] in H. destruct (isWhiteSpace c) eqn:Hc; [|discriminate].
    constructor; auto.
Qed.

Lemma visible_rev (s : str) : visible (rev s) = rev (visible s).
Proof.
  unfold visible. induction s as [|c r IH]; [reflexivity|].
  cbn [rev filter]. rewrite filter_app, IH. cbn [filter].
  destruct (negb (isWhiteSpace c)); [reflexivity|].
  cbn [rev]. now rewrite app_nil_r.
Qed.

Lemma visible_dropWhile (s : str) :
  visible (dropWhile isWhiteSpace s) = visible s.
Proof.
  destruct (dropWhile_suffix isWhiteSpace s) as [pre [E Hpre]].
  rewrite E at 2. rewrite visible_app, (visible_whitespaceOnly Hpre).
  reflexivity.
Qed.

Lemma visible_trimStart (s : str) : visible (trimStart s) = visible s.
Proof. apply visible_dropWhile. Qed.

Lemma visible_trimEnd (s : str) : visible (trimEnd s) = visible s.
Proof.
  unfold trimEnd. rewrite visible_rev, visible_dropWhile, visible_rev.
  apply rev_involutive.
Qed.

Lemma visible_trim (s : str) : visible (trim s) = visible s.
Proof. unfold trim. now rewrite visible_trimEnd, visible_trimStart. Qed.

Lemma visible_replaceCRLF (s : str) : visible (replaceCRLF s) = visible s.
Proof.
  enough (H : visible (replaceCRLF s) = visible s /\
              forall c, visible (replaceCRLF (c :: s)) = visible (c :: s))
    by apply H.
  induction s as [|d r [IH1 IH2]].
  - split; intros; reflexivity.
  - split; [apply IH2|].
    intros c. rewrite replaceCRLF_cons2.
    destruct ((c =? CR)%N && (d =? LF)%N) eqn:E.
    + apply andb_prop in E as [Ec Ed].
      apply N.eqb_eq in Ec, Ed. subst c d.
      unfold visible in *. cbn [filter]. change (isWhiteSpace LF) with true.
      change (isWhiteSpace CR) with true. cbn [negb]. exact IH1.
    + unfold visible in *. cbn [filter]. rewrite (IH2 d). reflexivity.
Qed.

Lemma runLength_firstn (p : char -> bool) (s : str) :
  Forall (fun c => p c = true) (firstn (runLength p s) s).
Proof.
  induction s as [|c r IH]; [constructor|].
  cbn [runLength]. destruct (p c) eqn:Hc; [|constructor].
  cbn [firstn]. constructor; assumption.
Qed.

Lemma paragraphSeparator_whitespace : matchesWhiteSpace paragraphSeparator.
Proof.
  intros before rest k H. unfold paragraphSeparator in H.
  destruct (2 <=? runLength (fun c => (c =? LF)%N) rest)%nat; [|discriminate].
  injection H as <-.
  eapply Forall_impl; [|apply runLength_firstn].
  cbv beta. intros c Hc. apply N.eqb_eq in Hc. now subst c.
Qed.

Lemma sentenceSeparator_whitespace : matchesWhiteSpace sentenceSeparator.
Proof.
  intros before rest k H. unfold sentenceSeparator in H.
  destruct before as [|b before']; [discriminate|].
  destruct (isSentenceEnd b); [|discriminate].
  destruct (skipn (runLength isWhiteSpace rest) rest) as [|a tl_];
    [discriminate|].
  destruct ((1 <=? runLength isWhiteSpace rest)%nat && isSentenceStart a);
    [|discriminate].
  injection H as <-. apply runLength_firstn.
Qed.

Lemma lineSeparator_whitespace : matchesWhiteSpace lineSeparator.
Proof.
  intros before rest k H. unfold lineSeparator in H.
  destruct rest as [|c r]; [discriminate|].
  destruct (c =? LF)%N eqn:E; [|discriminate].
  injection H as <-. apply N.eqb_eq in E. subst c.
  cbn [firstn]. repeat constructor.
Qed.

(** Splitting on white space loses white space only. *)
Lemma splitLoop_visible (m : matcher) :
  matchesWhiteSpace m ->
  forall (rest before piece : str) (skip : nat),
    whitespaceOnly (firstn skip rest) ->
    visible (concat (splitLoop m before piece skip rest))
    = visible (rev piece ++ rest).
Proof.
  intros Hm. induction rest as [|c r IH]; intros before piece skip Hskip.
  - cbn [splitLoop concat]. reflexivity.
  - cbn [splitLoop]. destruct skip as [|k].
    + destruct (m before (c :: r)) as [[|k]|] eqn:E.
      * rewrite IH by constructor. cbn [rev]. now rewrite <- app_assoc.
      * apply Hm in E. cbn [firstn] in E. inversion E as [|? ? Hc Hr]; subst.
        cbn [concat]. rewrite visible_app, (IH _ [] k Hr).
        rewrite !visible_app. cbn [rev app]. f_equal.
        unfold visible. cbn [filter]. now rewrite Hc.
      * rewrite IH by constructor. cbn [rev]. now rewrite <- app_assoc.
    + cbn [firstn] in Hskip. inversion Hskip as [|? ? Hc Hr]; subst.
      rewrite (IH _ piece k Hr). rewrite !visible_app. f_equal.
      unfold visible. cbn [filter]. now rewrite Hc.
Qed.

Lemma split_visible (m : matcher) (s : str) :
  matchesWhiteSpace m -> visible (concat (split m s)) = visible s.
Proof.
  intros Hm. unfold split. rewrite (splitLoop_visible Hm) by constructor.
  reflexivity.
Qed.

Lemma visible_concat_parts (f : str -> str) (p : str -> bool)
      (pieces : list str) :
  (forall x, visible (f x) = visible x) ->
  (forall y, p y = false -> y = []) ->
  visible (concat (filter p (List.map f pieces))) = visible (concat pieces).
Proof.
  intros Hf Hp. induction pieces as [|x r IH]; [reflexivity|].
  cbn [List.map filter concat]. rewrite visible_app, <- IH, <- (Hf x).
  destruct (p (f x)) eqn:E.
  - cbn [concat]. now rewrite visible_app.
  - rewrite (Hp _ E). reflexivity.
Qed.

Lemma truthy_false (y : str) : truthy y = false -> y = [].
Proof. destruct y; [reflexivity|discriminate]. Qed.

Lemma positive_length_false (y : str) : (0 <? strlen y) = false -> y = [].
Proof. destruct y; [reflexivity|]. intros H. apply Z.ltb_ge in H.
  unfold strlen in H. cbn [length] in H. lia. Qed.

Lemma partsOf_visible (m : Mode) (text : str) :
  visible (concat (partsOf m text)) = visible text.
Proof.
  destruct m; unfold partsOf, paragraphParts, sentenceParts, lineParts.
  - rewrite (visible_concat_parts trim truthy _ visible_trim truthy_false).
    rewrite (split_visible _ paragraphSeparator_whitespace).
    apply visible_replaceCRLF.
  - rewrite (visible_concat_parts trim truthy _ visible_trim truthy_false).
    rewrite (split_visible _ sentenceSeparator_whitespace).
    apply visible_replaceCRLF.
  - rewrite (visible_concat_parts trimEnd _ _ visible_trimEnd
                                  positive_length_false).
    rewrite (split_visible _ lineSeparator_whitespace).
    apply visible_replaceCRLF.
Qed.

Lemma visible_segment (m : Mode) (text : str) :
  visible (concat (segment m text)) = visible text.
Proof.
  rewrite segment_orWholeText.
  pose proof (partsOf_visible m text) as H.
  destruct (partsOf m text) as [|u us]; [|exact H].
  cbn [orWholeText concat]. rewrite app_nil_r. apply visible_trim.
Qed.

(** A text with a code unit that is no white space has parts. *)
Lemma partsOf_nil_whitespaceOnly (m : Mode) (text : str) :
  partsOf m text = [] -> whitespaceOnly text.
Proof.
  intros H. apply visible_nil_whitespaceOnly.
  rewrite <- (partsOf_visible m text), H. reflexivity.
Qed.

(** X1.  Segmentation loses white space only: in each of the three modes
    the code units of the units that are not white space are, in order,
    those of the text. *)
Theorem segment_keeps_visible (m : Mode) (text : str) :
  visible (concat (segment m text)) = visible text.
Proof. apply visible_segment. Qed.

(** X2.  The fallback of the segmenters is taken for an empty or
    white-space-only text and for no other: a text with a code unit that is
    no white space always has parts. *)
Theorem fallback_only_for_blank_text (m : Mode) (text : str) :
  partsOf m text = [] <-> whitespaceOnly text.
Proof.
  split; [apply partsOf_nil_whitespaceOnly|apply partsOf_whitespaceOnly].
Qed.

Lemma fallback_only_for_blank_text_witness :
  partsOf Line [SPACE; LF] = [].
Proof.
  apply (fallback_only_for_blank_text Line [SPACE; LF]).
  repeat constructor.
Defined.

End ContentFacts.

(** * The shape of the units *)

Module UnitFacts.
Import SplitText Content ContentFacts.

Lemma dropWhile_idempotent (p : char -> bool) (s : str) :
  dropWhile p (dropWhile p s) = dropWhile p s.
Proof.
  induction s as [|c r IH]; [reflexivity|].
  cbn [dropWhile]. destruct (p c) eqn:Hc; [exact IH|].
  cbn [dropWhile]. now rewrite Hc.
Qed.

Lemma trimEnd_idempotent (s : str) : trimEnd (trimEnd s) = trimEnd s.
Proof.
  unfold trimEnd. now rewrite rev_involutive, dropWhile_idempotent.
Qed.

Lemma trimStart_fixed (s : str) :
  trimStart s = s ->
  s = [] \/ exists c r, s = c :: r /\ isWhiteSpace c = false.
Proof.
  destruct s as [|c r]; [now left|]. intros H. right. exists c, r.
  split; [reflexivity|]. unfold trimStart in H. cbn [dropWhile] in H.
  destruct (isWhiteSpace c); [|reflexivity].
  pose proof (dropWhile_length isWhiteSpace r) as L.
  rewrite H in L. cbn [length] in L. lia.
Qed.

Lemma trimStart_trimEnd (s : str) :
  trimStart s = s -> trimStart (trimEnd s) = trimEnd s.
Proof.
  intros H. destruct (trimStart_fixed H) as [->|(c & r & -> & Hc)];
    [reflexivity|].
  rewrite trimEnd_cons, Hc.
  destruct (trimEnd r); unfold trimStart; cbn [dropWhile]; now rewrite Hc.
Qed.

Lemma trimStart_trim (s : str) : trimStart (trim s) = trim s.
Proof.
  unfold trim. apply trimStart_trimEnd. apply dropWhile_idempotent.
Qed.

Lemma trimEnd_trim (s : str) : trimEnd (trim s) = trim s.
Proof. unfold trim. apply trimEnd_idempotent. Qed.

Lemma Forall_filter_map (f : str -> str) (p : str -> bool) (P : str -> Prop)
      (xs : list str) :
  (forall x, p (f x) = true -> P (f x)) ->
  Forall P (filter p (List.map f xs)).
Proof.
  intros H. apply Forall_forall. intros y Hy.
  apply filter_In in Hy as [Hin Hp].
  apply in_map_iff in Hin as [x [<- _]]. now apply H.
Qed.

Lemma units_trimmed (m : Mode) (text : str) :
  Forall (fun u => trimEnd u = u /\ (m <> Line -> trimStart u = u))
         (segment m text).
Proof.
  rewrite segment_orWholeText.
  assert (H : Forall (fun u => trimEnd u = u /\
                               (m <> Line -> trimStart u = u))
                     (partsOf m text)).
  { destruct m; unfold partsOf, paragraphParts, sentenceParts, lineParts;
      apply Forall_filter_map; intros x _.
    - split; [apply trimEnd_trim|intros _; apply trimStart_trim].
    - split; [apply trimEnd_trim|intros _; apply trimStart_trim].
    - split; [apply trimEnd_idempotent|intros C; now contradiction C]. }
  destruct (partsOf m text); [|exact H].
  cbn [orWholeText]. constructor; [|constructor].
  split; [apply trimEnd_trim|intros _; apply trimStart_trim].
Qed.

Lemma units_nonempty (m : Mode) (text : str) :
  ~ whitespaceOnly text -> Forall (fun u => u <> []) (segment m text).
Proof.
  rewrite segment_orWholeText. intros Hnb.
  destruct (partsOf m text) as [|u us] eqn:E.
  - exfalso. apply Hnb. now apply (partsOf_nil_whitespaceOnly m).
  - cbn [orWholeText]. rewrite <- E. clear E.
    destruct m; unfold partsOf, paragraphParts, sentenceParts, lineParts;
      apply Forall_filter_map; intros x Hx.
    + intros C. rewrite C in Hx. discriminate.
    + intros C. rewrite C in Hx. discriminate.
    + intros C. rewrite C in Hx. discriminate.
Qed.

(** X3.  Every unit has no white space at its end and, in paragraph and
    sentence mode, none at its start; unless the text is empty or white
    space only, no unit is empty. *)
Theorem units_trimmed_and_nonempty (m : Mode) (text : str) :
  Forall (fun u => trimEnd u = u /\ (m <> Line -> trimStart u = u))
         (segment m text) /\
  (~ whitespaceOnly text -> Forall (fun u => u <> []) (segment m text)).
Proof. split; [apply units_trimmed|apply units_nonempty]. Qed.

Lemma units_trimmed_and_nonempty_witness :
  Forall (fun u => u <> [])
         (segment Paragraph (lit "  one " ++ [LF; LF; LF] ++ lit "two ")).
Proof.
  apply (units_trimmed_and_nonempty Paragraph).
  intros H. inversion H as [|c r Hc Hr]; subst.
  inversion Hr as [|c2 r2 Hc2 Hr2]; subst.
  inversion Hr2 as [|c3 r3 Hc3 Hr3]; subst. discriminate Hc3.
Defined.

(** *** Line units hold no line feed *)

Lemma In_dropWhile (p : char -> bool) (c : char) (s : str) :
  In c (dropWhile p s) -> In c s.
Proof.
  destruct (dropWhile_suffix p s) as [pre [E _]]. intros H.
  rewrite E. apply in_or_app. now right.
Qed.

Lemma In_trimEnd (c : char) (s : str) : In c (trimEnd s) -> In c s.
Proof.
  unfold trimEnd. intros H. apply in_rev in H. apply In_dropWhile in H.
  now apply in_rev.
Qed.

Lemma splitLoop_lines (rest : str) :
  forall (before piece : str) (skip : nat),
    ~ In LF piece ->
    Forall (fun x => ~ In LF x) (splitLoop lineSeparator before piece skip rest).
Proof.
  induction rest as [|c r IH]; intros before piece skip Hp.
  - cbn [splitLoop]. constructor; [|constructor].
    intros H. apply Hp. now apply in_rev.
  - cbn [splitLoop]. destruct skip as [|k]; [|now apply IH].
    unfold lineSeparator at 1. destruct (c =? LF)%N eqn:E.
    + constructor; [intros H; apply Hp; now apply in_rev|].
      apply IH. intros [].
    + apply IH. intros [H|H]; [|contradiction].
      subst c. discriminate E.
Qed.

(** X4.  In line mode no unit holds a line feed: every unit is one line of
    the text. *)
Theorem line_units_hold_no_line_feed (text : str) :
  Forall (fun u => ~ In LF u) (splitIntoLines text).
Proof.
  unfold splitIntoLines.
  assert (H : Forall (fun u => ~ In LF u) (lineParts text)).
  { unfold lineParts. apply Forall_forall. intros y Hy.
    apply filter_In in Hy as [Hin _].
    apply in_map_iff in Hin as [x [<- Hx]].
    pose proof (@splitLoop_lines (replaceCRLF text) [] [] O
                  (fun H : In LF [] => H)) as Hs.
    rewrite Forall_forall in Hs. intros C. apply (Hs x Hx).
    now apply In_trimEnd. }
  destruct (lineParts text) as [|u us] eqn:E; [|exact H].
  cbn [orWholeText]. constructor; [|constructor].
  apply (@partsOf_nil_whitespaceOnly Line) in E.
  rewrite (trim_whitespaceOnly E). intros [].
Qed.

(** *** Paragraph units hold no blank line *)

Lemma holdsBlankLine_rev (s : str) : holdsBlankLine (rev s) -> holdsBlankLine s.
Proof.
  intros [a [b E]]. exists (rev b), (rev a).
  rewrite <- (rev_involutive s), E, rev_app_distr. cbn [rev].
  rewrite <- !app_assoc. reflexivity.
Qed.

Lemma holdsBlankLine_cons (c : char) (s : str) :
  holdsBlankLine (c :: s) ->
  holdsBlankLine s \/ (c = LF /\ exists r, s = LF :: r).
Proof.
  intros [a [b E]]. destruct a as [|x a].
  - injection E as -> ->. right. split; [reflexivity|now exists b].
  - injection E as _ ->. left. now exists a, b.
Qed.

Lemma holdsBlankLine_infix (pre s post : str) :
  holdsBlankLine s -> holdsBlankLine (pre ++ s ++ post).
Proof.
  intros [a [b ->]]. exists (pre ++ a), (b ++ post).
  rewrite <- !app_assoc. reflexivity.
Qed.

Lemma trimEnd_prefix (s : str) : exists post, s = trimEnd s ++ post.
Proof.
  unfold trimEnd.
  destruct (dropWhile_suffix isWhiteSpace (rev s)) as [pre [E _]].
  exists (rev pre). rewrite <- rev_app_distr, <- E. now rewrite rev_involutive.
Qed.

Lemma holdsBlankLine_trim (s : str) :
  holdsBlankLine (trim s) -> holdsBlankLine s.
Proof.
  intros H. unfold trim in H.
  destruct (dropWhile_suffix isWhiteSpace s) as [pre [E _]].
  destruct (trimEnd_prefix (trimStart s)) as [post E'].
  rewrite E. fold (trimStart s). rewrite E'.
  now apply holdsBlankLine_infix.
Qed.

Lemma runLength_short (c : char) (r : str) :
  (2 <=? runLength (fun x => (x =? LF)%N) (c :: r))%nat = false ->
  c = LF -> forall r', r <> LF :: r'.
Proof.
  intros H -> r' ->. cbn in H. discriminate H.
Qed.

Lemma splitLoop_paragraphs (rest : str) :
  forall (before piece : str) (skip : nat),
    ~ holdsBlankLine piece ->
    (skip = O /\ (forall p' r', piece = LF :: p' -> rest <> LF :: r')
     \/ piece = []) ->
    Forall (fun x => ~ holdsBlankLine x)
           (splitLoop paragraphSeparator before piece skip rest).
Proof.
  induction rest as [|c r IH]; intros before piece skip Hp Hinv.
  - cbn [splitLoop]. constructor; [|constructor].
    intros H. apply Hp. now apply holdsBlankLine_rev.
  - cbn [splitLoop]. destruct skip as [|k].
    + unfold paragraphSeparator at 1.
      destruct (2 <=? runLength (fun x => (x =? LF)%N) (c :: r))%nat eqn:E.
      * destruct (runLength (fun x => (x =? LF)%N) (c :: r)) as [|k];
          [discriminate E|].
        constructor; [intros H; apply Hp; now apply holdsBlankLine_rev|].
        apply IH; [|now right].
        intros [a [b Hab]]. destruct a; discriminate Hab.
      * apply IH.
        -- intros H. apply holdsBlankLine_cons in H as [H|[Hc [p' Hp']]];
             [now apply Hp|].
           subst c piece.
           destruct Hinv as [[_ Hinv]|Hinv]; [|discriminate Hinv].
           now apply (Hinv p' r).
        -- left. split; [reflexivity|].
           intros p' r' Hc. injection Hc as Hc _.
           now apply (runLength_short E).
    + destruct Hinv as [[Hk _]|Hnil]; [discriminate Hk|].
      apply IH; [assumption|now right].
Qed.

(** X5.  In paragraph mode no unit holds a blank line: two line feeds in a
    row always separate two units. *)
Theorem paragraph_units_hold_no_blank_line (text : str) :
  Forall (fun u => ~ holdsBlankLine u) (splitIntoParagraphs text).
Proof.
  assert (Hnil : ~ holdsBlankLine []).
  { intros [a [b Hab]]. destruct a; discriminate Hab. }
  unfold splitIntoParagraphs.
  assert (H : Forall (fun u => ~ holdsBlankLine u) (paragraphParts text)).
  { unfold paragraphParts. apply Forall_forall. intros y Hy.
    apply filter_In in Hy as [Hin _].
    apply in_map_iff in Hin as [x [<- Hx]].
    pose proof (@splitLoop_paragraphs (replaceCRLF text) [] [] O Hnil
                  (or_intror eq_refl)) as Hs.
    rewrite Forall_forall in Hs. intros C. apply (Hs x Hx).
    now apply holdsBlankLine_trim. }
  destruct (paragraphParts text) as [|u us] eqn:E; [|exact H].
  cbn [orWholeText]. constructor; [|constructor].
  apply (@partsOf_nil_whitespaceOnly Paragraph) in E.
  rewrite (trim_whitespaceOnly E). exact Hnil.
Qed.

End UnitFacts.

(** * The approximate count: zero, bounds, white space *)

Module ApproximateFacts.
Import Content ContentFacts UnitFacts.

Lemma visible_replaceWsRuns (inRun : bool) (s : str) :
  visible (replaceWsRuns inRun s) = visible s.
Proof.
  revert inRun. induction s as [|c r IH]; intros inRun; [reflexivity|].
  cbn [replaceWsRuns]. unfold visible in *. cbn [filter].
  destruct (isWhiteSpace c) eqn:Hc; cbn [negb].
  - destruct inRun; [apply IH|]. cbn [filter].
    change (isWhiteSpace SPACE) with true. cbn [negb]. apply IH.
  - cbn [filter]. rewrite Hc. cbn [negb]. now rewrite IH.
Qed.

Lemma replaceWsRuns_length (inRun : bool) (s : str) :
  (length (replaceWsRuns inRun s) <= length s)%nat.
Proof.
  revert inRun. induction s as [|c r IH]; intros inRun; [apply le_n|].
  cbn [replaceWsRuns].
  pose proof (IH true). pose proof (IH false).
  destruct (isWhiteSpace c); [destruct inRun|]; cbn [length]; lia.
Qed.

Lemma filter_length_le (p : char -> bool) (s : str) :
  (length (filter p s) <= length s)%nat.
Proof.
  induction s as [|c r IH]; [apply le_n|].
  cbn [filter]. destruct (p c); cbn [length]; lia.
Qed.

Lemma ceilDiv_mono (a b d : Z) :
  0 < d -> a <= b -> ceilDiv a d <= ceilDiv b d.
Proof.
  intros Hd Hab. rewrite !ceilDiv_ceil by assumption.
  unfold ApproximateSpec.ceil. apply Z.div_le_mono; lia.
Qed.

Lemma ceilDiv_pos (a d : Z) : 0 < d -> 0 < a -> 1 <= ceilDiv a d.
Proof.
  intros Hd Ha. rewrite ceilDiv_ceil by assumption.
  pose proof (ceil_is_ceiling a Hd). nia.
Qed.

Lemma ceilDiv_nonneg (a d : Z) : 0 < d -> 0 <= a -> 0 <= ceilDiv a d.
Proof.
  intros Hd Ha. rewrite ceilDiv_ceil by assumption.
  pose proof (ceil_is_ceiling a Hd). nia.
Qed.

Lemma normalized_nil_iff (text : str) :
  trim (replaceWsRuns false text) = [] <-> whitespaceOnly text.
Proof.
  split; intros H.
  - apply visible_nil_whitespaceOnly.
    rewrite <- (visible_replaceWsRuns false text), <- visible_trim, H.
    reflexivity.
  - assert (V : visible (trim (replaceWsRuns false text)) = []).
    { rewrite visible_trim, visible_replaceWsRuns.
      now apply visible_whitespaceOnly. }
    apply visible_nil_whitespaceOnly in V.
    pose proof (trimStart_trim (replaceWsRuns false text)) as T.
    rewrite (trimStart_whitespaceOnly V) in T. now symmetry.
Qed.

(** X6.  The approximate count is 0 exactly for an empty or
    white-space-only text, and at least 1 for any other. *)
Theorem approximate_zero_iff_blank (text : str) :
  (approximateTokenCount text = 0 <-> whitespaceOnly text) /\
  (~ whitespaceOnly text -> 1 <= approximateTokenCount text).
Proof.
  unfold approximateTokenCount.
  pose proof (normalized_nil_iff text) as N.
  destruct (trim (replaceWsRuns false text)) as [|c n] eqn:E; cbn [isEmpty].
  - split; [split; [intros _; now apply N|reflexivity]|].
    intros H. exfalso. now apply H, N.
  - split; [|intros _; lia].
    split; [intros H; lia|]. intros H. apply N in H. discriminate H.
Qed.

Lemma approximate_zero_iff_blank_witness :
  1 <= approximateTokenCount (lit " a ").
Proof.
  apply (approximate_zero_iff_blank (lit " a ")).
  intros H. inversion H as [|c r Hc Hr]; subst.
  inversion Hr as [|c2 r2 Hc2 Hr2]; subst. discriminate Hc2.
Defined.

Lemma approximateTokenCount_bounds (text : str) :
  ceilDiv (strlen (visible text)) 4 <= approximateTokenCount text /\
  approximateTokenCount text
  <= ceilDiv (strlen text) 4 + ceilDiv (strlen text) 6.
Proof.
  unfold approximateTokenCount.
  pose proof (trim_length (replaceWsRuns false text)) as L1.
  pose proof (replaceWsRuns_length false text) as L2.
  assert (V : visible (trim (replaceWsRuns false text)) = visible text)
    by (rewrite visible_trim; apply visible_replaceWsRuns).
  pose proof (filter_length_le (fun c => negb (isWhiteSpace c))
                (trim (replaceWsRuns false text))) as L3.
  fold (visible (trim (replaceWsRuns false text))) in L3. rewrite V in L3.
  pose proof (filter_length_le isPunct (trim (replaceWsRuns false text)))
    as L4.
  pose proof (strlen_nonneg text) as P0.
  destruct (trim (replaceWsRuns false text)) as [|c n] eqn:E; cbn [isEmpty].
  - assert (visible text = []) as -> by (destruct (visible text);
      [reflexivity|cbn [length] in L3; lia]).
    split; [reflexivity|].
    pose proof (ceilDiv_nonneg (d := 4) ltac:(lia) P0).
    pose proof (ceilDiv_nonneg (d := 6) ltac:(lia) P0). lia.
  - set (norm := c :: n) in *.
    assert (B1 : ceilDiv (strlen (visible text)) 4 <= ceilDiv (strlen norm) 4)
      by (apply ceilDiv_mono; unfold strlen; lia).
    assert (B2 : ceilDiv (strlen norm) 4 <= ceilDiv (strlen text) 4)
      by (apply ceilDiv_mono; unfold strlen; lia).
    assert (B3 : ceilDiv (strlen (filter isPunct norm)) 6
                 <= ceilDiv (strlen text) 6)
      by (apply ceilDiv_mono; unfold strlen; lia).
    assert (B4 : 0 <= ceilDiv (strlen (filter isPunct norm)) 6)
      by (apply ceilDiv_nonneg; [lia|apply strlen_nonneg]).
    assert (B5 : 1 <= ceilDiv (strlen norm) 4)
      by (apply ceilDiv_pos; [lia|unfold strlen, norm; cbn [length]; lia]).
    lia.
Qed.

(** X7.  The approximate count lies between a quarter of the code units
    that are no white space, rounded up, and a quarter plus a sixth of all
    code units, each rounded up. *)
Theorem approximate_bounds (text : str) :
  ceilDiv (strlen (visible text)) 4 <= approximateTokenCount text /\
  approximateTokenCount text
  <= ceilDiv (strlen text) 4 + ceilDiv (strlen text) 6.
Proof. apply approximateTokenCount_bounds. Qed.

(** A text of at most fifty code units counts at most 22. *)
Lemma approximate_fifty (text : str) :
  strlen text <= 50 -> approximateTokenCount text <= 22.
Proof.
  intros H. destruct (approximateTokenCount_bounds text) as [_ B].
  assert (ceilDiv (strlen text) 4 <= ceilDiv 50 4)
    by (apply ceilDiv_mono; lia).
  assert (ceilDiv (strlen text) 6 <= ceilDiv 50 6)
    by (apply ceilDiv_mono; lia).
  change (ceilDiv 50 4) with 13 in *. change (ceilDiv 50 6) with 9 in *.
  lia.
Qed.

(** *** White space around the text does not count *)

Lemma words_dropWhile (s : str) :
  ApproximateSpec.words (dropWhile isWhiteSpace s) = ApproximateSpec.words s.
Proof.
  induction s as [|c r IH]; [reflexivity|].
  cbn [dropWhile]. destruct (isWhiteSpace c) eqn:Hc; [|reflexivity].
  rewrite IH. cbn [ApproximateSpec.words]. now rewrite Hc.
Qed.

Lemma words_cons_ws (c : char) (s : str) :
  isWhiteSpace c = true ->
  ApproximateSpec.words (c :: s) = ApproximateSpec.words s.
Proof. intros H. cbn [ApproximateSpec.words]. now rewrite H. Qed.

Lemma words_whitespaceOnly (s : str) :
  whitespaceOnly s -> ApproximateSpec.words s = [].
Proof.
  induction 1 as [|c r Hc _ IH]; [reflexivity|].
  now rewrite (@words_cons_ws c r Hc).
Qed.

(** White space after the text adds no word. *)
Lemma words_app_ws (s ws : str) :
  whitespaceOnly ws ->
  ApproximateSpec.words (s ++ ws) = ApproximateSpec.words s.
Proof.
  intros Hws.
  enough (H : ApproximateSpec.words (s ++ ws) = ApproximateSpec.words s /\
              forall c, ApproximateSpec.words (c :: s ++ ws)
                        = ApproximateSpec.words (c :: s)) by apply H.
  induction s as [|d r [IH1 IH2]].
  - cbn [app]. rewrite (words_whitespaceOnly Hws). split; [reflexivity|].
    intros c. destruct ws as [|w ws'].
    + reflexivity.
    + inversion Hws as [|? ? Hw Hws']; subst.
      rewrite words_cons2, Hw, (@words_cons_ws w ws' Hw),
        (words_whitespaceOnly Hws').
      cbn [ApproximateSpec.words]. destruct (isWhiteSpace c); reflexivity.
  - split; [apply IH2|]. intros c. cbn [app].
    rewrite !words_cons2, (IH2 d). reflexivity.
Qed.

Lemma words_trimEnd (s : str) :
  ApproximateSpec.words (trimEnd s) = ApproximateSpec.words s.
Proof.
  unfold trimEnd.
  destruct (dropWhile_suffix isWhiteSpace (rev s)) as [pre [E Hpre]].
  assert (S : s = rev (dropWhile isWhiteSpace (rev s)) ++ rev pre).
  { rewrite <- rev_app_distr, <- E. symmetry. apply rev_involutive. }
  rewrite S at 2. symmetry. apply words_app_ws. now apply Forall_rev.
Qed.

(** X8.  White space before and after a text does not change its
    approximate count. *)
Theorem approximate_ignores_outer_white_space (text before after : str) :
  whitespaceOnly before -> whitespaceOnly after ->
  approximateTokenCount (before ++ text ++ after) = approximateTokenCount text
  /\ approximateTokenCount (trim text) = approximateTokenCount text.
Proof.
  intros Hb Ha. unfold approximateTokenCount. rewrite !normalized_spec.
  unfold ApproximateSpec.normalize.
  assert (W1 : ApproximateSpec.words (before ++ text ++ after)
               = ApproximateSpec.words text).
  { rewrite <- (words_dropWhile (before ++ text ++ after)).
    destruct (dropWhile_suffix isWhiteSpace text) as [pre [E Hpre]].
    assert (D : dropWhile isWhiteSpace (before ++ text ++ after)
                = dropWhile isWhiteSpace (text ++ after)).
    { clear - Hb. induction Hb as [|c r Hc _ IH]; [reflexivity|].
      cbn [app dropWhile]. now rewrite Hc. }
    rewrite D, words_dropWhile. now apply words_app_ws. }
  assert (W2 : ApproximateSpec.words (trim text) = ApproximateSpec.words text).
  { unfold trim, trimStart. now rewrite words_trimEnd, words_dropWhile. }
  rewrite W1, W2. split; reflexivity.
Qed.

Lemma approximate_ignores_outer_white_space_witness :
  approximateTokenCount ([LF; SPACE] ++ lit "a, b" ++ [SPACE; CR; LF])
  = approximateTokenCount (lit "a, b")
  /\ approximateTokenCount (trim (lit "a, b"))
     = approximateTokenCount (lit "a, b").
Proof.
  apply (@approximate_ignores_outer_white_space (lit "a, b") [LF; SPACE]
           [SPACE; CR; LF]); repeat constructor.
Defined.

End ApproximateFacts.

(** * The text chunker, end to end *)

Module ChunkFacts.
Import SplitText HardSplitSpec PackingSpec Invariants.
Import HardSplitFacts SplitTextFacts Content ContentFacts UnitFacts.
Import ApproximateFacts Counting.

Lemma separator_whitespaceOnly (m : Mode) : whitespaceOnly (separator m).
Proof. destruct m; repeat constructor. Qed.

Lemma visible_join (sep : str) (g : list str) :
  whitespaceOnly sep -> visible (join sep g) = visible (concat g).
Proof.
  intros Hs. induction g as [|x g IH]; [reflexivity|].
  destruct g as [|y g].
  - cbn [join concat]. now rewrite app_nil_r.
  - rewrite join_cons_cons. cbn [concat] in *.
    rewrite !visible_app, (visible_whitespaceOnly Hs), IH.
    now rewrite visible_app.
Qed.

Lemma visible_chunks (sep : str) (gs : list (list str)) :
  whitespaceOnly sep ->
  visible (concat (List.map (join sep) gs)) = visible (concat (concat gs)).
Proof.
  intros Hs. induction gs as [|g gs IH]; [reflexivity|].
  cbn [List.map concat]. rewrite concat_app, !visible_app, IH.
  now rewrite (visible_join g Hs).
Qed.

Lemma fragments_visible (count : str -> Z) (budget : Z) (u : str)
      (frs : list str) :
  fragments count budget u frs -> visible (concat frs) = visible u.
Proof.
  induction 1 as [|rem w rest Hne Hw _ IH]; [reflexivity|].
  destruct (shrunk_prefix Hw) as [t Ht].
  assert (Hpre : firstn (length w) rem = w).
  { rewrite <- (firstn_skipn (Z.to_nat (Z.max 50 (budget * 4))) rem), Ht.
    rewrite <- app_assoc, firstn_app, firstn_all, Nat.sub_diag.
    cbn [firstn]. apply app_nil_r. }
  rewrite <- (firstn_skipn (length w) rem) at 1. rewrite Hpre.
  cbn [concat]. rewrite !visible_app, IH. f_equal.
  apply visible_trimStart.
Qed.

Lemma expands_visible (count : str -> Z) (budget : Z) (us xs : list str) :
  expands count budget us xs ->
  visible (concat xs) = visible (concat us).
Proof.
  induction 1 as [|u us xs Hu _ IH|u frs us xs Hu Hf _ IH]; [reflexivity| |].
  - cbn [concat]. now rewrite !visible_app, IH.
  - cbn [concat]. rewrite concat_app, !visible_app, IH.
    now rewrite (fragments_visible Hf).
Qed.

(** X9.  The text chunker loses white space only.  With a positive
    budget it returns, or is aborted by a count that failed on a piece of
    a unit; the code units of the chunks it returns that are not white
    space are, in order, those of the text, whatever was packed together
    or hard-split. *)
Theorem chunker_keeps_visible (tk : Tiktoken) (opts : SplitTextOptions)
        (fuel : nat) (text : str) :
  0 < maxTokens opts -> (length text <= fuel)%nat ->
  (exists log chunks counts,
      splitTextIntoTokenChunks tk opts fuel text
      = (log, inr (chunks, counts)) /\
      visible (concat chunks) = visible text) \/
  aborted tk (topts opts) (splitTextIntoTokenChunks tk opts fuel text)
          (pieceOf (segment (theMode opts) text)).
Proof.
  intros Hpos Hfuel.
  destruct (@splitText_run tk opts (countOr0 tk (topts opts))
              (namesCounts_countOr0 tk (topts opts)) fuel text Hpos Hfuel)
    as [[log [gs (Hrun & Hex & _)]]|Hab]; [left|now right].
  eexists log, _, _. split; [exact Hrun|].
  rewrite (visible_chunks gs (separator_whitespaceOnly (theMode opts))).
  rewrite (expands_visible Hex). apply visible_segment.
Qed.

Lemma chunker_keeps_visible_witness :
  exists log chunks counts,
    splitTextIntoTokenChunks Examples.noEncoder (Examples.textOptions 1 None)
                             61 Examples.cutAtSpace
    = (log, inr (chunks, counts)) /\
    visible (concat chunks) = visible Examples.cutAtSpace.
Proof.
  destruct (@chunker_keeps_visible Examples.noEncoder
              (Examples.textOptions 1 None) 61%nat Examples.cutAtSpace)
    as [H|H]; [reflexivity|apply Nat.leb_le; reflexivity|exact H|].
  exfalso. revert H. apply approximate_not_aborted. left. reflexivity.
Defined.

(** *** The recorded totals add up *)

Lemma sum_totals (c : str -> Z) (gs : list (list str)) :
  fold_right Z.add 0 (List.map (total c) gs) = total c (concat gs).
Proof.
  induction gs as [|g gs IH]; [reflexivity|].
  cbn [List.map fold_right concat]. rewrite total_app, IH. reflexivity.
Qed.

(** X10.  The recorded totals of the chunks that the text chunker returns
    add up to the counts of what was packed: the units, with every unit
    over the budget replaced by its fragments; the counts of the units
    themselves when none is over the budget.  It returns, or is aborted by
    a count that failed on a piece of a unit. *)
Theorem chunk_totals_add_up (tk : Tiktoken) (opts : SplitTextOptions)
        (count : str -> Z) (fuel : nat) (text : str) :
  namesCounts tk (topts opts) count ->
  0 < maxTokens opts -> (length text <= fuel)%nat ->
  (exists log chunks counts packed,
      splitTextIntoTokenChunks tk opts fuel text
      = (log, inr (chunks, counts)) /\
      expands count (maxTokens opts) (segment (theMode opts) text) packed /\
      fold_right Z.add 0 counts = total count packed /\
      (Forall (fun u => count u <= maxTokens opts)
              (segment (theMode opts) text) ->
       fold_right Z.add 0 counts
       = total count (segment (theMode opts) text))) \/
  aborted tk (topts opts) (splitTextIntoTokenChunks tk opts fuel text)
          (pieceOf (segment (theMode opts) text)).
Proof.
  intros Hn Hpos Hfuel.
  destruct (@splitText_run tk opts count Hn fuel text Hpos Hfuel)
    as [[log [gs (Hrun & Hex & _)]]|Hab]; [left|now right].
  eexists log, _, _, (concat gs). split; [exact Hrun|].
  split; [exact Hex|]. split; [apply sum_totals|].
  intros Hall. rewrite sum_totals.
  now rewrite (expands_within_budget Hex Hall).
Qed.

Lemma chunk_totals_add_up_witness :
  exists log chunks counts,
    splitTextIntoTokenChunks Examples.noEncoder
                             (Examples.textOptions 4 (Some Sentence)) 8
                             (lit "A. B. C.")
    = (log, inr (chunks, counts)) /\
    fold_right Z.add 0 counts = 6.
Proof.
  destruct (@chunk_totals_add_up Examples.noEncoder
              (Examples.textOptions 4 (Some Sentence)) approximateTokenCount
              8%nat (lit "A. B. C."))
    as [[log [chunks [counts [packed (Hrun & _ & _ & Hsum)]]]]|Hab];
    [apply namesCounts_approximate; left; reflexivity
    |reflexivity|apply Nat.leb_le; reflexivity| |].
  - exists log, chunks, counts. split; [exact Hrun|].
    rewrite Hsum; [reflexivity|].
    repeat constructor; vm_compute; discriminate.
  - exfalso. revert Hab. apply approximate_not_aborted. left. reflexivity.
Defined.

(** *** No empty chunk *)

Lemma expands_nonempty (count : str -> Z) (budget : Z) (us xs : list str) :
  expands count budget us xs ->
  Forall (fun u => u <> []) us ->
  Forall (fun x => x <> []) xs /\ (us <> [] -> xs <> []).
Proof.
  induction 1 as [|u us xs Hu _ IH|u frs us xs Hu Hf _ IH]; intros Hall.
  - split; [constructor|intros H; now contradiction H].
  - inversion Hall; subst. destruct IH as [IH _]; [assumption|].
    split; [constructor; assumption|discriminate].
  - inversion Hall as [|? ? Hne Hus]; subst.
    destruct IH as [IH _]; [assumption|]. split.
    + apply Forall_app. split; [|assumption].
      eapply Forall_impl; [|apply (fragments_each Hf)].
      cbv beta. intros w (_ & Hw & _). exact Hw.
    + intros _ E. apply app_eq_nil in E as [E _].
      now apply (fragments_nonempty Hf).
Qed.

Lemma Forall_concat (P : str -> Prop) (gs : list (list str)) :
  Forall P (concat gs) -> Forall (Forall P) gs.
Proof.
  induction gs as [|g gs IH]; intros H; [constructor|].
  cbn [concat] in H. apply Forall_app in H as [H1 H2].
  constructor; auto.
Qed.

(** X11.  For a text that is not empty or white space only, and a positive
    budget, the text chunker returns at least one chunk and none of its
    chunks is the empty string, or it is aborted by a count that failed on
    a piece of a unit. *)
Theorem chunks_nonempty (tk : Tiktoken) (opts : SplitTextOptions)
        (fuel : nat) (text : str) :
  0 < maxTokens opts -> (length text <= fuel)%nat ->
  ~ whitespaceOnly text ->
  (exists log chunks counts,
      splitTextIntoTokenChunks tk opts fuel text
      = (log, inr (chunks, counts)) /\
      chunks <> [] /\ Forall (fun c => c <> []) chunks) \/
  aborted tk (topts opts) (splitTextIntoTokenChunks tk opts fuel text)
          (pieceOf (segment (theMode opts) text)).
Proof.
  intros Hpos Hfuel Hnb.
  destruct (@splitText_run tk opts (countOr0 tk (topts opts))
              (namesCounts_countOr0 tk (topts opts)) fuel text Hpos Hfuel)
    as [[log [gs (Hrun & Hex & Hok)]]|Hab]; [left|now right].
  pose proof (@units_nonempty (theMode opts) text) as Hne.
  specialize (Hne Hnb).
  assert (Hunits : segment (theMode opts) text <> []).
  { rewrite segment_orWholeText.
    destruct (partsOf (theMode opts) text); discriminate. }
  destruct (expands_nonempty Hex Hne) as [Hxs Hxne].
  specialize (Hxne Hunits). apply Forall_concat in Hxs.
  eexists log, _, _. split; [exact Hrun|]. split.
  - destruct gs; [now contradiction Hxne|discriminate].
  - apply Forall_map. rewrite Forall_forall in *.
    intros g Hg. destruct (Hok g Hg) as [Hgne _]. specialize (Hxs g Hg).
    destruct g as [|x g]; [contradiction|].
    inversion Hxs; subst. apply join_nonempty. assumption.
Qed.

Lemma chunks_nonempty_witness :
  exists log chunks counts,
    splitTextIntoTokenChunks Examples.noEncoder (Examples.textOptions 1 None)
                             61 Examples.cutAtSpace
    = (log, inr (chunks, counts)) /\
    chunks <> [] /\ Forall (fun c => c <> []) chunks.
Proof.
  destruct (@chunks_nonempty Examples.noEncoder (Examples.textOptions 1 None)
              61%nat Examples.cutAtSpace)
    as [H|H]; [reflexivity|apply Nat.leb_le; reflexivity| |exact H|].
  - intros H. inversion H as [|c r Hc Hr]; subst. discriminate Hc.
  - exfalso. revert H. apply approximate_not_aborted. left. reflexivity.
Defined.

(** *** The approximate counter and budgets from 22 *)

(** X12.  Under the approximate counter (forced, or for want of an encoder)
    and a budget of at least 22, every chunk is recorded within the budget:
    a hard-split fragment of fifty code units never counts more than 22. *)
Theorem approximate_budget_always_kept (tk : Tiktoken)
        (opts : SplitTextOptions) (fuel : nat) (text : str) :
  approximate opts = Some true \/ tk (SplitText.model opts) = None ->
  22 <= maxTokens opts -> (length text <= fuel)%nat ->
  exists log chunks counts,
    splitTextIntoTokenChunks tk opts fuel text = (log, inr (chunks, counts)) /\
    length chunks = length counts /\
    Forall (fun t => t <= maxTokens opts) counts.
Proof.
  intros Happ Hb Hfuel.
  destruct (@splitText_run tk opts approximateTokenCount
              (namesCounts_approximate tk (topts opts) Happ) fuel text
              ltac:(lia) Hfuel)
    as [[log [gs (Hrun & _ & Hok)]]|Hab];
    [|exfalso; revert Hab; now apply approximate_not_aborted].
  eexists log, _, _. split; [exact Hrun|].
  split; [now rewrite !length_map|].
  apply Forall_map. eapply Forall_impl; [|exact Hok].
  intros g [_ [H|(w & u & -> & Hw & Hl & _)]]; [exact H|].
  rewrite total_single in *.
  pose proof (approximate_fifty w Hl). lia.
Qed.

Lemma approximate_budget_always_kept_witness :
  exists log chunks counts,
    splitTextIntoTokenChunks Examples.noEncoder (Examples.textOptions 22 None)
                             200 (repeat 46%N 200)
    = (log, inr (chunks, counts)) /\
    length chunks = length counts /\
    Forall (fun t => t <= 22) counts.
Proof.
  apply (@approximate_budget_always_kept Examples.noEncoder
           (Examples.textOptions 22 None) 200%nat (repeat 46%N 200));
    [left; reflexivity|apply Z.leb_le; reflexivity
    |apply Nat.leb_le; reflexivity].
Defined.

End ChunkFacts.

(** * Greedy packing of the units *)

Module GreedyFacts.
Import SplitText HardSplitSpec PackingSpec Invariants.
Import HardSplitFacts SplitTextFacts Greedy.

Section Closed.

Variable count : str -> Z.
Variable budget : Z.

Lemma closedWhenFull_one (g : list str) : closedWhenFull count budget [g].
Proof.
  intros a x y b E. apply (f_equal (@length _)) in E.
  rewrite length_app in E. cbn [length] in E. lia.
Qed.

Lemma closedWhenFull_nil : closedWhenFull count budget [].
Proof.
  intros a x y b E. apply (f_equal (@length _)) in E.
  rewrite length_app in E. cbn [length] in E. lia.
Qed.

Lemma closedWhenFull_snoc (gs : list (list str)) (g : list str) (u : str)
      (h' : list str) :
  closedWhenFull count budget (gs ++ [g]) ->
  total count g + count u > budget ->
  closedWhenFull count budget ((gs ++ [g]) ++ [u :: h']).
Proof.
  intros H Hu a x y b E.
  destruct (@exists_last _ (x :: y :: b) ltac:(discriminate)) as [l [z El]].
  destruct b as [|b0 b].
  - change (a ++ [x; y]) with (a ++ [x] ++ [y]) in E.
    rewrite app_assoc in E. apply app_inj_tail in E as [E <-].
    apply app_inj_tail in E as [_ <-]. now exists u, h'.
  - destruct (@exists_last _ (b0 :: b) ltac:(discriminate)) as [b' [z' Eb]].
    rewrite Eb in E.
    change (a ++ x :: y :: b' ++ [z']) with (a ++ (x :: y :: b') ++ [z']) in E.
    rewrite app_assoc in E. apply app_inj_tail in E as [E _].
    exact (H a x y b' E).
Qed.

Lemma closedWhenFull_grow (gs : list (list str)) (cur : list str) (u : str) :
  closedWhenFull count budget (gs ++ [cur]) ->
  closedWhenFull count budget (gs ++ [cur ++ [u]]).
Proof.
  intros H a x y b E. destruct b as [|b0 b].
  - change (a ++ [x; y]) with (a ++ [x] ++ [y]) in E.
    rewrite app_assoc in E. apply app_inj_tail in E as [-> <-].
    destruct (H a x cur []) as [u0 [h' [-> Hx]]];
      [now rewrite <- app_assoc|].
    exists u0, (h' ++ [u]). split; [reflexivity|assumption].
  - destruct (@exists_last _ (b0 :: b) ltac:(discriminate)) as [b' [z' Eb]].
    rewrite Eb in E.
    change (a ++ x :: y :: b' ++ [z']) with (a ++ (x :: y :: b') ++ [z']) in E.
    rewrite app_assoc in E. apply app_inj_tail in E as [-> _].
    apply (H a x y (b' ++ [cur])). now rewrite <- app_assoc.
Qed.

End Closed.

Section Packing.

Variable tk : Tiktoken.
Variable opts : SplitTextOptions.
Variable count : str -> Z.

Abbreviation budget := (maxTokens opts).
Abbreviation sep := (separator (theMode opts)).

(** One iteration on a unit that is counted within the budget: it is
    counted once and the hard-split loop is not entered. *)
Lemma packUnit_greedy (fuel : nat) (done : list str) (st : PackState)
      (gs : list (list str)) (u : str) :
  greedyInv count opts done st gs ->
  tokenCount tk (topts opts) u = Some (count u) ->
  count u <= budget ->
  exists st' gs',
    packUnit tk opts fuel st u = ([EvCount u], inr st') /\
    greedyInv count opts (done ++ [u]) st' gs'.
Proof.
  intros (Hc & Ht & Hcur & Hdone & Hg & Hnil) Hn Hu.
  unfold packUnit.
  assert (Cu : (count u >? budget) = false)
    by (rewrite Z.gtb_ltb; apply Z.ltb_ge; lia).
  destruct (currentTokens st + count u >? budget) eqn:Cs.
  - apply Z.gtb_lt in Cs.
    eexists _, (flushedGroups st gs). split.
    + eapply bind_countTokens; [exact Hn|]. rewrite Cu.
      assert (Cs' : (currentTokens st + count u >? budget) = true)
        by (apply Z.gtb_lt; lia).
      rewrite Cs'. reflexivity.
    + unfold greedyInv, flushIfAny, flushedGroups in *.
      destruct (current st) as [|x cur] eqn:E.
      * rewrite (Hnil eq_refl) in *.
        cbn [chunks tokenCounts current currentTokens].
        rewrite total_single. cbn [concat app] in *. subst done.
        repeat split; try assumption; try reflexivity.
        apply closedWhenFull_one.
      * unfold pushCurrent.
        cbn [chunks tokenCounts current currentTokens].
        rewrite !map_app, Hc, Ht, Hcur, E, total_single, concat_app.
        cbn [List.map concat]. rewrite app_nil_r, Hdone.
        repeat split; try reflexivity; try discriminate.
        apply closedWhenFull_snoc; [assumption|]. rewrite <- Hcur. lia.
  - rewrite Z.gtb_ltb in Cs. apply Z.ltb_ge in Cs.
    eexists _, gs. split.
    + eapply bind_countTokens; [exact Hn|]. rewrite Cu.
      assert (Cs' : (currentTokens st + count u >? budget) = false)
        by (rewrite Z.gtb_ltb; apply Z.ltb_ge; lia).
      rewrite Cs'. reflexivity.
    + unfold greedyInv, flushedGroups in *.
      cbn [chunks tokenCounts current currentTokens].
      rewrite total_app, total_single, app_assoc, Hdone, Hcur.
      repeat split; try assumption; try reflexivity.
      * destruct (current st) as [|x cur] eqn:E.
        -- rewrite (Hnil eq_refl). apply closedWhenFull_one.
        -- cbn [app]. change (x :: cur ++ [u]) with ((x :: cur) ++ [u]).
           now apply closedWhenFull_grow.
      * intros C. apply app_eq_nil in C as [_ C]. discriminate C.
Qed.

Lemma packUnits_greedy (fuel : nat) :
  forall (us done : list str) (st : PackState) (gs : list (list str)),
    greedyInv count opts done st gs ->
    Forall (fun u => tokenCount tk (topts opts) u = Some (count u) /\
                     count u <= budget) us ->
    exists st' gs',
      packUnits tk opts fuel us st = (List.map EvCount us, inr st') /\
      greedyInv count opts (done ++ us) st' gs'.
Proof.
  induction us as [|u us IH]; intros done st gs Hinv Hall.
  - exists st, gs. rewrite app_nil_r. split; [reflexivity|assumption].
  - inversion Hall as [|? ? [Hn Hu] Hus]; subst.
    destruct (@packUnit_greedy fuel done st gs u Hinv Hn Hu)
      as [st1 [gs1 [Hrun1 Hinv1]]].
    destruct (IH (done ++ [u]) st1 gs1 Hinv1 Hus)
      as [st2 [gs2 [Hrun2 Hinv2]]].
    exists st2, gs2. split.
    + cbn [packUnits List.map].
      change (EvCount u :: List.map EvCount us)
        with ([EvCount u] ++ List.map EvCount us).
      eapply bind_inr; eassumption.
    + rewrite <- app_assoc in Hinv2. exact Hinv2.
Qed.

(** X13.  When every unit is counted, and counts no more than the budget,
    the text chunker packs greedily and needs no step of its inner loops:
    every unit is counted exactly once, the chunks are the joined groups of
    a grouping of the units, each recorded with the sum of its counts, and
    every group but the last is closed only because the next unit would
    not fit. *)
Theorem chunks_are_packed_greedily (fuel : nat) (text : str) :
  0 < budget ->
  Forall (fun u => tokenCount tk (topts opts) u = Some (count u) /\
                   count u <= budget)
         (segment (theMode opts) text) ->
  exists groups,
    splitTextIntoTokenChunks tk opts fuel text
    = (List.map EvCount (segment (theMode opts) text),
       inr (List.map (join sep) groups, List.map (total count) groups)) /\
    concat groups = segment (theMode opts) text /\
    closedWhenFull count budget groups.
Proof.
  intros Hpos Hall. unfold splitTextIntoTokenChunks.
  destruct (budget <=? 0) eqn:E; [apply Z.leb_le in E; lia|].
  assert (Hinit : greedyInv count opts [] initial []).
  { unfold greedyInv, initial, flushedGroups. cbn.
    repeat split; try reflexivity. apply closedWhenFull_nil. }
  destruct (@packUnits_greedy fuel (segment (theMode opts) text) []
              initial [] Hinit Hall)
    as [st [gs [Hrun (Hc & Ht & Hcur & Hdone & Hg & Hnil)]]].
  exists (flushedGroups st gs). split; [|split].
  - rewrite <- (app_nil_r (List.map EvCount _)).
    eapply bind_inr; [exact Hrun|].
    unfold ret, flushIfAny, flushedGroups.
    destruct (current st) eqn:Ec; [now rewrite Hc, Ht|].
    unfold pushCurrent. cbn [chunks tokenCounts].
    now rewrite !map_app, Hc, Ht, Hcur, Ec.
  - rewrite flushedGroups_concat. exact Hdone.
  - exact Hg.
Qed.

End Packing.

Lemma chunks_are_packed_greedily_witness :
  exists groups,
    splitTextIntoTokenChunks Examples.noEncoder
                             (Examples.textOptions 4 (Some Sentence)) 0
                             (lit "A. B. C.")
    = (List.map EvCount [lit "A."; lit "B."; lit "C."],
       inr (List.map (join [LF; LF]) groups,
            List.map (total approximateTokenCount) groups)) /\
    concat groups = [lit "A."; lit "B."; lit "C."] /\
    closedWhenFull approximateTokenCount 4 groups.
Proof.
  apply (@chunks_are_packed_greedily Examples.noEncoder
           (Examples.textOptions 4 (Some Sentence)) approximateTokenCount
           0%nat (lit "A. B. C."));
    [reflexivity
    |repeat constructor; try reflexivity; vm_compute; discriminate].
Defined.

End GreedyFacts.

(** * The row packer: blank lines, guards, part numbers *)

Module RowFacts.
Import SplitCsv PackingSpec Invariants SplitTextFacts SplitCsvFacts.
Import PartNumbers.

Section Packing.

Variable tk : Tiktoken.
Variable basename : str -> str -> str.
Variable extname : str -> str.
Variable pathJoin : str -> str -> str.
Variable opts : SplitCsvOptions.

Abbreviation budget := (maxTokens opts).
Abbreviation flush := (flushPart basename extname pathJoin opts).
Abbreviation step := (processLine tk basename extname pathJoin opts).
Abbreviation loop := (processLines tk basename extname pathJoin opts).
Abbreviation pathOf := (partPath basename extname pathJoin opts).

Lemma processLines_skips_blank (lines : list str) :
  forall st : CsvState, loop lines st = loop (filter nonBlank lines) st.
Proof.
  induction lines as [|line lines IH]; intros st; [reflexivity|].
  cbn [filter]. destruct (nonBlank line) eqn:Hnb.
  - cbn [processLines]. destruct (step st line) as [l [e|st']];
      cbn [bind]; [reflexivity|]. now rewrite IH.
  - cbn [processLines]. rewrite (processLine_blank _ _ _ _ _ st line Hnb).
    rewrite bind_ret. apply IH.
Qed.

(** X14.  Blank lines never matter to the row packer: on an input and on
    the same input without its blank lines it performs the same events and
    ends with the same outcome, whatever the options. *)
Theorem blank_lines_are_ignored (fsys1 fsys2 : FileSystem)
        (lines : list str) :
  fsys1 (inputPath opts) = Some lines ->
  fsys2 (inputPath opts) = Some (filter nonBlank lines) ->
  splitCsvByTokens tk fsys1 basename extname pathJoin opts
  = splitCsvByTokens tk fsys2 basename extname pathJoin opts.
Proof.
  intros H1 H2.
  destruct (Z_lt_le_dec 0 budget) as [Hpos|Hneg].
  - assert (Hml : assumeNoMultilineFields opts = Some false \/
                  assumeNoMultilineFields opts <> Some false).
    { destruct (assumeNoMultilineFields opts) as [[|]|];
        [right; discriminate|now left|right; discriminate]. }
    destruct Hml as [Hml|Hml].
    + unfold splitCsvByTokens, existsSync. rewrite H1, H2, Hml.
      destruct (budget <=? 0); reflexivity.
    + rewrite (@splitCsvByTokens_guards tk fsys1 basename extname pathJoin
                 opts lines H1 Hpos Hml).
      rewrite (@splitCsvByTokens_guards tk fsys2 basename extname pathJoin
                 opts _ H2 Hpos Hml).
      now rewrite processLines_skips_blank.
  - unfold splitCsvByTokens, existsSync. rewrite H1, H2.
    apply Z.leb_le in Hneg. cbn. rewrite Hneg. reflexivity.
Qed.

(** X15.  A request for multiline fields is rejected after the output
    directory was made: the input exists and the budget is positive, so both
    earlier guards pass, and nothing is opened, counted or written. *)
Theorem multiline_request_rejected (fsys : FileSystem) (lines : list str) :
  fsys (inputPath opts) = Some lines ->
  0 < budget ->
  assumeNoMultilineFields opts = Some false ->
  splitCsvByTokens tk fsys basename extname pathJoin opts
  = ([EvExists (inputPath opts); EvMkdir (outDir opts)],
     inl UnsupportedModeError).
Proof.
  intros Hfs Hpos Hml. unfold splitCsvByTokens, existsSync.
  rewrite Hfs, Hml.
  destruct (budget <=? 0) eqn:E; [apply Z.leb_le in E; lia|]. reflexivity.
Qed.

(** *** Part numbers *)

Abbreviation numbered := (numberedPaths basename extname pathJoin opts).
Abbreviation counted := (PartNumbers.counted basename extname pathJoin opts).

Lemma numbered_succ (n : nat) :
  numbered (S n) = numbered n ++ [pathOf (Z.of_nat (S n))].
Proof.
  unfold numberedPaths. rewrite seq_S, map_app. reflexivity.
Qed.

Lemma flushPart_counted (st st' : CsvState) (log : list event) :
  flush st = (log, inr st') -> counted st -> counted st'.
Proof.
  unfold flushPart. intros H [Hp Hpaths].
  destruct (header st) as [[|c h]|]; try discriminate H.
  destruct (currentLines st).
  - injection H as _ <-. now split.
  - injection H as _ <-. unfold PartNumbers.counted.
    cbn [part partPaths]. split; [lia|].
    replace (Z.to_nat (part st + 1)) with (S (Z.to_nat (part st))) by lia.
    rewrite numbered_succ, Hpaths. do 3 f_equal. lia.
Qed.

Lemma processLine_counted (st st' : CsvState) (line : str)
      (log : list event) :
  step st line = (log, inr st') -> counted st -> counted st'.
Proof.
  unfold processLine. intros H Hc.
  destruct (strlen (trim line) =? 0).
  { injection H as _ <-. exact Hc. }
  destruct (header st) as [[|c h]|] eqn:Hh;
    try (injection H as _ <-; exact Hc).
  apply bind_inr_inv in H as (l1 & n & l2 & _ & H & _).
  destruct (n >? budget).
  - apply bind_inr_inv in H as (l3 & st1 & l4 & H1 & H2 & _).
    apply flushPart_counted in H1; [|exact Hc].
    apply flushPart_counted in H2; [exact H2|exact H1].
  - apply bind_inr_inv in H as (l3 & st1 & l4 & H1 & H2 & _).
    injection H2 as _ <-.
    assert (Hst1 : counted st1).
    { destruct (currentTokens st + n >? budget).
      - eapply flushPart_counted; eassumption.
      - injection H1 as _ <-. exact Hc. }
    exact Hst1.
Qed.

Lemma processLines_counted (lines : list str) :
  forall (st st' : CsvState) (log : list event),
    loop lines st = (log, inr st') -> counted st -> counted st'.
Proof.
  induction lines as [|line lines IH]; intros st st' log H Hc.
  - injection H as _ <-. exact Hc.
  - cbn [processLines] in H.
    apply bind_inr_inv in H as (l1 & st1 & l2 & H1 & H2 & _).
    apply (IH _ _ _ H2). eapply processLine_counted; eassumption.
Qed.

(** X16.  When the input exists, the budget is positive, multiline
    handling is not requested, there is a header and the count of no row
    fails, the row packer returns and the parts are numbered 1, 2, ...
    without a gap: the paths it returns and writes to, in order, are those
    of the part numbers from 1 to the number of parts it returns. *)
Theorem parts_are_numbered_from_one (fsys : FileSystem) (lines : list str)
        (h : str) (rows : list str) :
  fsys (inputPath opts) = Some lines ->
  0 < budget ->
  assumeNoMultilineFields opts <> Some false ->
  filter nonBlank lines = h :: rows ->
  Forall (fun row => ~ Counting.rowFails tk opts row) rows ->
  exists log n,
    splitCsvByTokens tk fsys basename extname pathJoin opts
    = (log, inr (Z.of_nat n, numbered n)) /\
    List.map fst (writes log) = numbered n.
Proof.
  intros Hfs Hpos Hml Hf Hok.
  destruct (@splitCsv_run tk fsys basename extname pathJoin opts
              (Counting.countOr0 tk (topts opts))
              (namesCounts_countOr0 tk (topts opts)) lines h rows
              Hfs Hpos Hml Hf)
    as [log [gs (_ & _ & [[paths (Hrun & Hpaths & _)]
                         |[_ [held [row [after [Hc Hfail]]]]]])]].
  2:{ exfalso. rewrite Forall_forall in Hok. apply (Hok row); [|exact Hfail].
      rewrite Hc. apply in_or_app. right. apply in_or_app. right. now left. }
  assert (Hn : paths = numbered (length gs)).
  { pose proof Hrun as Hrun'.
    rewrite (@splitCsvByTokens_guards tk fsys basename extname pathJoin opts
               lines Hfs Hpos Hml) in Hrun'.
    apply bind_inr_inv in Hrun' as (? & ? & ? & _ & Hrun' & _).
    apply bind_inr_inv in Hrun' as (? & ? & ? & _ & Hrun' & _).
    apply bind_inr_inv in Hrun' as (? & ? & ? & _ & Hrun' & _).
    apply bind_inr_inv in Hrun' as (? & st1 & ? & Hloop & Hrun' & _).
    apply bind_inr_inv in Hrun' as (? & st2 & ? & Hflush & Hret & _).
    injection Hret as _ Hpart Hp.
    assert (Hc : counted st2).
    { eapply flushPart_counted; [exact Hflush|].
      eapply processLines_counted; [exact Hloop|].
      split; [cbn; lia|reflexivity]. }
    destruct Hc as [_ Hc]. rewrite <- Hp, Hc, Hpart, Nat2Z.id. reflexivity. }
  exists log, (length gs). rewrite <- Hn. split; assumption.
Qed.

End Packing.

Lemma parts_are_numbered_from_one_witness :
  exists log n,
    splitCsvByTokens Examples.noEncoder (Examples.oneFile Examples.fiveRows)
                     Examples.basename Examples.extname Examples.pathJoin
                     (Examples.csvOptions 25 None)
    = (log, inr (Z.of_nat n,
                 numberedPaths Examples.basename Examples.extname
                               Examples.pathJoin (Examples.csvOptions 25 None)
                               n)) /\
    List.map fst (writes log)
    = numberedPaths Examples.basename Examples.extname Examples.pathJoin
                    (Examples.csvOptions 25 None) n.
Proof.
  apply (@parts_are_numbered_from_one Examples.noEncoder Examples.basename
           Examples.extname Examples.pathJoin (Examples.csvOptions 25 None)
           (Examples.oneFile Examples.fiveRows) Examples.fiveRows
           (lit "a,b") (repeat (repeat 120%N 40) 5));
    [reflexivity|reflexivity|discriminate|reflexivity|].
  repeat constructor; discriminate.
Defined.

Lemma blank_lines_are_ignored_witness :
  splitCsvByTokens Examples.noEncoder (Examples.oneFile Examples.fiveRows)
                   Examples.basename Examples.extname Examples.pathJoin
                   (Examples.csvOptions 25 None)
  = splitCsvByTokens Examples.noEncoder
                     (Examples.oneFile (filter nonBlank Examples.fiveRows))
                     Examples.basename Examples.extname Examples.pathJoin
                     (Examples.csvOptions 25 None).
Proof.
  apply (@blank_lines_are_ignored Examples.noEncoder Examples.basename
           Examples.extname Examples.pathJoin (Examples.csvOptions 25 None)
           (Examples.oneFile Examples.fiveRows)
           (Examples.oneFile (filter nonBlank Examples.fiveRows))
           Examples.fiveRows); reflexivity.
Defined.

Lemma multiline_request_rejected_witness :
  let opts :=
    {| inputPath := lit "mail.csv"; outDir := lit "out"; maxTokens := 25;
       model := None; approximate := Some true; tokenMode := None;
       delimiter := None; quote := None;
       assumeNoMultilineFields := Some false |} in
  splitCsvByTokens Examples.noEncoder (Examples.oneFile Examples.fiveRows)
                   Examples.basename Examples.extname Examples.pathJoin opts
  = ([EvExists (lit "mail.csv"); EvMkdir (lit "out")],
     inl UnsupportedModeError).
Proof.
  intros opts.
  apply (@multiline_request_rejected Examples.noEncoder Examples.basename
           Examples.extname Examples.pathJoin opts
           (Examples.oneFile Examples.fiveRows) Examples.fiveRows);
    reflexivity.
Defined.

End RowFacts.

(** * parseCsvLine *)

Module ParseFacts.
Import SplitCsv CsvQuoting.

Lemma str_eqb_refl (s : str) : str_eqb s s = true.
Proof. unfold str_eqb. destruct (list_eq_dec N.eq_dec s s); congruence. Qed.

Lemma str_eqb_true (a b : str) : str_eqb a b = true -> a = b.
Proof.
  unfold str_eqb. destruct (list_eq_dec N.eq_dec a b); [auto|discriminate].
Qed.

Lemma str_eqb_single (c q : char) : c <> q -> str_eqb [c] [q] = false.
Proof.
  intros H. unfold str_eqb.
  destruct (list_eq_dec N.eq_dec [c] [q]) as [E|_]; [|reflexivity].
  injection E as E. contradiction.
Qed.

Lemma join_snoc (sep y : str) (xs : list str) :
  xs <> [] -> join sep (xs ++ [y]) = join sep xs ++ sep ++ y.
Proof.
  induction xs as [|x xs IH]; intros H; [contradiction|].
  destruct xs as [|x' xs].
  - reflexivity.
  - change ((x :: x' :: xs) ++ [y]) with (x :: (x' :: xs) ++ [y]).
    change (join sep (x :: (x' :: xs) ++ [y]))
      with (x ++ sep ++ join sep ((x' :: xs) ++ [y])).
    rewrite IH by discriminate.
    change (join sep (x :: x' :: xs)) with (x ++ sep ++ join sep (x' :: xs)).
    now rewrite <- !app_assoc.
Qed.

Lemma join_last_app (sep cur tail_ : str) (xs : list str) :
  join sep (xs ++ [cur ++ tail_]) = join sep (xs ++ [cur]) ++ tail_.
Proof.
  destruct xs as [|x xs].
  - reflexivity.
  - rewrite !join_snoc by discriminate. now rewrite <- !app_assoc.
Qed.

(** Outside quotes and without a quote ahead, the loop only cuts at the
    delimiter. *)
Lemma parseCells_plain (delimiter_ quote_ : str) (line : str) :
  quoteFree quote_ line ->
  forall (cells : list str) (cur : str),
    join delimiter_ (parseCells delimiter_ quote_ cells cur false line)
    = join delimiter_ (cells ++ [cur]) ++ line.
Proof.
  induction 1 as [|ch rest Hch _ IH]; intros cells cur.
  - cbn [parseCells]. now rewrite app_nil_r.
  - cbn [parseCells]. rewrite Hch. cbn [negb andb].
    destruct (str_eqb [ch] delimiter_) eqn:Ed.
    + apply str_eqb_true in Ed. subst delimiter_.
      rewrite IH, join_snoc by (destruct cells; discriminate).
      now rewrite app_nil_r, <- !app_assoc.
    + rewrite IH, join_last_app. now rewrite <- app_assoc.
Qed.

(** Every cut is at a delimiter: no cell holds one. *)
Lemma parseCells_plain_cells (d : char) (quote_ : str) (line : str) :
  quoteFree quote_ line ->
  forall (cells : list str) (cur : str),
    Forall (fun cell => ~ In d cell) cells -> ~ In d cur ->
    Forall (fun cell => ~ In d cell)
           (parseCells [d] quote_ cells cur false line).
Proof.
  induction 1 as [|ch rest Hch _ IH]; intros cells cur Hcells Hcur.
  - cbn [parseCells]. apply Forall_app. split; [assumption|].
    constructor; [assumption|constructor].
  - cbn [parseCells]. rewrite Hch. cbn [negb andb].
    destruct (str_eqb [ch] [d]) eqn:Ed.
    + apply IH; [|intros []].
      apply Forall_app. split; [assumption|].
      constructor; [assumption|constructor].
    + apply IH; [assumption|].
      intros Hin. apply in_app_or in Hin as [Hin|[Hin|[]]];
        [now apply Hcur|].
      subst ch. rewrite str_eqb_refl in Ed. discriminate Ed.
Qed.

(** A delimiter that is not one code unit never matches: [ch] is one. *)
Lemma parseCells_no_cut (delimiter_ quote_ : str) (line : str) :
  (forall d, delimiter_ <> [d]) ->
  quoteFree quote_ line ->
  forall (cells : list str) (cur : str),
    parseCells delimiter_ quote_ cells cur false line
    = cells ++ [cur ++ line].
Proof.
  intros Hd. induction 1 as [|ch rest Hch _ IH]; intros cells cur.
  - cbn [parseCells]. now rewrite app_nil_r.
  - cbn [parseCells]. rewrite Hch. cbn [negb andb].
    destruct (str_eqb [ch] delimiter_) eqn:Ed.
    + apply str_eqb_true in Ed. symmetry in Ed. now apply Hd in Ed.
    + rewrite IH, <- app_assoc. reflexivity.
Qed.

(** X17.  A line without a quote is cut at its delimiters and nowhere
    else: joining the cells with the delimiter gives the line back; when
    the delimiter is one code unit no cell holds it; when it is not, the
    line is never cut and is the one cell. *)
Theorem plain_line_round_trip (line delimiter_ quote_ : str) :
  quoteFree quote_ line ->
  join delimiter_ (parseCsvLine line delimiter_ quote_) = line /\
  (forall d, delimiter_ = [d] ->
     Forall (fun cell => ~ In d cell) (parseCsvLine line delimiter_ quote_)) /\
  ((forall d, delimiter_ <> [d]) ->
   parseCsvLine line delimiter_ quote_ = [line]).
Proof.
  intros H. unfold parseCsvLine. split; [|split].
  - now rewrite (parseCells_plain delimiter_ H).
  - intros d ->. apply (parseCells_plain_cells d H); [constructor|intros []].
  - intros Hd. now rewrite (parseCells_no_cut Hd H).
Qed.

Lemma plain_line_round_trip_witness :
  join (lit ",") (parseCsvLine (lit "a,,b c,") (lit ",") [Examples.dq])
  = lit "a,,b c," /\
  Forall (fun cell => ~ In 44%N cell)
         (parseCsvLine (lit "a,,b c,") (lit ",") [Examples.dq]).
Proof.
  destruct (@plain_line_round_trip (lit "a,,b c,") (lit ",") [Examples.dq])
    as (Hjoin & Hcells & _); [repeat constructor|].
  split; [exact Hjoin|]. now apply Hcells.
Defined.

(** Inside quotes the loop reads up to the closing quote, taking a doubled
    quote for one. *)
Lemma parseCells_quoted (d q : char) (cell : str) :
  d <> q ->
  forall (rest : str) (cells : list str) (cur : str),
    rest = [] \/ (exists r, rest = d :: r) ->
    parseCells [d] [q] cells cur true (escapeQuotes q cell ++ q :: rest)
    = parseCells [d] [q] cells (cur ++ cell) false rest.
Proof.
  intros Hdq. induction cell as [|x cell IH]; intros rest cells cur Hrest.
  - cbn [escapeQuotes flat_map app]. rewrite app_nil_r.
    cbn [parseCells]. rewrite str_eqb_refl.
    destruct Hrest as [->|[r ->]]; [reflexivity|].
    rewrite (str_eqb_single Hdq). reflexivity.
  - unfold escapeQuotes in *. cbn [flat_map].
    destruct (x =? q)%N eqn:E.
    + apply N.eqb_eq in E. subst x. cbn [app parseCells].
      rewrite str_eqb_refl. cbn [andb].
      rewrite (IH rest cells (cur ++ [q]) Hrest).
      now rewrite <- app_assoc.
    + apply N.eqb_neq in E. cbn [app parseCells].
      rewrite (str_eqb_single E). cbn [negb andb].
      rewrite (IH rest cells (cur ++ [x]) Hrest).
      now rewrite <- app_assoc.
Qed.

Lemma parseCells_quoteCell (d q : char) (cell : str) :
  d <> q ->
  forall (rest : str) (cells : list str),
    rest = [] \/ (exists r, rest = d :: r) ->
    parseCells [d] [q] cells [] false (quoteCell q cell ++ rest)
    = parseCells [d] [q] cells cell false rest.
Proof.
  intros Hdq rest cells Hrest. unfold quoteCell.
  rewrite <- !app_assoc. cbn [app].
  assert (E : parseCells [d] [q] cells [] false
                (q :: escapeQuotes q cell ++ q :: rest)
              = parseCells [d] [q] cells [] true
                  (escapeQuotes q cell ++ q :: rest)).
  { cbn [parseCells]. rewrite str_eqb_refl. cbn [andb negb].
    destruct (escapeQuotes q cell ++ q :: rest); reflexivity. }
  rewrite E. now apply parseCells_quoted.
Qed.

Lemma parseCells_quoteRow (d q : char) (row : list str) :
  d <> q -> row <> [] ->
  forall cells : list str,
    parseCells [d] [q] cells [] false (quoteRow d q row) = cells ++ row.
Proof.
  intros Hdq. unfold quoteRow.
  induction row as [|cell row IH]; intros Hne cells; [contradiction|].
  destruct row as [|cell' row].
  - cbn [List.map join]. rewrite <- (app_nil_r (quoteCell q cell)).
    rewrite parseCells_quoteCell by auto. reflexivity.
  - cbn [List.map]. rewrite join_cons_cons. cbn [app].
    rewrite parseCells_quoteCell by (auto; right; eauto).
    cbn [parseCells]. rewrite (str_eqb_single Hdq), str_eqb_refl.
    cbn [negb andb]. cbn [List.map] in IH.
    rewrite IH by discriminate. now rewrite <- app_assoc.
Qed.

(** X18.  parseCsvLine undoes the usual quoting: when every cell is put
    between quotes with the quotes inside it doubled, and the cells are
    joined by the delimiter, the line parses back to the cells, also when a
    cell is empty or holds delimiters and quotes. *)
Theorem quoted_row_round_trip (d q : char) (row : list str) :
  d <> q -> row <> [] ->
  parseCsvLine (quoteRow d q row) [d] [q] = row.
Proof.
  intros Hdq Hne. unfold parseCsvLine.
  now rewrite parseCells_quoteRow.
Qed.

Lemma quoted_row_round_trip_witness :
  parseCsvLine
    (quoteRow 44%N Examples.dq
              [lit "a, b"; []; lit "say " ++ [Examples.dq] ++ lit "hi"])
    (lit ",") [Examples.dq]
  = [lit "a, b"; []; lit "say " ++ [Examples.dq] ++ lit "hi"].
Proof.
  apply (@quoted_row_round_trip 44%N Examples.dq
           [lit "a, b"; []; lit "say " ++ [Examples.dq] ++ lit "hi"]);
    discriminate.
Defined.

End ParseFacts.

(** * The cached encoder *)

Module CacheFacts.
Import TokenizerCache CacheExamples.

Lemma initTiktoken_cached (pkg : option Package) (hint : option str)
      (e : Encoder) :
  initTiktoken pkg hint (Some e) = Some e.
Proof. reflexivity. Qed.

(** A cache is of the operation when it is empty or holds what the model
    hint of the operation resolves to. *)
Lemma countTokens_resolved (pkg : option Package) (opts : TokenizerOptions)
      (text : str) (cache : Cache) :
  cache = None \/ cache = resolve pkg (model opts) ->
  fst (TokenizerCache.countTokens pkg text opts cache)
  = tokenCount (resolve pkg) opts text /\
  (snd (TokenizerCache.countTokens pkg text opts cache) = None \/
   snd (TokenizerCache.countTokens pkg text opts cache)
   = resolve pkg (model opts)).
Proof.
  intros Hc. unfold TokenizerCache.countTokens, tokenCount.
  assert (Hinit : initTiktoken pkg (model opts) cache
                  = resolve pkg (model opts)).
  { destruct Hc as [-> | ->]; [reflexivity|].
    unfold resolve.
    destruct (initTiktoken pkg (model opts) None) eqn:E; [reflexivity|exact E]. }
  destruct (approximate opts) as [[|]|]; cbn [fst snd];
    try (split; [reflexivity|exact Hc]);
    rewrite Hinit; destruct (resolve pkg (model opts)) eqn:E; cbn [fst snd];
    (split; [reflexivity|auto]).
Qed.

(** X19.  Within one operation the cache changes no outcome: of the calls
    made one after the other with the same options, from an empty cache,
    each has the outcome that the encoder resolved for the model hint
    gives, its count or its failure, or returns the approximate count when
    it is forced or no encoder is found. *)
Theorem counts_of_one_operation (pkg : option Package)
        (opts : TokenizerOptions) (texts : list str) :
  fst (countEach pkg opts texts None)
  = List.map (tokenCount (resolve pkg) opts) texts.
Proof.
  enough (H : forall cache,
             cache = None \/ cache = resolve pkg (model opts) ->
             fst (countEach pkg opts texts cache)
             = List.map (tokenCount (resolve pkg) opts) texts)
    by (apply H; now left).
  induction texts as [|text rest IH]; intros cache Hc; [reflexivity|].
  cbn [countEach List.map].
  destruct (countTokens_resolved pkg opts text Hc) as [Hn Hc'].
  destruct (TokenizerCache.countTokens pkg text opts cache) as [n cache'].
  cbn [fst snd] in Hn, Hc'. specialize (IH cache' Hc').
  destruct (countEach pkg opts rest cache') as [ns cache''].
  cbn [fst] in *. now rewrite Hn, IH.
Qed.

(** X20.  An encoder once cached is used whatever the later model hint,
    until [withTokenizer] ends: after a call under hint [hintA] that
    resolved the encoder [encA], a call under another hint returns the
    count of [encA], or throws when [encA] does; when the first call ran
    inside [withTokenizer], the second resolves its own hint. *)
Theorem cached_encoder_outlives_its_hint (pkg : option Package)
        (optsA optsB : TokenizerOptions) (encA : Encoder) (t1 t2 : str) :
  approximate optsA <> Some true ->
  approximate optsB <> Some true ->
  resolve pkg (model optsA) = Some encA ->
  fst (TokenizerCache.countTokens pkg t2 optsB
         (snd (TokenizerCache.countTokens pkg t1 optsA None)))
  = option_map strlen (encA t2) /\
  fst (TokenizerCache.countTokens pkg t2 optsB
         (snd (withTokenizer
                 (fun cache =>
                    let (n, cache') :=
                      TokenizerCache.countTokens pkg t1 optsA cache in
                    (result n, cache')) None)))
  = tokenCount (resolve pkg) optsB t2.
Proof.
  intros HA HB HencA. split.
  - unfold TokenizerCache.countTokens at 2.
    unfold resolve in HencA.
    destruct (approximate optsA) as [[|]|]; try contradiction;
      rewrite HencA; cbn [snd];
      unfold TokenizerCache.countTokens;
      destruct (approximate optsB) as [[|]|]; try contradiction; reflexivity.
  - unfold withTokenizer.
    destruct (TokenizerCache.countTokens pkg t1 optsA None) as [n c].
    cbn [snd].
    apply (countTokens_resolved pkg optsB t2). now left.
Qed.

Lemma cached_encoder_outlives_its_hint_witness :
  let optsA := {| model := Some (lit "a"); approximate := None |} in
  let optsB := {| model := Some (lit "b"); approximate := Some false |} in
  fst (TokenizerCache.countTokens (Some twoEncodings) (lit "abcd") optsB
         (snd (TokenizerCache.countTokens (Some twoEncodings) (lit "xy")
                                          optsA None)))
  = Some 4 /\
  fst (TokenizerCache.countTokens (Some twoEncodings) (lit "abcd") optsB
         (snd (withTokenizer
                 (fun cache =>
                    let (n, cache') :=
                      TokenizerCache.countTokens (Some twoEncodings)
                                                 (lit "xy") optsA cache in
                    (result n, cache')) None)))
  = Some 2.
Proof.
  intros optsA optsB.
  apply (@cached_encoder_outlives_its_hint (Some twoEncodings) optsA optsB
           lengthEncoder (lit "xy") (lit "abcd"));
    [discriminate|discriminate|reflexivity].
Defined.

End CacheFacts.

(** * Greedy packing of the rows *)

Module GreedyRowFacts.
Import SplitCsv PackingSpec Invariants SplitTextFacts SplitCsvFacts.
Import Greedy GreedyFacts ApproximateFacts Counting.

Lemma total_nonneg (c : str -> Z) (g : list str) :
  Forall (fun x => 0 <= c x) g -> 0 <= total c g.
Proof.
  induction 1 as [|x g Hx _ IH]; [unfold total; cbn; lia|].
  change (x :: g) with ([x] ++ g). rewrite total_app, total_single. lia.
Qed.

Lemma total_member (c : str -> Z) (g : list str) (r : str) :
  Forall (fun x => 0 <= c x) g -> In r g -> c r <= total c g.
Proof.
  induction 1 as [|x g Hx Hg IH]; intros Hin; [contradiction|].
  change (x :: g) with ([x] ++ g). rewrite total_app, total_single.
  pose proof (@total_nonneg c g Hg).
  destruct Hin as [->|Hin]; [lia|]. specialize (IH Hin). lia.
Qed.

Section Packing.

Variable tk : Tiktoken.
Variable fsys : FileSystem.
Variable basename : str -> str -> str.
Variable extname : str -> str.
Variable pathJoin : str -> str -> str.
Variable opts : SplitCsvOptions.

(** [count] names what the counter returns under the options of the
    packer. *)
Variable count : str -> Z.
Hypothesis named : namesCounts tk (topts opts) count.

Abbreviation budget := (maxTokens opts).
Abbreviation rowCount := (Invariants.rowCount count opts).
Abbreviation okRows := (Invariants.okRows count opts).
Abbreviation csvInv := (Invariants.csvInv count opts).
Abbreviation rowsInv := (Greedy.rowsInv count opts).
Abbreviation rowFails := (Counting.rowFails tk opts).
Abbreviation flush := (flushPart basename extname pathJoin opts).
Abbreviation step := (processLine tk basename extname pathJoin opts).
Abbreviation loop := (processLines tk basename extname pathJoin opts).

(** A row that is counted: its count is named, and is not negative. *)
Lemma row_counted (line : str) :
  ~ rowFails line ->
  tokenCount tk (topts opts) (rowTextForTokens opts line)
  = Some (rowCount line) /\ 0 <= rowCount line.
Proof.
  intros Hok.
  destruct (count_cases named (rowTextForTokens opts line)) as [Hn|Hn];
    [|contradiction].
  split; [exact Hn|]. exact (tokenCount_nonneg _ _ _ Hn).
Qed.

Lemma wrote_count (h : str) (st st' : CsvState) (line : str)
      (log : list event) (gs : list (list str)) :
  wrote h st st' log gs ->
  wrote h st st' (EvCount line :: log) gs.
Proof. intros H. exact H. Qed.

(** The three ways of a data row that is counted, with the groups each of
    them writes. *)
Lemma processLine_row_cases (h : str) (st : CsvState) (line : str) :
  0 < budget -> csvInv h st -> nonBlank line = true ->
  tokenCount tk (topts opts) (rowTextForTokens opts line)
  = Some (rowCount line) ->
  exists log st',
    step st line = (log, inr st') /\ csvInv h st' /\
    ((rowCount line > budget /\ currentLines st' = [] /\
      wrote h st st' log (flushedRows st ++ [[line]])) \/
     (rowCount line <= budget /\
      currentTokens st + rowCount line > budget /\
      currentLines st' = [line] /\
      wrote h st st' log (flushedRows st)) \/
     (rowCount line <= budget /\
      currentTokens st + rowCount line <= budget /\
      currentLines st' = currentLines st ++ [line] /\
      wrote h st st' log [])).
Proof.
  intros Hpos Hinv Hnb Hn. pose proof Hinv as (Hh & Hne & Hcur & Hb).
  unfold processLine. unfold nonBlank in Hnb. apply negb_true_iff in Hnb.
  rewrite Hnb, Hh. destruct h as [|c h]; [contradiction|].
  destruct (rowCount line >? budget) eqn:Cr.
  - destruct (@flushPart_run basename extname pathJoin opts (c :: h) st Hh Hne)
      as [l1 [st1 [Hrun1 (Hh1 & Hl1 & _ & _ & W1)]]].
    set (st1' := {| header := header st1; part := part st1;
                    currentTokens := rowCount line; currentLines := [line];
                    partPaths := partPaths st1 |}).
    assert (Hh1' : header st1' = Some (c :: h)) by exact Hh1.
    destruct (@flushPart_run basename extname pathJoin opts (c :: h) st1'
                Hh1' Hne)
      as [l2 [st2 [Hrun2 (Hh2 & Hl2 & Ht2 & _ & W2)]]].
    exists (EvCount (rowTextForTokens opts line) :: l1 ++ l2), st2.
    split; [|split].
    + eapply bind_countTokens; [exact Hn|].
      rewrite Cr. eapply bind_inr; [exact Hrun1|exact Hrun2].
    + unfold Invariants.csvInv. rewrite Hl2, Ht2 by discriminate.
      split; [assumption|]. split; [assumption|]. cbn. split; lia.
    + left. split; [apply Z.gtb_lt in Cr; lia|]. split; [assumption|].
      apply wrote_count. eapply wrote_trans; [exact W1|exact W2].
  - rewrite Z.gtb_ltb in Cr. apply Z.ltb_ge in Cr.
    assert (Cr' : (rowCount line >? budget) = false)
      by (rewrite Z.gtb_ltb; apply Z.ltb_ge; exact Cr).
    destruct (currentTokens st + rowCount line >? budget) eqn:Cs.
    + destruct (@flushPart_run basename extname pathJoin opts (c :: h) st
                  Hh Hne)
        as [l1 [st1 [Hrun1 (Hh1 & Hl1 & Ht1 & Hsame & W1)]]].
      assert (Ht1' : currentTokens st1 = 0).
      { destruct (currentLines st) eqn:E.
        - rewrite (Hsame eq_refl), Hcur. reflexivity.
        - apply Ht1. discriminate. }
      eexists (EvCount (rowTextForTokens opts line) :: l1 ++ []), _.
      split; [|split].
      * eapply bind_countTokens; [exact Hn|]. rewrite Cr', Cs.
        eapply bind_inr; [exact Hrun1|reflexivity].
      * unfold Invariants.csvInv. cbn [header currentTokens currentLines].
        rewrite Hl1, Ht1'. cbn [app]. rewrite total_single.
        split; [assumption|]. split; [assumption|]. split; lia.
      * right. left. split; [exact Cr|].
        split; [apply Z.gtb_lt in Cs; lia|].
        cbn [currentLines]. rewrite Hl1. split; [reflexivity|].
        rewrite app_nil_r. apply wrote_count.
        destruct W1 as (W1 & P1 & Q1). unfold wrote. cbn [part partPaths].
        auto.
    + rewrite Z.gtb_ltb in Cs. apply Z.ltb_ge in Cs.
      eexists [EvCount (rowTextForTokens opts line)], _.
      split; [|split].
      * eapply bind_countTokens; [exact Hn|]. rewrite Cr'.
        assert (Cs' : (currentTokens st + rowCount line >? budget) = false)
          by (rewrite Z.gtb_ltb; apply Z.ltb_ge; exact Cs).
        rewrite Cs'. reflexivity.
      * unfold Invariants.csvInv. cbn [header currentTokens currentLines].
        rewrite total_app, total_single.
        split; [assumption|]. split; [assumption|]. split; lia.
      * right. right. split; [exact Cr|]. split; [exact Cs|].
        split; [reflexivity|]. apply wrote_nothing; reflexivity.
Qed.

Lemma closedWhenFull_after_oversized (gs : list (list str)) (u : str)
      (h' : list str) :
  0 <= rowCount u ->
  closedWhenFull rowCount budget gs ->
  gs = [] \/ (exists gs' r, gs = gs' ++ [[r]] /\ rowCount r > budget) ->
  closedWhenFull rowCount budget (gs ++ [u :: h']).
Proof.
  intros Hu Hc [-> | (gs' & r & -> & Hr)].
  - apply closedWhenFull_one.
  - apply closedWhenFull_snoc; [assumption|].
    rewrite total_single. lia.
Qed.

(** One data row that is counted keeps the parts greedy. *)
Lemma processLine_row_greedy (h : str) (st : CsvState) (line : str)
      (gs0 : list (list str)) :
  0 < budget -> csvInv h st -> nonBlank line = true ->
  ~ rowFails line ->
  rowsInv st gs0 ->
  exists log st' gs,
    step st line = (log, inr st') /\ csvInv h st' /\
    wrote h st st' log gs /\
    concat gs ++ currentLines st' = currentLines st ++ [line] /\
    Forall okRows gs /\
    rowsInv st' (gs0 ++ gs).
Proof.
  intros Hpos Hinv Hnb Hok [Hnn Hg].
  destruct (row_counted Hok) as [Hn Hline].
  pose proof Hinv as (_ & _ & Hcur & _).
  pose proof (flushedRows_ok Hinv) as Hfl.
  destruct (@processLine_row_cases h st line Hpos Hinv Hnb Hn)
    as [log [st' (Hrun & Hinv' & Hcase)]].
  unfold Greedy.rowsInv. unfold flushedRows in Hcase, Hfl.
  destruct Hcase as [(Hr & Hl' & W)|[(Hr & Hs & Hl' & W)|(Hr & Hs & Hl' & W)]].
  - (* over the budget: a part of its own *)
    assert (Hone : okRows [line]).
    { split; [discriminate|]. right. now exists line. }
    destruct (currentLines st) as [|x cur] eqn:E.
    + exists log, st', [[line]].
      split; [assumption|]. split; [assumption|]. split; [assumption|].
      rewrite Hl'. split; [reflexivity|].
      split; [constructor; [exact Hone|constructor]|].
      split; [constructor|]. destruct Hg as [Hc Hlast].
      split; [now apply closedWhenFull_after_oversized|].
      right. now exists gs0, line.
    + exists log, st', [x :: cur; [line]].
      split; [assumption|]. split; [assumption|]. split; [assumption|].
      rewrite Hl'. split; [cbn; now rewrite !app_nil_r|].
      split.
      { inversion Hfl; subst. constructor; [assumption|].
        constructor; [exact Hone|constructor]. }
      split; [constructor|].
      change (gs0 ++ [x :: cur; [line]])
        with (gs0 ++ [x :: cur] ++ [[line]]). rewrite app_assoc.
      split.
      * apply closedWhenFull_snoc; [assumption|].
        pose proof (@total_nonneg _ _ Hnn). lia.
      * right. now exists (gs0 ++ [x :: cur]), line.
  - (* the open part is full *)
    destruct (currentLines st) as [|x cur] eqn:E.
    + rewrite Hcur in Hs. cbn in Hs. lia.
    + exists log, st', [x :: cur].
      split; [assumption|]. split; [assumption|]. split; [assumption|].
      rewrite Hl'. split; [cbn; now rewrite app_nil_r|].
      split; [exact Hfl|].
      split; [constructor; [exact Hline|constructor]|].
      apply closedWhenFull_snoc; [assumption|]. rewrite <- Hcur. lia.
  - (* the row fits *)
    exists log, st', [].
    split; [assumption|]. split; [assumption|]. split; [assumption|].
    rewrite Hl', app_nil_r. split; [reflexivity|]. split; [constructor|].
    split.
    { apply Forall_app. split; [exact Hnn|].
      constructor; [exact Hline|constructor]. }
    destruct (currentLines st) as [|x cur] eqn:E.
    + destruct Hg as [Hc Hlast]. cbn [app].
      now apply closedWhenFull_after_oversized.
    + cbn [app]. change (x :: cur ++ [line]) with ((x :: cur) ++ [line]).
      now apply closedWhenFull_grow.
Qed.

Lemma processLines_rows_greedy (h : str) :
  0 < budget ->
  forall (lines : list str) (st : CsvState) (gs0 : list (list str)),
    csvInv h st -> rowsInv st gs0 ->
    Forall (fun row => ~ rowFails row) (filter nonBlank lines) ->
    exists log st' gs,
      loop lines st = (log, inr st') /\ csvInv h st' /\
      wrote h st st' log gs /\
      concat gs ++ currentLines st' = currentLines st ++ filter nonBlank lines /\
      Forall okRows gs /\
      rowsInv st' (gs0 ++ gs).
Proof.
  intros Hpos. induction lines as [|line lines IH]; intros st gs0 Hinv Hg Hok.
  - exists [], st, []. split; [reflexivity|]. split; [assumption|].
    split; [apply wrote_nothing; reflexivity|].
    rewrite !app_nil_r. split; [reflexivity|]. split; [constructor|assumption].
  - cbn [processLines filter] in *. destruct (nonBlank line) eqn:Hnb.
    + inversion Hok as [|? ? Hline Hrest]; subst.
      destruct (@processLine_row_greedy h st line gs0 Hpos Hinv Hnb Hline Hg)
        as [l1 [st1 [g1 (R1 & I1 & W1 & C1 & O1 & G1)]]].
      destruct (IH st1 (gs0 ++ g1) I1 G1 Hrest)
        as [l2 [st2 [g2 (R2 & I2 & W2 & C2 & O2 & G2)]]].
      exists (l1 ++ l2), st2, (g1 ++ g2).
      split; [eapply bind_inr; eassumption|]. split; [assumption|].
      split; [eapply wrote_trans; eassumption|].
      split; [|split; [apply Forall_app; split; assumption
                      |now rewrite app_assoc]].
      rewrite concat_app, <- app_assoc, C2, app_assoc, C1, <- app_assoc.
      reflexivity.
    + rewrite (processLine_blank _ _ _ _ _ st line Hnb), bind_ret.
      now apply IH.
Qed.

(** A row over the budget is alone in its part. *)
Lemma okRows_oversized_alone (g : list str) (row : str) :
  okRows g -> Forall (fun r => 0 <= rowCount r) g ->
  In row g -> rowCount row > budget -> g = [row].
Proof.
  intros [_ [Hle|[r [-> Hr]]]] Hnn Hin Hrow.
  - pose proof (@total_member _ _ _ Hnn Hin). lia.
  - destruct Hin as [->|[]]. reflexivity.
Qed.

(** X21.  When the count of no row fails the row packer packs greedily: it
    returns, the parts it wrote hold the data rows in order, every part
    but the last was closed only because the next row would not fit, and
    a row over the budget is a part of its own. *)
Theorem rows_are_packed_greedily (lines : list str) (h : str)
        (rows : list str) :
  fsys (inputPath opts) = Some lines ->
  0 < budget ->
  assumeNoMultilineFields opts <> Some false ->
  filter nonBlank lines = h :: rows ->
  Forall (fun row => ~ rowFails row) rows ->
  exists log groups paths,
    splitCsvByTokens tk fsys basename extname pathJoin opts
    = (log, inr (Z.of_nat (length groups), paths)) /\
    List.map snd (writes log) = List.map (partText h) groups /\
    concat groups = rows /\
    closedWhenFull rowCount budget groups /\
    (forall g row,
        In g groups -> In row g -> rowCount row > budget -> g = [row]).
Proof.
  intros Hfs Hpos Hml Hf Hok.
  rewrite (@splitCsvByTokens_guards tk fsys basename extname pathJoin opts
             lines Hfs Hpos Hml).
  destruct (@processLines_header tk basename extname pathJoin opts lines
              initial h rows eq_refl Hf) as [rest (Hstart & Hrows & Hnb)].
  rewrite Hstart. cbn [part currentTokens currentLines partPaths initial].
  set (st0 := {| header := Some h; part := 0; currentTokens := 0;
                 currentLines := []; partPaths := [] |}).
  assert (Hne : h <> []) by now apply nonBlank_nonempty.
  assert (I0 : csvInv h st0).
  { unfold Invariants.csvInv, st0. cbn. repeat split; try assumption; lia. }
  assert (G0 : rowsInv st0 []).
  { unfold Greedy.rowsInv, st0. cbn [currentLines].
    split; [constructor|]. split; [apply closedWhenFull_nil|now left]. }
  rewrite <- Hrows in Hok.
  destruct (@processLines_rows_greedy h Hpos rest st0 [] I0 G0 Hok)
    as [l1 [st1 [g1 (R1 & I1 & W1 & C1 & O1 & [Hnn G1])]]].
  pose proof (flushedRows_ok I1) as Hfl.
  destruct I1 as (Hh1 & _ & Hcur1 & Hb1).
  destruct (@flushPart_run basename extname pathJoin opts h st1 Hh1 Hne)
    as [l2 [st2 (R2 & Hh2 & Hl2 & _ & _ & W2)]].
  destruct (wrote_trans W1 W2) as (W & P & Q).
  assert (Hcat : concat (g1 ++ flushedRows st1) = rows).
  { rewrite concat_app, concat_flushedRows, C1, Hrows. reflexivity. }
  exists (EvExists (inputPath opts) :: EvMkdir (outDir opts)
          :: EvOpen (inputPath opts) :: l1 ++ l2),
    (g1 ++ flushedRows st1), (partPaths st2).
  assert (Hw : writes (EvExists (inputPath opts) :: EvMkdir (outDir opts)
                       :: EvOpen (inputPath opts) :: l1 ++ l2)
               = writes (l1 ++ l2)) by reflexivity.
  rewrite Hw.
  split; [|split; [|split; [|split]]].
  - do 3 apply tell_bind.
    eapply bind_inr; [exact R1|]. rewrite <- (app_nil_r l2).
    eapply bind_inr; [exact R2|]. unfold ret. rewrite P. reflexivity.
  - rewrite W. apply map_ext. intros g. apply partContent_lines.
  - exact Hcat.
  - unfold flushedRows. cbn [app] in G1.
    destruct (currentLines st1); [|exact G1].
    rewrite app_nil_r. apply G1.
  - intros g row Hg Hrow Hover.
    assert (Hall : Forall okRows (g1 ++ flushedRows st1))
      by (apply Forall_app; split; assumption).
    rewrite Forall_forall in Hall.
    apply (okRows_oversized_alone (Hall g Hg)); [|assumption|assumption].
    apply Forall_forall. intros r Hr.
    assert (Hin : In r rows).
    { rewrite <- Hcat. apply in_concat. now exists g. }
    rewrite <- Hrows in Hin. rewrite Forall_forall in Hok.
    now apply row_counted, Hok.
Qed.

End Packing.

Lemma rows_are_packed_greedily_witness :
  exists log groups paths,
    splitCsvByTokens Examples.noEncoder (Examples.oneFile Examples.fiveRows)
                     Examples.basename Examples.extname Examples.pathJoin
                     (Examples.csvOptions 25 None)
    = (log, inr (Z.of_nat (length groups), paths)) /\
    List.map snd (writes log) = List.map (partText (lit "a,b")) groups /\
    concat groups = repeat (repeat 120%N 40) 5 /\
    closedWhenFull
      (Invariants.rowCount approximateTokenCount
                           (Examples.csvOptions 25 None))
      25 groups /\
    (forall g row,
        In g groups -> In row g ->
        Invariants.rowCount approximateTokenCount
                            (Examples.csvOptions 25 None) row > 25 ->
        g = [row]).
Proof.
  apply (@rows_are_packed_greedily Examples.noEncoder
           (Examples.oneFile Examples.fiveRows) Examples.basename
           Examples.extname Examples.pathJoin (Examples.csvOptions 25 None)
           approximateTokenCount
           (namesCounts_approximate Examples.noEncoder
              (topts (Examples.csvOptions 25 None))
              (or_introl eq_refl))
           Examples.fiveRows (lit "a,b") (repeat (repeat 120%N 40) 5));
    [reflexivity|reflexivity|discriminate|reflexivity|].
  repeat constructor; discriminate.
Defined.

End GreedyRowFacts.

(** * A failed count is not swallowed *)

Module FailureFacts.
Import SplitText SplitCsv PackingSpec Invariants Counting.
Import SplitTextFacts SplitCsvFacts RowFacts.

(** X22.  A failed count is not swallowed by the text chunker: when the
    count of a unit fails, the chunker, with a positive budget, is aborted
    by a tokenization failure and returns no chunk. *)
Theorem failed_unit_count_aborts (tk : Tiktoken) (opts : SplitTextOptions)
        (fuel : nat) (text : str) :
  0 < SplitText.maxTokens opts -> (length text <= fuel)%nat ->
  Exists (fun u => tokenCount tk (SplitText.topts opts) u = None)
         (segment (theMode opts) text) ->
  outcome (splitTextIntoTokenChunks tk opts fuel text)
  = inl TokenizationFailure.
Proof.
  intros Hpos Hfuel Hex.
  destruct (@splitText_run tk opts (countOr0 tk (SplitText.topts opts))
              (namesCounts_countOr0 tk (SplitText.topts opts)) fuel text
              Hpos Hfuel)
    as [[log [gs (Hrun & _)]]|[Hab _]]; [|exact Hab].
  exfalso. apply splitText_returned in Hrun.
  apply Exists_exists in Hex as [u [Hin Hf]].
  rewrite Forall_forall in Hrun. exact (Hrun u Hin Hf).
Qed.

Lemma failed_unit_count_aborts_witness :
  outcome (splitTextIntoTokenChunks Examples.strictTiktoken
             (Examples.exactTextOptions 10) 30 Examples.poisonedText)
  = inl TokenizationFailure.
Proof.
  apply (@failed_unit_count_aborts Examples.strictTiktoken
           (Examples.exactTextOptions 10) 30%nat Examples.poisonedText);
    [reflexivity|apply Nat.leb_le; reflexivity|].
  right. left. reflexivity.
Defined.

Section Rows.

Variable tk : Tiktoken.
Variable fsys : FileSystem.
Variable basename : str -> str -> str.
Variable extname : str -> str.
Variable pathJoin : str -> str -> str.
Variable opts : SplitCsvOptions.

Abbreviation budget := (SplitCsv.maxTokens opts).
Abbreviation rowFails := (Counting.rowFails tk opts).

(** X23.  A failed count is not swallowed by the row packer: when the
    count of a data row fails, the packer, past its guards, is aborted by a
    tokenization failure and does not return. *)
Theorem failed_row_count_aborts (lines : list str) (h : str)
        (rows : list str) :
  fsys (inputPath opts) = Some lines ->
  0 < budget ->
  assumeNoMultilineFields opts <> Some false ->
  filter nonBlank lines = h :: rows ->
  Exists rowFails rows ->
  outcome (splitCsvByTokens tk fsys basename extname pathJoin opts)
  = inl TokenizationFailure.
Proof.
  intros Hfs Hpos Hml Hf Hex.
  destruct (@splitCsv_run tk fsys basename extname pathJoin opts
              (countOr0 tk (SplitCsv.topts opts))
              (namesCounts_countOr0 tk (SplitCsv.topts opts)) lines h rows
              Hfs Hpos Hml Hf)
    as [log [gs (_ & _ & [[paths (Hrun & _)]|[Hrun _]])]];
    [|now rewrite Hrun].
  exfalso.
  pose proof (@splitCsv_returned tk fsys basename extname pathJoin opts
                lines h rows log _ Hfs Hpos Hml Hf Hrun) as Hok.
  apply Exists_exists in Hex as [row [Hin Hfail]].
  rewrite Forall_forall in Hok. exact (Hok row Hin Hfail).
Qed.

End Rows.

Lemma failed_row_count_aborts_witness :
  outcome (splitCsvByTokens Examples.strictTiktoken
             (Examples.oneFile Examples.poisonedRows) Examples.basename
             Examples.extname Examples.pathJoin (Examples.exactCsvOptions 5))
  = inl TokenizationFailure.
Proof.
  apply (@failed_row_count_aborts Examples.strictTiktoken
           (Examples.oneFile Examples.poisonedRows) Examples.basename
           Examples.extname Examples.pathJoin (Examples.exactCsvOptions 5)
           Examples.poisonedRows (lit "id,body")
           [lit "1,one"; lit "2,two"; lit "3,<|endoftext|>"; lit "4,four"]);
    [reflexivity|reflexivity|discriminate|reflexivity|].
  right. right. left. reflexivity.
Defined.

End FailureFacts.
